(** * WGAN-GP notebook (Week12/WGAN-GP.ipynb): a shallow embedding

    The notebook builds a fully connected [Generator] and [Discriminator],
    defines [compute_gradient_penalty] and runs the adversarial training loop.
    Tensors hold ideal real numbers: the notebook's 32-bit floats are read as
    the reals they approximate, which is exact for shapes, schedules and the
    structure of the formulas.  Where rounding decides a property (a sigmoid
    that reaches 0 or 1), the forward pass of the discriminator is given a
    second time on IEEE 754 binary32 numbers, in the part on single
    precision.  The random draws of the notebook ([np.random.random],
    [np.random.normal], the shuffled data loader) are explicit inputs of the
    functions that consume them. *)

From Stdlib Require Import Reals Lra Lia List Arith Bool ZArith SpecFloat.
Import ListNotations.

Open Scope R_scope.

(** ** Vectors and matrices of reals *)

Definition vec := list R.
Definition matrix := list vec.

Fixpoint sum (l : vec) : R :=
  match l with
  | [] => 0
  | a :: l' => a + sum l'
  end.

(** [torch.mean]: the arithmetic mean of all the elements. *)
Definition mean (l : vec) : R := sum l / INR (length l).

Fixpoint dot (u v : vec) : R :=
  match u, v with
  | a :: u', b :: v' => a * b + dot u' v'
  | _, _ => 0
  end.

Fixpoint map2 {A B C : Type} (f : A -> B -> C) (u : list A) (v : list B) : list C :=
  match u, v with
  | a :: u', b :: v' => f a b :: map2 f u' v'
  | _, _ => []
  end.

Definition numel (s : list nat) : nat := fold_right Nat.mul 1%nat s.

(** [x.norm(2)] of one row. *)
Definition norm2 (v : vec) : R := sqrt (sum (map (fun a => a * a) v)).

(** ** Tensors

    A tensor of shape [(n, d1, ..., dk)] is stored sample-major: one flattened
    row of [d1 * ... * dk] reals per sample, [n] being the number of rows.  A
    [view] that keeps the first dimension only changes [dims]. *)

Record tensor : Type := mk_tensor { dims : list nat; rows : matrix }.

Definition size0 (t : tensor) : nat := length (rows t).
Definition shape (t : tensor) : list nat := size0 t :: dims t.

Definition wf_tensor (t : tensor) : Prop :=
  Forall (fun r => length r = numel (dims t)) (rows t).

(** All the elements, in storage order. *)
Definition elements (t : tensor) : vec := concat (rows t).

(** ** Error monad for the framework's shape checks

    [None] stands for the exception that the framework raises. *)

Definition bind {A B : Type} (m : option A) (f : A -> option B) : option B :=
  match m with
  | Some a => f a
  | None => None
  end.

Notation "x <- m ;; k" := (bind m (fun x => k))
  (at level 61, m at next level, right associativity).

(** ** The pre-built layers ([torch.nn]) *)

Inductive layer : Type :=
| Linear (in_features out_features : nat) (weight : matrix) (bias : vec)
| BatchNorm1d (num_features : nat) (eps momentum : R) (weight bias : vec)
| LeakyReLU (negative_slope : R)
| Tanh
| Sigmoid.

Definition Sequential := list layer.

Definition wf_vec (n : nat) (v : vec) : Prop := length v = n.
Definition wf_matrix (n m : nat) (w : matrix) : Prop :=
  length w = n /\ Forall (fun r => length r = m) w.

(** Parameter tensors have the shapes their constructor gives them:
    [weight : (out_features, in_features)], [bias : (out_features)]. *)
Definition wf_layer (l : layer) : Prop :=
  match l with
  | Linear i o w b => wf_matrix o i w /\ wf_vec o b
  | BatchNorm1d c _ _ w b => wf_vec c w /\ wf_vec c b
  | _ => True
  end.

(** *** Elementwise activations

    Over the reals [sigmoid] stays strictly between 0 and 1 and [tanh]
    strictly between -1 and 1.  Their binary32 versions reach these bounds:
    only the closed ranges [0, 1] and [-1, 1] hold of both, and the binary32
    sigmoid is [sigmoid32] below. *)

Definition leaky_relu (negative_slope x : R) : R :=
  if Rlt_dec 0 x then x else negative_slope * x.

Definition sigmoid (x : R) : R := 1 / (1 + exp (- x)).

(** *** Numerical semantics on a batch (one row per sample) *)

(** [F.linear]: [y = x W^T + b]. *)
Definition linear_row (w : matrix) (b : vec) (x : vec) : vec :=
  map2 (fun wk bk => dot wk x + bk) w b.

Definition column (j : nat) (x : matrix) : vec := map (fun r => nth j r 0) x.

(** Biased variance, as batch normalisation uses in training mode. *)
Definition var_biased (l : vec) : R :=
  mean (map (fun a => (a - mean l) * (a - mean l)) l).

(** Training-mode batch normalisation of feature [j] of row [r]: the
    statistics are those of the batch [x].  The running statistics, which
    only evaluation mode reads, are left out. *)
Definition batch_norm_elem (x : matrix) (eps : R) (w b : vec) (r : vec) (j : nat) : R :=
  (nth j r 0 - mean (column j x)) / sqrt (var_biased (column j x) + eps)
  * nth j w 0 + nth j b 0.

Definition batch_norm (c : nat) (eps : R) (w b : vec) (x : matrix) : matrix :=
  map (fun r => map (batch_norm_elem x eps w b r) (seq 0 c)) x.

(** The values a layer computes on a batch.  The checks at which the
    framework raises instead (a wrong number of columns, a single row under
    batch normalisation in training mode) are those of [layer_dims] below, and
    [forward_seq] runs both: [apply_layer] alone is the layer's output only
    on the batches that [layer_dims] accepts.  [Tanh] and [Sigmoid] are the
    real functions. *)
Definition apply_layer (l : layer) (x : matrix) : matrix :=
  match l with
  | Linear _ _ w b => map (linear_row w b) x
  | BatchNorm1d c eps _ w b => batch_norm c eps w b x
  | LeakyReLU s => map (map (leaky_relu s)) x
  | Tanh => map (map tanh) x
  | Sigmoid => map (map sigmoid) x
  end.

(** *** Shape checks

    [Linear] wants [in_features] columns; [BatchNorm1d] in training mode (the
    notebook never calls [eval()]) wants [num_features] columns and refuses a
    batch with a single value per channel ("Expected more than 1 value per
    channel when training").  Both are given for the two-dimensional inputs
    [(n, d)] that the notebook's [Sequential]s receive; the activations
    accept every shape. *)
Definition layer_dims (l : layer) (n : nat) (d : list nat) : option (list nat) :=
  match l with
  | Linear i o _ _ =>
      match d with
      | [k] => if (k =? i)%nat then Some [o] else None
      | _ => None
      end
  | BatchNorm1d c _ _ _ _ =>
      match d with
      | [k] => if ((k =? c) && negb (n =? 1))%nat then Some [k] else None
      | _ => None
      end
  | _ => Some d
  end.

Definition forward_layer (l : layer) (t : tensor) : option tensor :=
  d <- layer_dims l (size0 t) (dims t) ;;
  Some (mk_tensor d (apply_layer l (rows t))).

Fixpoint forward_seq (m : Sequential) (t : tensor) : option tensor :=
  match m with
  | [] => Some t
  | l :: m' => t' <- forward_layer l t ;; forward_seq m' t'
  end.

(** [t.view(t.size(0), *d)]: the element count must not change. *)
Definition view0 (d : list nat) (t : tensor) : option tensor :=
  if (size0 t * numel (dims t) =? size0 t * numel d)%nat
  then Some (mk_tensor d (rows t)) else None.

(** [t.view(t.size(0), -1)]: the remaining dimension cannot be inferred when
    the first one is 0.  A [tensor] stands for a contiguous tensor, as are
    all the tensors the notebook builds: the memory layout, on which [view]
    also depends, is not part of the model. *)
Definition flatten0 (t : tensor) : option tensor :=
  if (size0 t =? 0)%nat then None
  else Some (mk_tensor [numel (dims t)] (rows t)).

(** ** The dataset constants the notebook reads *)

Definition batch_size : nat := 100.

(** [example_data.shape]: one batch of single-channel 28 x 28 digit images. *)
Definition example_data_shape : list nat := [batch_size; 1; 28; 28]%nat.

Definition z_dim : nat := 100.

(** [train_data.size(1) * train_data.size(2)] *)
Definition mnist_dim : nat := (28 * 28)%nat.

(** ** Generator *)

(** The initial values of the generator's parameter tensors, in the order the
    constructor creates them. *)
Record linear_init : Type := mk_linear_init { init_weight : matrix; init_bias : vec }.
Record norm_init : Type := mk_norm_init { init_gamma : vec; init_beta : vec }.

Definition block (in_feat out_feat : nat) (normalize : bool)
    (li : linear_init) (ni : norm_init) : list layer :=
  let layers := [Linear in_feat out_feat (init_weight li) (init_bias li)] in
  let layers :=
    if normalize
    then layers ++ [BatchNorm1d out_feat 0.8 0.1 (init_gamma ni) (init_beta ni)]
    else layers in
  layers ++ [LeakyReLU 0.2].

Record Generator_init : Type := mk_Generator_init {
  gl1 : linear_init;
  gl2 : linear_init; gn2 : norm_init;
  gl3 : linear_init; gn3 : norm_init;
  gl4 : linear_init; gn4 : norm_init;
  gl5 : linear_init
}.

Record Generator : Type := mk_Generator { G_model : Sequential }.

Definition no_norm : norm_init := mk_norm_init [] [].

Definition Generator__init__ (g_input_dim g_output_dim : nat) (p : Generator_init)
    : Generator :=
  mk_Generator
    (block g_input_dim 128 false (gl1 p) no_norm
     ++ block 128 256 true (gl2 p) (gn2 p)
     ++ block 256 512 true (gl3 p) (gn3 p)
     ++ block 512 1024 true (gl4 p) (gn4 p)
     ++ [Linear 1024 g_output_dim (init_weight (gl5 p)) (init_bias (gl5 p));
         Tanh]).

Definition Generator_forward (g : Generator) (z : tensor) : option tensor :=
  image <- forward_seq (G_model g) z ;;
  view0 (tl example_data_shape) image.

(** ** Discriminator *)

Record Discriminator_init : Type := mk_Discriminator_init {
  dl1 : linear_init; dl2 : linear_init; dl3 : linear_init
}.

Record Discriminator : Type := mk_Discriminator { D_model : Sequential }.

Definition Discriminator__init__ (d_input_dim : nat) (p : Discriminator_init)
    : Discriminator :=
  mk_Discriminator
    [Linear d_input_dim 512 (init_weight (dl1 p)) (init_bias (dl1 p));
     LeakyReLU 0.2;
     Linear 512 256 (init_weight (dl2 p)) (init_bias (dl2 p));
     LeakyReLU 0.2;
     Linear 256 1 (init_weight (dl3 p)) (init_bias (dl3 p));
     Sigmoid].

Definition Discriminator_forward (d : Discriminator) (image : tensor) : option tensor :=
  img_flat <- flatten0 image ;;
  forward_seq (D_model d) img_flat.

(** ** Parameters

    [m.parameters()], flattened: every weight matrix row by row, then its
    bias, layer after layer. *)
Fixpoint parameters (m : Sequential) : vec :=
  match m with
  | [] => []
  | Linear _ _ w b :: m' => concat w ++ b ++ parameters m'
  | BatchNorm1d _ _ _ w b :: m' => w ++ b ++ parameters m'
  | _ :: m' => parameters m'
  end.

Fixpoint chunks (n m : nat) (l : vec) : matrix :=
  match n with
  | O => []
  | S n' => firstn m l :: chunks n' m (skipn m l)
  end.

(** The same layers holding the parameter values [theta]: what an in-place
    update of the parameter tensors leaves behind. *)
Fixpoint load_parameters (m : Sequential) (theta : vec) : Sequential :=
  match m with
  | [] => []
  | Linear i o _ _ :: m' =>
      Linear i o (chunks o i theta) (firstn o (skipn (o * i) theta))
      :: load_parameters m' (skipn (o * i + o) theta)
  | BatchNorm1d c e mo _ _ :: m' =>
      BatchNorm1d c e mo (firstn c theta) (firstn c (skipn c theta))
      :: load_parameters m' (skipn (c + c) theta)
  | l :: m' => l :: load_parameters m' theta
  end.

(** ** The pre-built optimizer ([torch.optim.Adam])

    One parameter group; [eps] is the constructor's default, there is no
    weight decay. *)
Record Adam : Type := mk_Adam {
  opt_lr : R;
  opt_betas : R * R;
  opt_eps : R;
  state_step : nat;
  exp_avg : vec;
  exp_avg_sq : vec
}.

Definition Adam__init__ (params : vec) (lr : R) (betas : R * R) : Adam :=
  mk_Adam lr betas (1 / 100000000) 0
    (map (fun _ => 0) params) (map (fun _ => 0) params).

(** The update of one parameter, in exact arithmetic. *)
Definition adam_update (o : Adam) (t : nat) (p m v : R) : R :=
  let bias_correction1 := 1 - fst (opt_betas o) ^ t in
  let bias_correction2 := 1 - snd (opt_betas o) ^ t in
  let step_size := opt_lr o / bias_correction1 in
  let denom := sqrt v / sqrt bias_correction2 + opt_eps o in
  p - step_size * (m / denom).

(** [optimizer.step()] on parameters [p] whose [.grad] is [grad]; parameters
    without a gradient are skipped. *)
Definition Adam_step (o : Adam) (p : vec) (grad : option vec) : vec * Adam :=
  match grad with
  | None => (p, o)
  | Some g =>
      let t := S (state_step o) in
      let m := map2 (fun m gi => fst (opt_betas o) * m + (1 - fst (opt_betas o)) * gi)
                 (exp_avg o) g in
      let v := map2 (fun v gi => snd (opt_betas o) * v + (1 - snd (opt_betas o)) * gi * gi)
                 (exp_avg_sq o) g in
      (map2 (fun p mv => adam_update o t p (fst mv) (snd mv)) p (combine m v),
       mk_Adam (opt_lr o) (opt_betas o) (opt_eps o) t m v)
  end.

(** [optimizer.zero_grad()]: existing gradients are zeroed in place. *)
Definition zero_grad (grad : option vec) : option vec :=
  option_map (map (fun _ => 0)) grad.

(** [backward()] adds to the [.grad] of a leaf. *)
Definition accumulate (grad : option vec) (g : vec) : option vec :=
  match grad with
  | None => Some g
  | Some g0 => Some (map2 Rplus g0 g)
  end.

(** ** Reverse-mode differentiation with respect to the input

    [backward_layer l x g]: the vector-Jacobian product of layer [l] at input
    [x] with the output gradient [g], one row per sample. *)

Definition vadd (u v : vec) : vec := map2 Rplus u v.
Definition vscale (a : R) (u : vec) : vec := map (Rmult a) u.

(** [g W] for one row [g]: the sum of the rows of [W] weighted by [g]. *)
Fixpoint linear_vjp_row (i : nat) (w : matrix) (g : vec) : vec :=
  match w, g with
  | wk :: w', gk :: g' => vadd (vscale gk wk) (linear_vjp_row i w' g')
  | _, _ => repeat 0 i
  end.

Definition leaky_relu' (negative_slope x : R) : R :=
  if Rlt_dec 0 x then 1 else negative_slope.

Definition sigmoid' (x : R) : R := sigmoid x * (1 - sigmoid x).

Definition tanh' (x : R) : R := 1 - tanh x * tanh x.

Definition pointwise_vjp (f' : R -> R) (x g : matrix) : matrix :=
  map2 (map2 (fun xi gi => f' xi * gi)) x g.

Definition batch_norm_vjp (c : nat) (eps : R) (w : vec) (x g : matrix) : matrix :=
  map2 (fun r gr =>
    map (fun j =>
      let col := column j x in
      let gcol := column j g in
      let s := sqrt (var_biased col + eps) in
      let xhat a := (a - mean col) / s in
      nth j w 0 / s
      * (nth j gr 0 - mean gcol
         - xhat (nth j r 0) * mean (map2 (fun a b => xhat a * b) col gcol)))
      (seq 0 c)) x g.

Definition backward_layer (l : layer) (x g : matrix) : matrix :=
  match l with
  | Linear i _ w _ => map (linear_vjp_row i w) g
  | BatchNorm1d c eps _ w _ => batch_norm_vjp c eps w x g
  | LeakyReLU s => pointwise_vjp (leaky_relu' s) x g
  | Tanh => pointwise_vjp tanh' x g
  | Sigmoid => pointwise_vjp sigmoid' x g
  end.

(** The backward pass of a [Sequential]: the forward values are recomputed
    layer by layer, the output gradient travels back through them. *)
Fixpoint backward_seq (m : Sequential) (x g : matrix) : matrix :=
  match m with
  | [] => g
  | l :: m' => backward_layer l x (backward_seq m' (apply_layer l x) g)
  end.

(** ** Gradient penalty *)

Definition interpolate (alpha : vec) (real_samples fake_samples : matrix) : matrix :=
  map2 (fun a rf => map2 (fun r f => a * r + (1 - a) * f) (fst rf) (snd rf))
    alpha (combine real_samples fake_samples).

Definition list_nat_eqb (a b : list nat) : bool :=
  if list_eq_dec Nat.eq_dec a b then true else false.

(** *** Broadcasting

    Two shapes are aligned at their last dimension; two sizes go together
    when they are equal or one of them is 1, and a missing leading dimension
    counts as 1.  Every operand of an elementwise operation is expanded to
    the common shape; shapes that do not go together raise. *)
Definition broadcast_dim (x y : nat) : option nat :=
  if (x =? y)%nat then Some x
  else if (x =? 1)%nat then Some y
  else if (y =? 1)%nat then Some x
  else None.

(** On reversed shapes, last dimension first. *)
Fixpoint broadcast_rev (a b : list nat) : option (list nat) :=
  match a, b with
  | [], _ => Some b
  | _, [] => Some a
  | x :: a', y :: b' =>
      d <- broadcast_dim x y ;;
      r <- broadcast_rev a' b' ;;
      Some (d :: r)
  end.

Definition broadcast_shapes (a b : list nat) : option (list nat) :=
  option_map (@rev nat) (broadcast_rev (rev a) (rev b)).

(** A shape seen with [k] dimensions: leading dimensions of size 1. *)
Definition pad_shape (k : nat) (s : list nat) : list nat :=
  repeat 1%nat (k - length s) ++ s.

(** The row-major data [x] of a tensor of shape [from], expanded to the
    shape [to] of as many dimensions: along a dimension of size 1 the one
    block is repeated. *)
Fixpoint expand (from to : list nat) (x : vec) : vec :=
  match from, to with
  | f :: from', t :: to' =>
      let blocks := map (expand from' to') (chunks f (numel from') x) in
      if (f =? t)%nat then concat blocks
      else concat (repeat (concat blocks) t)
  | _, _ => x
  end.

(** [alpha * real_samples + ((1 - alpha) * fake_samples)] with [alpha] of
    shape [(n, 1, 1, 1)], for batches of any shapes: the three operands are
    expanded to their common shape, which has at least four dimensions. *)
Definition broadcast_interpolation (alpha : vec) (real_samples fake_samples : tensor)
    : option tensor :=
  let sa := [size0 real_samples; 1; 1; 1]%nat in
  s1 <- broadcast_shapes sa (shape real_samples) ;;
  s2 <- broadcast_shapes sa (shape fake_samples) ;;
  s <- broadcast_shapes s1 s2 ;;
  let k := length s in
  let a := expand (pad_shape k sa) s alpha in
  let r := expand (pad_shape k (shape real_samples)) s (elements real_samples) in
  let f := expand (pad_shape k (shape fake_samples)) s (elements fake_samples) in
  let x := map2 (fun a rf => a * fst rf + (1 - a) * snd rf) a (combine r f) in
  Some (mk_tensor (tl s) (chunks (hd 0%nat s) (numel (tl s)) x)).

(** On two batches of one four-dimensional shape [(n, c, h, w)], which is
    how the notebook calls the function, only [alpha] is expanded: sample
    [k] is interpolated with the one weight [alpha_k]
    ([broadcast_interpolation_same_shape] shows that the general rule gives
    the same tensor). *)
Definition interpolation (alpha : vec) (real_samples fake_samples : tensor)
    : option tensor :=
  if (list_nat_eqb (shape real_samples) (shape fake_samples)
      && (length (dims real_samples) =? 3)%nat)
  then Some (mk_tensor (dims real_samples)
               (interpolate alpha (rows real_samples) (rows fake_samples)))
  else broadcast_interpolation alpha real_samples fake_samples.

(** [alpha] holds the [n] weights that [np.random.random((n, 1, 1, 1))]
    draws, [n = real_samples.size(0)]; a vector of another length is not a
    draw of the function.  [None] stands for an exception: shapes that do
    not broadcast, a batch that [D] refuses, or outputs of [D] whose shape
    is not the shape [(n, 1)] of [grad_outputs]. *)
Definition compute_gradient_penalty (D : Discriminator)
    (real_samples fake_samples : tensor) (alpha : vec) : option R :=
  if negb (length alpha =? size0 real_samples)%nat then None else
  interpolates <- interpolation alpha real_samples fake_samples ;;
  d_interpolates <- Discriminator_forward D interpolates ;;
  (* grad_outputs: ones of shape (n, 1), the shape the outputs must have *)
  if negb (list_nat_eqb (shape d_interpolates) [size0 real_samples; 1%nat])
  then None else
  let fake := map (fun _ => [1]) (rows real_samples) in
  let gradients := backward_seq (D_model D) (rows interpolates) fake in
  Some (mean (map (fun g => (norm2 g - 1) * (norm2 g - 1)) gradients)).

(** ** Hyperparameters of the notebook *)

(** Loss weight for gradient penalty *)
Definition lambda_gp : R := 10.

Definition lr : R := 0.0002.
Definition n_critic : nat := 5.
Definition b1 : R := 0.5.
Definition b2 : R := 0.999.
Definition epochs : nat := 200.

(** ** Computation graphs

    A tensor that a network produced hangs on that network's parameters:
    [backward()] on a loss reaches the parameters of every network in the
    graph of the loss.  [detach()] and [.data] cut the graph. *)

Inductive network : Type := NetG | NetD.

Definition network_eqb (a b : network) : bool :=
  match a, b with
  | NetG, NetG | NetD, NetD => true
  | _, _ => false
  end.

Record var : Type := mk_var { data : tensor; graph : list network }.

Definition detach (v : var) : var := mk_var (data v) [].

Definition reaches (n : network) (g : list network) : bool :=
  existsb (network_eqb n) g.

(** ** Training state *)

Record state : Type := mk_state {
  G : Generator;
  D : Discriminator;
  G_grad : option vec;          (* the [.grad] of [G.parameters()] *)
  D_grad : option vec;          (* the [.grad] of [D.parameters()] *)
  optimizer_G : Adam;
  optimizer_D : Adam;
  list_loss_D : list R;
  list_loss_G : list R
}.

Definition G_with (g : Generator) (theta : vec) : Generator :=
  mk_Generator (load_parameters (G_model g) theta).

Definition D_with (d : Discriminator) (theta : vec) : Discriminator :=
  mk_Discriminator (load_parameters (D_model d) theta).

Definition init_state (pg : Generator_init) (pd : Discriminator_init) : state :=
  let g := Generator__init__ z_dim mnist_dim pg in
  let d := Discriminator__init__ mnist_dim pd in
  mk_state g d None None
    (Adam__init__ (parameters (G_model g)) lr (b1, b2))
    (Adam__init__ (parameters (D_model d)) lr (b1, b2))
    [] [].

(** ** Losses *)

Definition Generator_call (g : Generator) (z : tensor) : option var :=
  image <- Generator_forward g z ;;
  Some (mk_var image [NetG]).

(** The critic loss of one batch, in the order the notebook evaluates it. *)
Definition critic_loss (d : Discriminator) (real_imgs fake_imgs : tensor)
    (alpha : vec) : option R :=
  gradient_penalty <- compute_gradient_penalty d real_imgs fake_imgs alpha ;;
  d_real <- Discriminator_forward d real_imgs ;;
  d_fake <- Discriminator_forward d fake_imgs ;;
  Some (- mean (elements d_real) + mean (elements d_fake)
        + lambda_gp * gradient_penalty).

Definition generator_loss (g : Generator) (d : Discriminator) (z : tensor)
    : option R :=
  gen_imgs <- Generator_forward g z ;;
  validity <- Discriminator_forward d gen_imgs ;;
  Some (- mean (elements validity)).

(** One minibatch: the images of the loader and the random draws made while
    it is processed ([noise] for [z], [alpha] for the gradient penalty). *)
Record batch : Type := mk_batch { imgs : tensor; noise : matrix; alpha : vec }.

Definition wf_batch (b : batch) : Prop :=
  dims (imgs b) = tl example_data_shape /\ wf_tensor (imgs b) /\
  length (noise b) = size0 (imgs b) /\
  Forall (fun r => length r = z_dim) (noise b) /\
  length (alpha b) = size0 (imgs b).

(** [z = Tensor(np.random.normal(0, 1, (imgs.shape[0], z_dim)))] *)
Definition latent (b : batch) : tensor := mk_tensor [z_dim] (noise b).

(** The two losses of a batch as functions of the parameter values of one
    network, the other network being fixed: what [backward()]
    differentiates. *)
Definition d_loss_of_G (g : Generator) (d : Discriminator) (b : batch)
    (theta : vec) : option R :=
  fake <- Generator_forward (G_with g theta) (latent b) ;;
  critic_loss d (imgs b) fake (alpha b).

Definition d_loss_of_D (d : Discriminator) (b : batch) (fake_imgs : tensor)
    (theta : vec) : option R :=
  critic_loss (D_with d theta) (imgs b) fake_imgs (alpha b).

Definition g_loss_of_G (g : Generator) (d : Discriminator) (b : batch)
    (theta : vec) : option R :=
  generator_loss (G_with g theta) d (latent b).

Definition g_loss_of_D (g : Generator) (d : Discriminator) (b : batch)
    (theta : vec) : option R :=
  generator_loss g (D_with d theta) (latent b).

Section Training.

(** The automatic-differentiation engine: [autograd f theta] is the gradient
    that [backward()] computes for the scalar [f] at the parameter values
    [theta], a vector as long as [theta].  Nothing is assumed of it: what
    follows holds for every engine. *)
Variable autograd : (vec -> option R) -> vec -> vec.

(** [loss.backward()]: every network in the graph of the loss receives the
    gradient with respect to its parameters. *)
Definition backward (s : state) (g : list network)
    (loss_G loss_D : vec -> option R) : state :=
  mk_state (G s) (D s)
    (if reaches NetG g
     then accumulate (G_grad s) (autograd loss_G (parameters (G_model (G s))))
     else G_grad s)
    (if reaches NetD g
     then accumulate (D_grad s) (autograd loss_D (parameters (D_model (D s))))
     else D_grad s)
    (optimizer_G s) (optimizer_D s) (list_loss_D s) (list_loss_G s).

Definition optimizer_D_zero_grad (s : state) : state :=
  mk_state (G s) (D s) (G_grad s) (zero_grad (D_grad s))
    (optimizer_G s) (optimizer_D s) (list_loss_D s) (list_loss_G s).

Definition optimizer_G_zero_grad (s : state) : state :=
  mk_state (G s) (D s) (zero_grad (G_grad s)) (D_grad s)
    (optimizer_G s) (optimizer_D s) (list_loss_D s) (list_loss_G s).

(** [optimizer_D] was built on [D.parameters()], [optimizer_G] on
    [G.parameters()]. *)
Definition optimizer_D_step (s : state) : state :=
  let r := Adam_step (optimizer_D s) (parameters (D_model (D s))) (D_grad s) in
  mk_state (G s) (D_with (D s) (fst r)) (G_grad s) (D_grad s)
    (optimizer_G s) (snd r) (list_loss_D s) (list_loss_G s).

Definition optimizer_G_step (s : state) : state :=
  let r := Adam_step (optimizer_G s) (parameters (G_model (G s))) (G_grad s) in
  mk_state (G_with (G s) (fst r)) (D s) (G_grad s) (D_grad s)
    (snd r) (optimizer_D s) (list_loss_D s) (list_loss_G s).

(** "Train Discriminator": returns the new state and [d_loss]. *)
Definition train_discriminator (s : state) (b : batch) : option (state * R) :=
  let real_imgs := imgs b in
  let s := optimizer_D_zero_grad s in
  let z := latent b in
  fake_imgs <- option_map detach (Generator_call (G s) z) ;;
  d_loss <- critic_loss (D s) real_imgs (data fake_imgs) (alpha b) ;;
  let s :=
    backward s (NetD :: graph fake_imgs)
      (d_loss_of_G (G s) (D s) b) (d_loss_of_D (D s) b (data fake_imgs)) in
  Some (optimizer_D_step s, d_loss).

(** "Train Generator": returns the new state and [g_loss]; [z] is the noise
    drawn for the critic step of the same batch. *)
Definition train_generator (s : state) (b : batch) : option (state * R) :=
  let s := optimizer_G_zero_grad s in
  let z := latent b in
  gen_imgs <- Generator_call (G s) z ;;
  validity <- Discriminator_forward (D s) (data gen_imgs) ;;
  let g_loss := - mean (elements validity) in
  let s :=
    backward s (NetD :: graph gen_imgs)
      (g_loss_of_G (G s) (D s) b) (g_loss_of_D (G s) (D s) b) in
  Some (optimizer_G_step s, g_loss).

Definition record_losses (s : state) (d_loss g_loss : R) : state :=
  mk_state (G s) (D s) (G_grad s) (D_grad s) (optimizer_G s) (optimizer_D s)
    (list_loss_D s ++ [d_loss]) (list_loss_G s ++ [g_loss]).

(** The body of the loop over [enumerate(train_loader)]. *)
Definition train_batch (s : state) (i : nat) (b : batch) : option state :=
  sd <- train_discriminator s b ;;
  (* Train the generator every n_critic iterations *)
  if (i mod n_critic =? 0)%nat then
    sg <- train_generator (fst sd) b ;;
    Some (record_losses (fst sg) (snd sd) (snd sg))
  else Some (fst sd).

Fixpoint train_batches (s : state) (i : nat) (loader : list batch) : option state :=
  match loader with
  | [] => Some s
  | b :: loader' => s' <- train_batch s i b ;; train_batches s' (S i) loader'
  end.

(** One epoch: [for i, (imgs, _) in enumerate(train_loader)]. *)
Definition train_epoch (s : state) (loader : list batch) : option state :=
  train_batches s 0 loader.

(** [for epoch in range(epochs)]: [loaders] lists the batches of each epoch in
    the order the shuffling loader yields them. *)
Fixpoint train (s : state) (loaders : list (list batch)) : option state :=
  match loaders with
  | [] => Some s
  | loader :: loaders' => s' <- train_epoch s loader ;; train s' loaders'
  end.

End Training.

(** ** Auxiliary definitions for the statements *)

(** The numerical pass of a [Sequential] alone, and its shape pass alone. *)
Fixpoint apply_seq (m : Sequential) (x : matrix) : matrix :=
  match m with
  | [] => x
  | l :: m' => apply_seq m' (apply_layer l x)
  end.

Fixpoint seq_dims (m : Sequential) (n : nat) (d : list nat) : option (list nat) :=
  match m with
  | [] => Some d
  | l :: m' => d' <- layer_dims l n d ;; seq_dims m' n d'
  end.

(** A layer without its parameter values. *)
Inductive layer_kind : Type :=
| KLinear (in_features out_features : nat)
| KBatchNorm1d (num_features : nat) (eps momentum : R)
| KLeakyReLU (negative_slope : R)
| KTanh
| KSigmoid.

Definition kind (l : layer) : layer_kind :=
  match l with
  | Linear i o _ _ => KLinear i o
  | BatchNorm1d c e mo _ _ => KBatchNorm1d c e mo
  | LeakyReLU s => KLeakyReLU s
  | Tanh => KTanh
  | Sigmoid => KSigmoid
  end.

Definition wf_linear_init (i o : nat) (li : linear_init) : Prop :=
  wf_matrix o i (init_weight li) /\ wf_vec o (init_bias li).

Definition wf_norm_init (c : nat) (ni : norm_init) : Prop :=
  wf_vec c (init_gamma ni) /\ wf_vec c (init_beta ni).

Definition wf_Generator_init (g_input_dim g_output_dim : nat) (p : Generator_init) : Prop :=
  wf_linear_init g_input_dim 128 (gl1 p) /\
  wf_linear_init 128 256 (gl2 p) /\ wf_norm_init 256 (gn2 p) /\
  wf_linear_init 256 512 (gl3 p) /\ wf_norm_init 512 (gn3 p) /\
  wf_linear_init 512 1024 (gl4 p) /\ wf_norm_init 1024 (gn4 p) /\
  wf_linear_init 1024 g_output_dim (gl5 p).

Definition wf_Discriminator_init (d_input_dim : nat) (p : Discriminator_init) : Prop :=
  wf_linear_init d_input_dim 512 (dl1 p) /\
  wf_linear_init 512 256 (dl2 p) /\
  wf_linear_init 256 1 (dl3 p).

(** Concrete networks and inputs for the examples: all weights zero. *)
Definition zeros_linear (i o : nat) : linear_init :=
  mk_linear_init (repeat (repeat 0 i) o) (repeat 0 o).

Definition ones_norm (c : nat) : norm_init :=
  mk_norm_init (repeat 1 c) (repeat 0 c).

Definition G_init0 : Generator_init :=
  mk_Generator_init (zeros_linear z_dim 128)
    (zeros_linear 128 256) (ones_norm 256)
    (zeros_linear 256 512) (ones_norm 512)
    (zeros_linear 512 1024) (ones_norm 1024)
    (zeros_linear 1024 mnist_dim).

Definition D_init0 : Discriminator_init :=
  mk_Discriminator_init (zeros_linear mnist_dim 512)
    (zeros_linear 512 256) (zeros_linear 256 1).

Definition zeros_tensor (n : nat) (d : list nat) : tensor :=
  mk_tensor d (repeat (repeat 0 (numel d)) n).

(** [transforms.Normalize([0.5], [0.5])] on one pixel value. *)
Definition Normalize (mean std x : R) : R := (x - mean) / std.
Definition transform (x : R) : R := Normalize 0.5 0.5 x.

Definition in_open (a b y : R) : Prop := a < y < b.

(** The notebook's networks: [G = Generator(z_dim, mnist_dim)] and
    [D = Discriminator(mnist_dim)]. *)
Definition G_of (p : Generator_init) : Generator := Generator__init__ z_dim mnist_dim p.
Definition D_of (p : Discriminator_init) : Discriminator := Discriminator__init__ mnist_dim p.

Definition Generator_architecture : list layer_kind :=
  [KLinear 100 128; KLeakyReLU 0.2;
   KLinear 128 256; KBatchNorm1d 256 0.8 0.1; KLeakyReLU 0.2;
   KLinear 256 512; KBatchNorm1d 512 0.8 0.1; KLeakyReLU 0.2;
   KLinear 512 1024; KBatchNorm1d 1024 0.8 0.1; KLeakyReLU 0.2;
   KLinear 1024 784; KTanh].

(** The layers of the generator before its last [Linear] and [Tanh]. *)
Definition G_front (g_input_dim : nat) (p : Generator_init) : Sequential :=
  block g_input_dim 128 false (gl1 p) no_norm
  ++ block 128 256 true (gl2 p) (gn2 p)
  ++ block 256 512 true (gl3 p) (gn3 p)
  ++ block 512 1024 true (gl4 p) (gn4 p).

Definition Discriminator_architecture (d_input_dim : nat) : list layer_kind :=
  [KLinear d_input_dim 512; KLeakyReLU 0.2;
   KLinear 512 256; KLeakyReLU 0.2;
   KLinear 256 1; KSigmoid].

(** *** One sample at a time

    Layers other than batch normalisation treat the rows of a batch
    independently; [apply_row] and [backward_row] are what they do to one
    row. *)
Definition samplewise (l : layer) : bool :=
  match l with
  | BatchNorm1d _ _ _ _ _ => false
  | _ => true
  end.

Definition apply_row (l : layer) (x : vec) : vec :=
  match l with
  | Linear _ _ w b => linear_row w b x
  | LeakyReLU s => map (leaky_relu s) x
  | Tanh => map tanh x
  | Sigmoid => map sigmoid x
  | BatchNorm1d _ _ _ _ _ => hd [] (apply_layer l [x])
  end.

Definition backward_row (l : layer) (x g : vec) : vec :=
  match l with
  | Linear i _ w _ => linear_vjp_row i w g
  | LeakyReLU s => map2 (fun xi gi => leaky_relu' s xi * gi) x g
  | Tanh => map2 (fun xi gi => tanh' xi * gi) x g
  | Sigmoid => map2 (fun xi gi => sigmoid' xi * gi) x g
  | BatchNorm1d _ _ _ _ _ => hd [] (backward_layer l [x] [g])
  end.

Fixpoint apply_seq_row (m : Sequential) (x : vec) : vec :=
  match m with
  | [] => x
  | l :: m' => apply_seq_row m' (apply_row l x)
  end.

Fixpoint backward_seq_row (m : Sequential) (x g : vec) : vec :=
  match m with
  | [] => g
  | l :: m' => backward_row l x (backward_seq_row m' (apply_row l x) g)
  end.

(** The gradient of the critic's score with respect to one input sample, as
    the backward pass computes it. *)
Definition input_gradient (d : Discriminator) (x : vec) : vec :=
  backward_seq_row (D_model d) x [1].

(** One interpolated sample. *)
Definition lerp (a : R) (r f : vec) : vec :=
  map2 (fun ri fi => a * ri + (1 - a) * fi) r f.

Definition sq (a : R) : R := a * a.

(** A batch the training step accepts: well formed, with at least two
    images. *)
Definition usable_batch (b : batch) : Prop :=
  wf_batch b /\ (2 <= size0 (imgs b))%nat.

Definition architecture_ok (s : state) : Prop :=
  map kind (G_model (G s)) = Generator_architecture /\
  map kind (D_model (D s)) = Discriminator_architecture mnist_dim.

Definition notebook_Adam (o : Adam) : Prop :=
  opt_lr o = 0.0002 /\ opt_betas o = (0.5, 0.999).

(** An engine that returns zero gradients, and a batch of two black images,
    for the examples. *)
Definition autograd0 (f : vec -> option R) (theta : vec) : vec :=
  map (fun _ => 0) theta.

Definition batch0 : batch :=
  mk_batch (zeros_tensor 2 (tl example_data_shape))
    (repeat (repeat 0 z_dim) 2) [0; 1].

(** Whether batch [i] of an epoch holds a generator update, and how many of
    the [n] batches from [i] on do. *)
Definition generator_turn (i : nat) : nat :=
  if (i mod n_critic =? 0)%nat then 1%nat else 0%nat.

Fixpoint generator_turns (i n : nat) : nat :=
  match n with
  | O => 0
  | S n' => (generator_turn i + generator_turns (S i) n')%nat
  end.

(** *** Differentiability of the critic *)

(** The critic's score of one sample. *)
Definition critic_score (d : Discriminator) (x : vec) : R :=
  hd 0 (apply_seq_row (D_model d) x).

(** Forward-mode derivative of one layer at [x] in direction [v]. *)
Definition jvp_row (l : layer) (x v : vec) : vec :=
  match l with
  | Linear _ _ w _ => map (fun wk => dot wk v) w
  | LeakyReLU s => map2 (fun xi vi => leaky_relu' s xi * vi) x v
  | Tanh => map2 (fun xi vi => tanh' xi * vi) x v
  | Sigmoid => map2 (fun xi vi => sigmoid' xi * vi) x v
  | BatchNorm1d _ _ _ _ _ => []
  end.

Fixpoint jvp_seq_row (m : Sequential) (x v : vec) : vec :=
  match m with
  | [] => v
  | l :: m' => jvp_seq_row m' (apply_row l x) (jvp_row l x v)
  end.

(** [m] is differentiable at the input [x] of length [n]: shapes fit and no
    leaky rectifier sits at its kink. *)
Fixpoint regular_at (m : Sequential) (n : nat) (x : vec) : Prop :=
  match m with
  | [] => True
  | l :: m' =>
      match l with
      | Linear i o w b =>
          n = i /\ wf_matrix o i w /\ wf_vec o b /\ regular_at m' o (apply_row l x)
      | LeakyReLU _ => Forall (fun a => a <> 0) x /\ regular_at m' n (apply_row l x)
      | Tanh | Sigmoid => regular_at m' n (apply_row l x)
      | BatchNorm1d _ _ _ _ _ => False
      end
  end.

Fixpoint out_features_of (m : Sequential) (n : nat) : nat :=
  match m with
  | [] => n
  | Linear _ o _ _ :: m' => out_features_of m' o
  | _ :: m' => out_features_of m' n
  end.

(** A curve of vectors of length [n] whose coordinates are differentiable
    at 0, with derivative [dc]. *)
Definition curve_deriv (n : nat) (c : R -> vec) (dc : vec) : Prop :=
  (forall t, length (c t) = n) /\ length dc = n /\
  forall j, (j < n)%nat ->
    derivable_pt_lim (fun t => nth j (c t) 0) 0 (nth j dc 0).

(** The straight line through [x] in direction [v]. *)
Definition line (x v : vec) (t : R) : vec := vadd x (vscale t v).

Definition biased_linear (i o : nat) : linear_init :=
  mk_linear_init (repeat (repeat 0 i) o) (repeat 1 o).

Definition D_init1 : Discriminator_init :=
  mk_Discriminator_init (biased_linear mnist_dim 512)
    (biased_linear 512 256) (biased_linear 256 1).

(** An engine that returns the gradient (1, ..., 1). *)
Definition autograd1 (f : vec -> option R) (theta : vec) : vec :=
  map (fun _ => 1) theta.

Definition first_parameter (g : Generator) : R := hd 0 (parameters (G_model g)).

(** ** Further definitions for the statements *)

(** A closed interval. *)
Definition in_closed (a b y : R) : Prop := a <= y <= b.

(** Batches, and generator updates, of a whole run. *)
Fixpoint total_batches (loaders : list (list batch)) : nat :=
  match loaders with
  | [] => 0
  | l :: loaders' => (length l + total_batches loaders')%nat
  end.

Fixpoint total_generator_turns (loaders : list (list batch)) : nat :=
  match loaders with
  | [] => 0
  | l :: loaders' => ((length l + 4) / 5 + total_generator_turns loaders')%nat
  end.

(** The number of parameters the constructors allocate. *)
Fixpoint num_params (m : Sequential) : nat :=
  match m with
  | [] => 0
  | Linear i o _ _ :: m' => (o * i + o + num_params m')%nat
  | BatchNorm1d c _ _ _ _ :: m' => (c + c + num_params m')%nat
  | _ :: m' => num_params m'
  end.

(** An engine that returns one partial derivative per parameter. *)
Definition engine_ok (ag : (vec -> option R) -> vec -> vec) : Prop :=
  forall f theta, length (ag f theta) = length theta.

Definition grad_ok (g : option vec) (n : nat) : Prop :=
  match g with
  | None => True
  | Some v => length v = n
  end.

Definition optimizer_ok (o : Adam) (n : nat) : Prop :=
  length (exp_avg o) = n /\ length (exp_avg_sq o) = n.

(** Every parameter tensor has the shape its layer declares, and every
    gradient and moment vector has one entry per parameter. *)
Definition shapes_ok (s : state) : Prop :=
  Forall wf_layer (G_model (G s)) /\ Forall wf_layer (D_model (D s)) /\
  grad_ok (G_grad s) (num_params (G_model (G s))) /\
  grad_ok (D_grad s) (num_params (D_model (D s))) /\
  optimizer_ok (optimizer_G s) (num_params (G_model (G s))) /\
  optimizer_ok (optimizer_D s) (num_params (D_model (D s))).

(** The critic without its last layer: the score before the sigmoid, and
    its gradient with respect to one input sample. *)
Definition logit (d : Discriminator) (x : vec) : vec :=
  apply_seq_row (removelast (D_model d)) x.

Definition logit_gradient (d : Discriminator) (x : vec) : vec :=
  backward_seq_row (removelast (D_model d)) x [1].

(** ** What the loop prints and saves

    The Python names [g_loss] and [gen_imgs] are bound by the generator turn
    only: reading one of them before the first turn raises [NameError]
    ([None] here, as every exception). *)
Inductive output : Type :=
| Printed (epoch n_epochs i len_loader : nat) (d_loss g_loss : R)
| Saved (epoch : nat) (image : tensor).

Record names : Type := mk_names {
  g_loss_name : option R;
  gen_imgs_name : option tensor
}.

Record session : Type := mk_session {
  st : state;
  bound : names;
  out : list output
}.

Section Logging.

Variable autograd : (vec -> option R) -> vec -> vec.

(** The loop body with its [print]. *)
Definition log_batch (epoch len_loader : nat) (r : session) (i : nat) (b : batch)
    : option session :=
  sd <- train_discriminator autograd (st r) b ;;
  r1 <- (if (i mod n_critic =? 0)%nat then
           gen_imgs <- Generator_forward (G (fst sd)) (latent b) ;;
           sg <- train_generator autograd (fst sd) b ;;
           Some (mk_session (record_losses (fst sg) (snd sd) (snd sg))
                   (mk_names (Some (snd sg)) (Some gen_imgs)) (out r))
         else Some (mk_session (fst sd) (bound r) (out r))) ;;
  if (i mod 300 =? 0)%nat then
    g_loss <- g_loss_name (bound r1) ;;
    Some (mk_session (st r1) (bound r1)
            (out r1 ++ [Printed epoch epochs i len_loader (snd sd) g_loss]))
  else Some r1.

Fixpoint log_batches (epoch len_loader : nat) (r : session) (i : nat)
    (loader : list batch) : option session :=
  match loader with
  | [] => Some r
  | b :: loader' =>
      r' <- log_batch epoch len_loader r i b ;;
      log_batches epoch len_loader r' (S i) loader'
  end.

(** One epoch with the [save_image] that follows it. *)
Definition log_epoch (epoch : nat) (r : session) (loader : list batch)
    : option session :=
  r' <- log_batches epoch (length loader) r 0 loader ;;
  if (epoch mod 5 =? 0)%nat then
    gen_imgs <- gen_imgs_name (bound r') ;;
    image <- view0 [1; 28; 28]%nat gen_imgs ;;
    Some (mk_session (st r') (bound r') (out r' ++ [Saved epoch image]))
  else Some r'.

Fixpoint log_epochs (epoch : nat) (r : session) (loaders : list (list batch))
    : option session :=
  match loaders with
  | [] => Some r
  | loader :: loaders' =>
      r' <- log_epoch epoch r loader ;; log_epochs (S epoch) r' loaders'
  end.

End Logging.

(** The session in which the training cell starts. *)
Definition new_session (pg : Generator_init) (pd : Discriminator_init) : session :=
  mk_session (init_state pg pd) (mk_names None None) [].

Definition names_bound (r : session) : Prop :=
  exists g t, bound r = mk_names (Some g) (Some t) /\ dims t = [1; 28; 28]%nat.

(** A discriminator whose weights and biases are all 1. *)
Definition ones_linear (i o : nat) : linear_init :=
  mk_linear_init (repeat (repeat 1 i) o) (repeat 1 o).

Definition D_init_ones : Discriminator_init :=
  mk_Discriminator_init (ones_linear mnist_dim 512)
    (ones_linear 512 256) (ones_linear 256 1).

(** ** Single precision

    IEEE 754 binary32 numbers with the operations of the standard library's
    [SpecFloat] (24 bits of precision, exponents below 128), and the forward
    pass of the discriminator on them.  The sum of a [Linear] layer is
    accumulated from left to right; the library may add in another order,
    which gives the same result wherever all the products are zeros. *)

Definition float32 : Type := spec_float.
Definition prec32 : Z := 24.
Definition emax32 : Z := 128.

Definition div32 : float32 -> float32 -> float32 := SFdiv prec32 emax32.
Definition float32_of_Z (z : Z) : float32 := binary_normalize prec32 emax32 z 0 false.
Definition zero32 : float32 := S754_zero false.



Inductive layer32 : Type :=
| Linear32 (in_features out_features : nat) (weight : list (list float32))
    (bias : list float32)
| LeakyReLU32 (negative_slope : float32)
| Sigmoid32.

Section Forward32.

(** The library's single-precision exponential. *)
Variable expf : float32 -> float32.









(** 0.2 in binary32. *)
Definition negative_slope32 : float32 := div32 (float32_of_Z 2) (float32_of_Z 10).

Definition Discriminator32__init__ (d_input_dim : nat)
    (w1 : list (list float32)) (b1 : list float32)
    (w2 : list (list float32)) (b2 : list float32)
    (w3 : list (list float32)) (b3 : list float32) : list layer32 :=
  [Linear32 d_input_dim 512 w1 b1; LeakyReLU32 negative_slope32;
   Linear32 512 256 w2 b2; LeakyReLU32 negative_slope32;
   Linear32 256 1 w3 b3; Sigmoid32].


End Forward32.

(** A discriminator whose weights are all zero and whose last bias is -104,
    and a black image. *)
Definition zeros32 (i o : nat) : list (list float32) := repeat (repeat zero32 i) o.

Definition D32_saturated : list layer32 :=
  Discriminator32__init__ 784
    (zeros32 784 512) (repeat zero32 512)
    (zeros32 512 256) (repeat zero32 256)
    (zeros32 256 1) [float32_of_Z (-104)].




(** * Properties *)

(** ** Lists of reals *)

Lemma map2_length {A B C : Type} (f : A -> B -> C) (u : list A) (v : list B) :
  length (map2 f u v) = Nat.min (length u) (length v).
Proof.
  revert v; induction u as [|a u IH]; intros [|b v]; simpl; auto.
Qed.

Lemma Forall_concat_map {A : Type} (P : A -> Prop) (f : A -> A) (x : list (list A)) :
  (forall a, P (f a)) -> Forall P (concat (map (map f) x)).
Proof.
  intros H; induction x as [|r x IH]; simpl; [constructor|].
  apply Forall_app; split; [|exact IH].
  apply Forall_forall; intros y Hy.
  apply in_map_iff in Hy; destruct Hy as [a [<- _]]; apply H.
Qed.

(** ** Activations *)

Lemma sigmoid_range (x : R) : 0 < sigmoid x < 1.
Proof.
  unfold sigmoid; pose proof (exp_pos (- x)) as He.
  split.
  - apply Rdiv_lt_0_compat; lra.
  - apply (Rmult_lt_reg_r (1 + exp (- x))); [lra|].
    unfold Rdiv; rewrite Rmult_assoc, Rinv_l by lra; lra.
Qed.

Lemma tanh_range (x : R) : -1 < tanh x < 1.
Proof.
  unfold tanh, sinh, cosh.
  pose proof (exp_pos x) as Hp; pose proof (exp_pos (- x)) as Hn.
  assert (Hc : 0 < (exp x + exp (- x)) / 2) by lra.
  split.
  - apply (Rmult_lt_reg_r ((exp x + exp (- x)) / 2)); [exact Hc|].
    unfold Rdiv at 2; rewrite Rmult_assoc, Rinv_l by lra; lra.
  - apply (Rmult_lt_reg_r ((exp x + exp (- x)) / 2)); [exact Hc|].
    unfold Rdiv at 1; rewrite Rmult_assoc, Rinv_l by lra; lra.
Qed.

(** ** Shape pass and numerical pass *)

Lemma apply_layer_length (l : layer) (x : matrix) :
  length (apply_layer l x) = length x.
Proof.
  destruct l; simpl; unfold batch_norm; now rewrite ?length_map.
Qed.

Lemma forward_seq_split (m : Sequential) (t : tensor) :
  forward_seq m t =
  option_map (fun d => mk_tensor d (apply_seq m (rows t)))
    (seq_dims m (size0 t) (dims t)).
Proof.
  revert t; induction m as [|l m IH]; intros [d x]; simpl.
  - reflexivity.
  - unfold forward_layer, size0; simpl.
    destruct (layer_dims l (length x) d) as [d'|]; simpl; [|reflexivity].
    rewrite IH; unfold size0; simpl.
    now rewrite apply_layer_length.
Qed.

Lemma apply_seq_app (m1 m2 : Sequential) (x : matrix) :
  apply_seq (m1 ++ m2) x = apply_seq m2 (apply_seq m1 x).
Proof.
  revert x; induction m1 as [|l m1 IH]; intros x; simpl; auto.
Qed.

Lemma apply_seq_length (m : Sequential) (x : matrix) :
  length (apply_seq m x) = length x.
Proof.
  revert x; induction m as [|l m IH]; intros x; simpl; auto.
  now rewrite IH, apply_layer_length.
Qed.

(** ** Generator *)

Lemma G_model_split (i o : nat) (p : Generator_init) :
  G_model (Generator__init__ i o p) =
  G_front i p ++ [Linear 1024 o (init_weight (gl5 p)) (init_bias (gl5 p)); Tanh].
Proof.
  unfold Generator__init__, G_front; simpl G_model.
  now rewrite <- !app_assoc.
Qed.

Lemma Generator_dims (i o : nat) (p : Generator_init) (n k : nat) :
  seq_dims (G_model (Generator__init__ i o p)) n [k] =
  if ((k =? i) && negb (n =? 1))%nat then Some [o] else None.
Proof.
  unfold Generator__init__, block; simpl.
  destruct (k =? i)%nat; simpl; [|reflexivity].
  destruct (n =? 1)%nat; reflexivity.
Qed.

Lemma numel_example : numel (tl example_data_shape) = mnist_dim.
Proof. reflexivity. Qed.

Lemma view0_same_numel (d d' : list nat) (x : matrix) :
  numel d = numel d' -> view0 d' (mk_tensor d x) = Some (mk_tensor d' x).
Proof.
  intros H; unfold view0, size0; cbn [dims rows].
  now rewrite H, Nat.eqb_refl.
Qed.

Lemma Generator_forward_ok (p : Generator_init) (z : tensor) :
  dims z = [z_dim] -> size0 z <> 1%nat ->
  Generator_forward (G_of p) z =
  Some (mk_tensor (tl example_data_shape) (apply_seq (G_model (G_of p)) (rows z))).
Proof.
  intros Hd Hn. unfold Generator_forward, G_of.
  rewrite forward_seq_split, Hd, Generator_dims, Nat.eqb_refl.
  apply Nat.eqb_neq in Hn; rewrite Hn.
  cbn [andb negb option_map bind].
  now apply view0_same_numel.
Qed.

Lemma Generator_forward_single (p : Generator_init) (z : tensor) :
  dims z = [z_dim] -> size0 z = 1%nat -> Generator_forward (G_of p) z = None.
Proof.
  intros Hd Hn. unfold Generator_forward, G_of.
  now rewrite forward_seq_split, Hd, Generator_dims, Nat.eqb_refl, Hn.
Qed.

Lemma linear_row_length (i o : nat) (w : matrix) (b x : vec) :
  wf_matrix o i w -> wf_vec o b -> length (linear_row w b x) = o.
Proof.
  intros [Hw _] Hb; unfold linear_row, wf_vec in *.
  rewrite map2_length, Hw, Hb; apply Nat.min_id.
Qed.

Lemma G_output_rows (i o : nat) (p : Generator_init) (x : matrix) :
  apply_seq (G_model (Generator__init__ i o p)) x =
  map (map tanh)
    (map (linear_row (init_weight (gl5 p)) (init_bias (gl5 p)))
       (apply_seq (G_front i p) x)).
Proof. now rewrite G_model_split, apply_seq_app. Qed.

Lemma G_output_wf (i o : nat) (p : Generator_init) (x : matrix) :
  wf_linear_init 1024 o (gl5 p) ->
  Forall (fun r => length r = o) (apply_seq (G_model (Generator__init__ i o p)) x).
Proof.
  intros [Hw Hb]; rewrite G_output_rows.
  apply Forall_forall; intros r Hr.
  apply in_map_iff in Hr; destruct Hr as [r1 [<- Hr1]].
  apply in_map_iff in Hr1; destruct Hr1 as [r0 [<- _]].
  rewrite length_map; eapply linear_row_length; eauto.
Qed.

(** ** Discriminator *)

Lemma Discriminator_dims (i : nat) (p : Discriminator_init) (n k : nat) :
  seq_dims (D_model (Discriminator__init__ i p)) n [k] =
  if (k =? i)%nat then Some [1%nat] else None.
Proof.
  simpl. destruct (k =? i)%nat; reflexivity.
Qed.

Lemma Discriminator_forward_eq (i : nat) (p : Discriminator_init) (image : tensor) :
  Discriminator_forward (Discriminator__init__ i p) image =
  if ((size0 image =? 0) || negb (numel (dims image) =? i))%nat then None
  else Some (mk_tensor [1%nat]
               (apply_seq (D_model (Discriminator__init__ i p)) (rows image))).
Proof.
  unfold Discriminator_forward, flatten0.
  destruct (size0 image =? 0)%nat; cbn [orb bind]; [reflexivity|].
  rewrite forward_seq_split; cbn [dims rows]; rewrite Discriminator_dims.
  destruct (numel (dims image) =? i)%nat; reflexivity.
Qed.

Lemma D_output_rows (i : nat) (p : Discriminator_init) (x : matrix) :
  apply_seq (D_model (Discriminator__init__ i p)) x =
  map (map sigmoid)
    (apply_seq [Linear i 512 (init_weight (dl1 p)) (init_bias (dl1 p));
                LeakyReLU 0.2;
                Linear 512 256 (init_weight (dl2 p)) (init_bias (dl2 p));
                LeakyReLU 0.2;
                Linear 256 1 (init_weight (dl3 p)) (init_bias (dl3 p))] x).
Proof. reflexivity. Qed.

(** ** The example networks and inputs are well formed *)

Lemma wf_zeros_linear (i o : nat) : wf_linear_init i o (zeros_linear i o).
Proof.
  unfold wf_linear_init, wf_matrix, wf_vec, zeros_linear; cbn [init_weight init_bias].
  rewrite !repeat_length; repeat split.
  apply Forall_forall; intros r Hr.
  apply repeat_spec in Hr; subst r; apply repeat_length.
Qed.

Lemma wf_ones_norm (c : nat) : wf_norm_init c (ones_norm c).
Proof.
  unfold wf_norm_init, wf_vec, ones_norm; cbn [init_gamma init_beta].
  now rewrite !repeat_length.
Qed.

Lemma wf_G_init0 : wf_Generator_init z_dim mnist_dim G_init0.
Proof.
  unfold wf_Generator_init, G_init0;
    cbn [gl1 gl2 gl3 gl4 gl5 gn2 gn3 gn4];
    repeat split; try apply wf_zeros_linear; apply wf_ones_norm.
Qed.

Lemma wf_D_init0 : wf_Discriminator_init mnist_dim D_init0.
Proof.
  unfold wf_Discriminator_init, D_init0; cbn [dl1 dl2 dl3];
    repeat split; apply wf_zeros_linear.
Qed.

Lemma zeros_tensor_shape (n : nat) (d : list nat) : shape (zeros_tensor n d) = n :: d.
Proof.
  unfold shape, size0, zeros_tensor; cbn [rows dims]; now rewrite repeat_length.
Qed.

Lemma wf_zeros_tensor (n : nat) (d : list nat) : wf_tensor (zeros_tensor n d).
Proof.
  unfold wf_tensor, zeros_tensor; cbn [rows dims].
  apply Forall_forall; intros r Hr.
  apply repeat_spec in Hr; subst r; apply repeat_length.
Qed.

Lemma shape_inv (t : tensor) (n : nat) (d : list nat) :
  shape t = n :: d -> size0 t = n /\ dims t = d.
Proof. unfold shape; intros H; now inversion H. Qed.

(** ** Range of the normalised training images *)

Lemma transform_range (x : R) : 0 <= x <= 1 -> -1 <= transform x <= 1.
Proof. unfold transform, Normalize; intros [H0 H1]; lra. Qed.

Lemma transform_0 : transform 0 = -1.
Proof. unfold transform, Normalize; lra. Qed.

Lemma transform_1 : transform 1 = 1.
Proof. unfold transform, Normalize; lra. Qed.

Lemma Discriminator_forward_zeros :
  Discriminator_forward (D_of D_init0) (zeros_tensor 1 [1; 28; 28]%nat) =
  Some (mk_tensor [1%nat]
          (apply_seq (D_model (D_of D_init0))
             (rows (zeros_tensor 1 [1; 28; 28]%nat)))).
Proof.
  unfold D_of; rewrite Discriminator_forward_eq.
  pose proof (zeros_tensor_shape 1 [1; 28; 28]%nat) as H.
  apply shape_inv in H; destruct H as [H _]; rewrite H.
  reflexivity.
Qed.

(** ** Gradient penalty *)

Lemma samplewise_apply (l : layer) (x : matrix) :
  samplewise l = true -> apply_layer l x = map (apply_row l) x.
Proof. destruct l; simpl; intros H; try discriminate; reflexivity. Qed.

Lemma map2_const_l {A B C : Type} (f : B -> C) (x : list A) (g : list B) :
  length x = length g -> map2 (fun _ gi => f gi) x g = map f g.
Proof.
  revert g; induction x as [|a x IH]; intros [|b g] H; simpl in *;
    try discriminate; auto.
  f_equal; apply IH; lia.
Qed.

Lemma samplewise_backward (l : layer) (x g : matrix) :
  samplewise l = true -> length x = length g ->
  backward_layer l x g = map2 (backward_row l) x g.
Proof.
  destruct l; simpl; intros H Hl; try discriminate; try reflexivity.
  symmetry; now apply (map2_const_l (linear_vjp_row in_features weight)).
Qed.

Lemma map2_map_l {A A' B C : Type} (f : A' -> B -> C) (a : A -> A')
    (x : list A) (g : list B) :
  map2 f (map a x) g = map2 (fun xi gi => f (a xi) gi) x g.
Proof.
  revert g; induction x as [|x0 x IH]; intros [|g0 g]; simpl; auto.
  now rewrite IH.
Qed.

Lemma map2_map2_r {A B C E : Type} (f : A -> C -> E) (h : A -> B -> C)
    (x : list A) (g : list B) :
  map2 f x (map2 h x g) = map2 (fun xi gi => f xi (h xi gi)) x g.
Proof.
  revert g; induction x as [|x0 x IH]; intros [|g0 g]; simpl; auto.
  now rewrite IH.
Qed.

Lemma backward_seq_length (m : Sequential) (x g : matrix) :
  forallb samplewise m = true -> length x = length g ->
  length (backward_seq m x g) = length g.
Proof.
  revert x g; induction m as [|l m IH]; intros x g Hm Hl; simpl; auto.
  simpl in Hm; apply andb_prop in Hm; destruct Hm as [Hs Hm].
  assert (Hl' : length (backward_seq m (apply_layer l x) g) = length g)
    by (apply IH; auto; now rewrite apply_layer_length).
  rewrite samplewise_backward by (auto; lia).
  rewrite map2_length; lia.
Qed.

(** A [Sequential] without batch normalisation is differentiated one sample
    at a time. *)
Lemma backward_seq_rows (m : Sequential) (x g : matrix) :
  forallb samplewise m = true -> length x = length g ->
  backward_seq m x g = map2 (backward_seq_row m) x g.
Proof.
  revert x g; induction m as [|l m IH]; intros x g Hm Hl; simpl.
  - symmetry; rewrite (map2_const_l (fun gi => gi)) by auto; apply map_id.
  - simpl in Hm; apply andb_prop in Hm; destruct Hm as [Hs Hm].
    rewrite samplewise_backward; auto.
    + rewrite IH by (auto; now rewrite apply_layer_length).
      rewrite samplewise_apply by auto.
      now rewrite map2_map_l, map2_map2_r.
    + rewrite backward_seq_length; auto. now rewrite apply_layer_length.
Qed.

Lemma map2_map_r_const {A B C : Type} (f : A -> C -> B) (c : C) (x : list A) :
  map2 f x (map (fun _ => c) x) = map (fun xi => f xi c) x.
Proof. induction x as [|a x IH]; simpl; auto; now rewrite IH. Qed.

Lemma map2_ext_length {A B C C' : Type} (f : A -> C -> B) (x : list A)
    (g : list C') (c : C) :
  length x = length g ->
  map2 f x (map (fun _ => c) g) = map (fun xi => f xi c) x.
Proof.
  revert g; induction x as [|a x IH]; intros [|b g] H; simpl in *;
    try discriminate; auto.
  f_equal; apply IH; lia.
Qed.

Lemma interpolate_length (a : vec) (r f : matrix) (n : nat) :
  length a = n -> length r = n -> length f = n ->
  length (interpolate a r f) = n.
Proof.
  intros Ha Hr Hf; unfold interpolate.
  rewrite map2_length, length_combine; lia.
Qed.

Lemma interpolate_nth (a : vec) (r f : matrix) (i : nat) :
  (i < length a)%nat -> (i < length r)%nat -> (i < length f)%nat ->
  nth i (interpolate a r f) [] = lerp (nth i a 0) (nth i r []) (nth i f []).
Proof.
  unfold interpolate.
  revert r f i; induction a as [|a0 a IH]; intros [|r0 r] [|f0 f] [|i] Ha Hr Hf;
    simpl in *; try lia; auto.
  apply IH; lia.
Qed.

Lemma list_nat_eqb_refl (a : list nat) : list_nat_eqb a a = true.
Proof. unfold list_nat_eqb; destruct (list_eq_dec Nat.eq_dec a a); congruence. Qed.

Lemma D_samplewise (i : nat) (p : Discriminator_init) :
  forallb samplewise (D_model (Discriminator__init__ i p)) = true.
Proof. reflexivity. Qed.

(** What [compute_gradient_penalty] returns on two image batches of the
    shape the critic expects. *)
Lemma compute_gradient_penalty_eq (i : nat) (p : Discriminator_init)
    (real_samples fake_samples : tensor) (alpha : vec) (d : list nat) :
  shape fake_samples = shape real_samples ->
  dims real_samples = d -> length d = 3%nat -> numel d = i ->
  length alpha = size0 real_samples -> size0 real_samples <> 0%nat ->
  compute_gradient_penalty (Discriminator__init__ i p) real_samples fake_samples alpha =
  Some (mean (map (fun xhat =>
                sq (norm2 (input_gradient (Discriminator__init__ i p) xhat) - 1))
          (interpolate alpha (rows real_samples) (rows fake_samples)))).
Proof.
  intros Hs Hd H3 Hi Ha Hn.
  unfold compute_gradient_penalty, interpolation.
  rewrite Hs, list_nat_eqb_refl, Hd, H3, Ha, !Nat.eqb_refl.
  cbn [andb negb bind].
  assert (Hlen : length (interpolate alpha (rows real_samples) (rows fake_samples))
                 = size0 real_samples).
  { apply interpolate_length; auto.
    unfold shape in Hs; inversion Hs; auto. }
  rewrite Discriminator_forward_eq.
  unfold size0 at 1; cbn [rows dims].
  rewrite Hlen, Hi, Nat.eqb_refl.
  apply Nat.eqb_neq in Hn; rewrite Hn.
  cbn [orb negb bind].
  unfold shape at 1, size0 at 1; cbn [rows dims].
  rewrite apply_seq_length, Hlen, list_nat_eqb_refl; cbn [negb].
  rewrite backward_seq_rows by (try apply D_samplewise; rewrite length_map; exact Hlen).
  rewrite map2_ext_length by exact Hlen.
  rewrite map_map. reflexivity.
Qed.

Lemma map_seq_nth {A B : Type} (f : A -> B) (l : list A) (d : A) :
  map f l = map (fun k => f (nth k l d)) (seq 0 (length l)).
Proof.
  induction l as [|a l IH]; simpl; auto.
  f_equal. rewrite <- seq_shift, map_map. exact IH.
Qed.

Lemma sum_nonneg (l : vec) : Forall (fun a => 0 <= a) l -> 0 <= sum l.
Proof.
  induction 1 as [|a l Ha _ IH]; simpl; lra.
Qed.

Lemma mean_nonneg (l : vec) : Forall (fun a => 0 <= a) l -> 0 <= mean l.
Proof.
  intros H; unfold mean, Rdiv.
  destruct l as [|a l].
  - simpl; lra.
  - apply Rmult_le_pos; [now apply sum_nonneg|].
    left; apply Rinv_0_lt_compat, lt_0_INR; simpl; lia.
Qed.

Lemma sq_nonneg (a : R) : 0 <= sq a.
Proof. unfold sq; nra. Qed.

Lemma compute_gradient_penalty_nonneg (d : Discriminator)
    (real_samples fake_samples : tensor) (alpha : vec) (gp : R) :
  compute_gradient_penalty d real_samples fake_samples alpha = Some gp -> 0 <= gp.
Proof.
  unfold compute_gradient_penalty.
  destruct (negb _); [discriminate|].
  destruct (interpolation _ _ _) as [xi|]; cbn [bind]; [|discriminate].
  destruct (Discriminator_forward _ _) as [di|]; cbn [bind]; [|discriminate].
  destruct (negb _); [discriminate|].
  intros H; injection H as <-.
  apply mean_nonneg, Forall_forall; intros y Hy.
  apply in_map_iff in Hy; destruct Hy as [g [<- _]].
  apply (sq_nonneg (norm2 g - 1)).
Qed.

(** ** Architecture is kept by parameter updates *)

Lemma kind_load_parameters (m : Sequential) (theta : vec) :
  map kind (load_parameters m theta) = map kind m.
Proof.
  revert theta; induction m as [|l m IH]; intros theta; simpl; auto.
  destruct l; simpl; now rewrite IH.
Qed.

Lemma cons_eq_inv {A : Type} (a b : A) (l l' : list A) :
  a :: l = b :: l' -> a = b /\ l = l'.
Proof. intros H; now inversion H. Qed.

Ltac peel_layer H m :=
  let l := fresh "l" in
  let Hk := fresh "Hk" in
  destruct m as [|l m]; [discriminate H|];
  cbn [map] in H; apply cons_eq_inv in H; destruct H as [Hk H];
  destruct l; cbn [kind] in Hk; try discriminate Hk;
  inversion Hk; subst; clear Hk.

Lemma Discriminator_of_architecture (d : Discriminator) (i : nat) :
  map kind (D_model d) = Discriminator_architecture i ->
  exists p, d = Discriminator__init__ i p.
Proof.
  destruct d as [m]; cbn [D_model]; unfold Discriminator_architecture; intros H.
  do 6 peel_layer H m.
  destruct m; [|discriminate H].
  match goal with
  | |- exists p, {| D_model := [Linear _ _ ?w1 ?c1; _; Linear _ _ ?w2 ?c2; _;
                                Linear _ _ ?w3 ?c3; _] |} = _ =>
      exists (mk_Discriminator_init (mk_linear_init w1 c1) (mk_linear_init w2 c2)
                (mk_linear_init w3 c3))
  end.
  reflexivity.
Qed.

Lemma Generator_of_architecture (g : Generator) :
  map kind (G_model g) = Generator_architecture -> exists p, g = G_of p.
Proof.
  destruct g as [m]; cbn [G_model]; unfold Generator_architecture; intros H.
  do 13 peel_layer H m.
  destruct m; [|discriminate H].
  match goal with
  | |- exists p, {| G_model := [Linear _ _ ?w1 ?c1; _;
                                Linear _ _ ?w2 ?c2; BatchNorm1d _ _ _ ?g2 ?h2; _;
                                Linear _ _ ?w3 ?c3; BatchNorm1d _ _ _ ?g3 ?h3; _;
                                Linear _ _ ?w4 ?c4; BatchNorm1d _ _ _ ?g4 ?h4; _;
                                Linear _ _ ?w5 ?c5; _] |} = _ =>
      exists (mk_Generator_init (mk_linear_init w1 c1)
                (mk_linear_init w2 c2) (mk_norm_init g2 h2)
                (mk_linear_init w3 c3) (mk_norm_init g3 h3)
                (mk_linear_init w4 c4) (mk_norm_init g4 h4)
                (mk_linear_init w5 c5))
  end.
  reflexivity.
Qed.

Lemma architecture_init (pg : Generator_init) (pd : Discriminator_init) :
  architecture_ok (init_state pg pd).
Proof. split; reflexivity. Qed.

(** ** The two phases of a batch *)

Section TrainingFacts.

Variable ag : (vec -> option R) -> vec -> vec.

Lemma train_discriminator_inv (s : state) (b : batch) (s' : state) (l : R) :
  train_discriminator ag s b = Some (s', l) ->
  exists fake,
    Generator_forward (G s) (latent b) = Some fake /\
    critic_loss (D s) (imgs b) fake (alpha b) = Some l /\
    s' = optimizer_D_step
           (backward ag (optimizer_D_zero_grad s) [NetD]
              (d_loss_of_G (G s) (D s) b) (d_loss_of_D (D s) b fake)).
Proof.
  unfold train_discriminator, Generator_call.
  change (G (optimizer_D_zero_grad s)) with (G s).
  change (D (optimizer_D_zero_grad s)) with (D s).
  destruct (Generator_forward (G s) (latent b)) as [fake|];
    cbn [bind option_map detach data graph]; [|discriminate].
  destruct (critic_loss (D s) (imgs b) fake (alpha b)) as [l0|] eqn:EC;
    cbn [bind]; [|discriminate].
  intros H; injection H as <- <-.
  exists fake; auto.
Qed.

Lemma train_generator_inv (s : state) (b : batch) (s' : state) (l : R) :
  train_generator ag s b = Some (s', l) ->
  exists gen_imgs validity,
    Generator_forward (G s) (latent b) = Some gen_imgs /\
    Discriminator_forward (D s) gen_imgs = Some validity /\
    l = - mean (elements validity) /\
    s' = optimizer_G_step
           (backward ag (optimizer_G_zero_grad s) [NetD; NetG]
              (g_loss_of_G (G s) (D s) b) (g_loss_of_D (G s) (D s) b)).
Proof.
  unfold train_generator, Generator_call.
  change (G (optimizer_G_zero_grad s)) with (G s).
  change (D (optimizer_G_zero_grad s)) with (D s).
  destruct (Generator_forward (G s) (latent b)) as [gen_imgs|];
    cbn [bind data graph]; [|discriminate].
  destruct (Discriminator_forward (D s) gen_imgs) as [validity|] eqn:ED;
    cbn [bind]; [|discriminate].
  intros H; injection H as <- <-.
  exists gen_imgs, validity; auto.
Qed.

(** What the critic phase does to each component of the state. *)
Lemma critic_phase_effect (s : state) (b : batch) (s' : state) (l : R) :
  train_discriminator ag s b = Some (s', l) ->
  exists fake,
    Generator_forward (G s) (latent b) = Some fake /\
    critic_loss (D s) (imgs b) fake (alpha b) = Some l /\
    G s' = G s /\ G_grad s' = G_grad s /\ optimizer_G s' = optimizer_G s /\
    D_grad s' =
      accumulate (zero_grad (D_grad s))
        (ag (d_loss_of_D (D s) b fake) (parameters (D_model (D s)))) /\
    D s' = D_with (D s)
             (fst (Adam_step (optimizer_D s) (parameters (D_model (D s))) (D_grad s'))) /\
    optimizer_D s' =
      snd (Adam_step (optimizer_D s) (parameters (D_model (D s))) (D_grad s')) /\
    list_loss_D s' = list_loss_D s /\ list_loss_G s' = list_loss_G s.
Proof.
  intros H; apply train_discriminator_inv in H.
  destruct H as [fake [HG [HC ->]]].
  exists fake; repeat split; auto.
Qed.

(** What the generator phase does to each component of the state. *)
Lemma generator_phase_effect (s : state) (b : batch) (s' : state) (l : R) :
  train_generator ag s b = Some (s', l) ->
  exists gen_imgs validity,
    Generator_forward (G s) (latent b) = Some gen_imgs /\
    Discriminator_forward (D s) gen_imgs = Some validity /\
    l = - mean (elements validity) /\
    D s' = D s /\ optimizer_D s' = optimizer_D s /\
    D_grad s' =
      accumulate (D_grad s)
        (ag (g_loss_of_D (G s) (D s) b) (parameters (D_model (D s)))) /\
    G_grad s' =
      accumulate (zero_grad (G_grad s))
        (ag (g_loss_of_G (G s) (D s) b) (parameters (G_model (G s)))) /\
    G s' = G_with (G s)
             (fst (Adam_step (optimizer_G s) (parameters (G_model (G s))) (G_grad s'))) /\
    optimizer_G s' =
      snd (Adam_step (optimizer_G s) (parameters (G_model (G s))) (G_grad s')) /\
    list_loss_D s' = list_loss_D s /\ list_loss_G s' = list_loss_G s.
Proof.
  intros H; apply train_generator_inv in H.
  destruct H as [gen_imgs [validity [HG [HD [-> ->]]]]].
  exists gen_imgs, validity; repeat split; auto.
Qed.

Lemma accumulate_Some (g0 : option vec) (g : vec) :
  exists g', accumulate g0 g = Some g'.
Proof. destruct g0; simpl; eauto. Qed.

Lemma Adam_step_Some (o : Adam) (p g : vec) :
  state_step (snd (Adam_step o p (Some g))) = S (state_step o) /\
  opt_lr (snd (Adam_step o p (Some g))) = opt_lr o /\
  opt_betas (snd (Adam_step o p (Some g))) = opt_betas o.
Proof. simpl; auto. Qed.

(** *** The phases succeed on well-formed batches *)

Lemma usable_batch_sizes (b : batch) :
  usable_batch b ->
  dims (imgs b) = tl example_data_shape /\
  length (noise b) = size0 (imgs b) /\ length (alpha b) = size0 (imgs b) /\
  (2 <= size0 (imgs b))%nat.
Proof. intros [[H1 [_ [H3 [_ H5]]]] H6]; auto. Qed.

Lemma Generator_forward_latent (p : Generator_init) (b : batch) :
  usable_batch b ->
  exists fake,
    Generator_forward (G_of p) (latent b) = Some fake /\
    shape fake = shape (imgs b).
Proof.
  intros Hb; apply usable_batch_sizes in Hb; destruct Hb as [Hd [Hz [_ Hn]]].
  eexists; split.
  - apply Generator_forward_ok; [reflexivity|].
    unfold latent, size0; cbn [rows]. unfold size0 in *; lia.
  - unfold shape, size0; cbn [rows dims].
    rewrite apply_seq_length, Hd. unfold latent; cbn [rows].
    unfold size0 in Hz; now rewrite Hz.
Qed.

Lemma Discriminator_forward_image (p : Discriminator_init) (image : tensor) :
  dims image = tl example_data_shape -> size0 image <> 0%nat ->
  exists validity, Discriminator_forward (D_of p) image = Some validity.
Proof.
  intros Hd Hn; unfold D_of; rewrite Discriminator_forward_eq.
  apply Nat.eqb_neq in Hn; rewrite Hn, Hd, numel_example, Nat.eqb_refl.
  cbn [orb negb]; eauto.
Qed.

Lemma critic_loss_total (p : Discriminator_init) (b : batch) (fake : tensor) :
  usable_batch b -> shape fake = shape (imgs b) ->
  exists l, critic_loss (D_of p) (imgs b) fake (alpha b) = Some l.
Proof.
  intros Hb Hs; apply usable_batch_sizes in Hb; destruct Hb as [Hd [_ [Ha Hn]]].
  unfold critic_loss, D_of.
  rewrite (compute_gradient_penalty_eq mnist_dim p (imgs b) fake (alpha b)
             (tl example_data_shape)); auto; try reflexivity; try lia.
  cbn [bind].
  destruct (Discriminator_forward_image p (imgs b)) as [dr Hr]; auto; try lia.
  destruct (Discriminator_forward_image p fake) as [df Hf].
  { unfold shape in Hs; inversion Hs; congruence. }
  { unfold shape in Hs; inversion Hs; lia. }
  unfold D_of in Hr, Hf; rewrite Hr, Hf; cbn [bind]; eauto.
Qed.

Lemma train_discriminator_total (s : state) (b : batch) :
  architecture_ok s -> usable_batch b ->
  exists s' l, train_discriminator ag s b = Some (s', l) /\ architecture_ok s'.
Proof.
  intros [HG HD] Hb.
  destruct (Generator_of_architecture _ HG) as [pg Hpg].
  destruct (Discriminator_of_architecture _ _ HD) as [pd Hpd].
  destruct (Generator_forward_latent pg b Hb) as [fake [Hf Hs]].
  destruct (critic_loss_total pd b fake Hb Hs) as [l Hl].
  unfold train_discriminator, Generator_call.
  change (G (optimizer_D_zero_grad s)) with (G s).
  change (D (optimizer_D_zero_grad s)) with (D s).
  rewrite Hpg, Hf; cbn [bind option_map detach data graph].
  rewrite Hpd; unfold D_of in Hl; rewrite Hl; cbn [bind].
  eexists _, l; split; [reflexivity|].
  split; cbn [G D optimizer_D_step backward].
  - exact HG.
  - unfold D_with; cbn [D_model]. rewrite kind_load_parameters. exact HD.
Qed.

Lemma train_generator_total (s : state) (b : batch) :
  architecture_ok s -> usable_batch b ->
  exists s' l, train_generator ag s b = Some (s', l) /\ architecture_ok s'.
Proof.
  intros [HG HD] Hb.
  destruct (Generator_of_architecture _ HG) as [pg Hpg].
  destruct (Discriminator_of_architecture _ _ HD) as [pd Hpd].
  destruct (Generator_forward_latent pg b Hb) as [gen [Hf Hs]].
  pose proof (usable_batch_sizes b Hb) as [Hd [_ [_ Hn]]].
  destruct (Discriminator_forward_image pd gen) as [v Hv].
  { unfold shape in Hs; inversion Hs; congruence. }
  { unfold shape in Hs; inversion Hs; lia. }
  unfold train_generator, Generator_call.
  change (G (optimizer_G_zero_grad s)) with (G s).
  change (D (optimizer_G_zero_grad s)) with (D s).
  rewrite Hpg, Hf; cbn [bind data graph].
  unfold D_of in Hv; rewrite Hpd, Hv; cbn [bind].
  eexists _, _; split; [reflexivity|].
  split; cbn [G D optimizer_G_step backward].
  - unfold G_with; cbn [G_model]. rewrite kind_load_parameters. exact HG.
  - exact HD.
Qed.

End TrainingFacts.

(** ** One batch, one epoch, the whole run *)

Section LoopFacts.

Variable ag : (vec -> option R) -> vec -> vec.

Lemma train_batch_inv (s : state) (i : nat) (b : batch) (s' : state) :
  train_batch ag s i b = Some s' ->
  exists s1 d_loss,
    train_discriminator ag s b = Some (s1, d_loss) /\
    ( ((i mod n_critic)%nat = 0%nat /\
       exists s2 g_loss,
         train_generator ag s1 b = Some (s2, g_loss) /\
         s' = record_losses s2 d_loss g_loss)
      \/ ((i mod n_critic)%nat <> 0%nat /\ s' = s1) ).
Proof.
  unfold train_batch.
  destruct (train_discriminator ag s b) as [[s1 d_loss]|] eqn:E1; cbn [bind fst snd];
    [|discriminate].
  destruct (i mod n_critic =? 0)%nat eqn:E.
  - apply Nat.eqb_eq in E.
    destruct (train_generator ag s1 b) as [[s2 g_loss]|] eqn:E2; cbn [bind fst snd];
      [|discriminate].
    intros H; injection H as <-.
    exists s1, d_loss; split; auto. left; split; auto. exists s2, g_loss; auto.
  - apply Nat.eqb_neq in E.
    intros H; injection H as <-.
    exists s1, d_loss; split; auto.
Qed.

Lemma train_batches_one (s : state) (i : nat) (b : batch) (s' : state) :
  train_batches ag s i [b] = Some s' -> train_batch ag s i b = Some s'.
Proof.
  cbn [train_batches].
  destruct (train_batch ag s i b) as [s1|]; cbn [bind]; [auto|discriminate].
Qed.

Lemma train_batch_total (s : state) (i : nat) (b : batch) :
  architecture_ok s -> usable_batch b ->
  exists s', train_batch ag s i b = Some s' /\ architecture_ok s'.
Proof.
  intros Hs Hb.
  destruct (train_discriminator_total ag s b Hs Hb) as [s1 [l [H1 Hs1]]].
  unfold train_batch; rewrite H1; cbn [bind fst snd].
  destruct (i mod n_critic =? 0)%nat; [|eauto].
  destruct (train_generator_total ag s1 b Hs1 Hb) as [s2 [l2 [H2 Hs2]]].
  rewrite H2; cbn [bind fst snd]. eexists; split; [reflexivity|exact Hs2].
Qed.

Lemma train_batches_total (loader : list batch) (s : state) (i : nat) :
  architecture_ok s -> Forall usable_batch loader ->
  exists s', train_batches ag s i loader = Some s' /\ architecture_ok s'.
Proof.
  revert s i; induction loader as [|b loader IH]; intros s i Hs Hl; simpl.
  - eauto.
  - inversion Hl as [|? ? Hb Hl']; subst.
    destruct (train_batch_total s i b Hs Hb) as [s1 [H1 Hs1]].
    rewrite H1; cbn [bind]. now apply IH.
Qed.

(** X2.  Training cannot fail on well-formed data: when every batch holds
    at least two images of the dataset's shape, with the noise and the
    interpolation weights drawn for it, every forward pass, loss and
    optimizer step of the run succeeds. *)
Theorem train_total (loaders : list (list batch)) (s : state) :
  architecture_ok s -> Forall (Forall usable_batch) loaders ->
  exists s', train ag s loaders = Some s' /\ architecture_ok s'.
Proof.
  revert s; induction loaders as [|l loaders IH]; intros s Hs Hl; simpl.
  - eauto.
  - inversion Hl as [|? ? Hb Hl']; subst.
    destruct (train_batches_total l s 0 Hs Hb) as [s1 [H1 Hs1]].
    unfold train_epoch; rewrite H1; cbn [bind]. now apply IH.
Qed.

(** *** Optimizer steps taken by one batch *)

Lemma critic_phase_steps (s : state) (b : batch) (s' : state) (l : R) :
  train_discriminator ag s b = Some (s', l) ->
  state_step (optimizer_D s') = S (state_step (optimizer_D s)) /\
  opt_lr (optimizer_D s') = opt_lr (optimizer_D s) /\
  opt_betas (optimizer_D s') = opt_betas (optimizer_D s) /\
  optimizer_G s' = optimizer_G s /\ G s' = G s /\
  exists g, D s' = D_with (D s)
              (fst (Adam_step (optimizer_D s) (parameters (D_model (D s))) (Some g))).
Proof.
  intros H; apply critic_phase_effect in H.
  destruct H as [fake [_ [_ [HG [_ [HoG [Hg [HD [HoD _]]]]]]]]].
  destruct (accumulate_Some (zero_grad (D_grad s))
              (ag (d_loss_of_D (D s) b fake) (parameters (D_model (D s))))) as [g Eg].
  rewrite Eg in Hg; rewrite Hg in HD, HoD.
  rewrite HoD.
  destruct (Adam_step_Some (optimizer_D s) (parameters (D_model (D s))) g) as [A [B C]].
  repeat split; auto. exists g; exact HD.
Qed.

Lemma generator_phase_steps (s : state) (b : batch) (s' : state) (l : R) :
  train_generator ag s b = Some (s', l) ->
  state_step (optimizer_G s') = S (state_step (optimizer_G s)) /\
  opt_lr (optimizer_G s') = opt_lr (optimizer_G s) /\
  opt_betas (optimizer_G s') = opt_betas (optimizer_G s) /\
  optimizer_D s' = optimizer_D s /\ D s' = D s /\
  exists g, G s' = G_with (G s)
              (fst (Adam_step (optimizer_G s) (parameters (G_model (G s))) (Some g))).
Proof.
  intros H; apply generator_phase_effect in H.
  destruct H as [gen [v [_ [_ [_ [HD [HoD [_ [Hg [HG [HoG _]]]]]]]]]]].
  destruct (accumulate_Some (zero_grad (G_grad s))
              (ag (g_loss_of_G (G s) (D s) b) (parameters (G_model (G s))))) as [g Eg].
  rewrite Eg in Hg; rewrite Hg in HG, HoG.
  rewrite HoG.
  destruct (Adam_step_Some (optimizer_G s) (parameters (G_model (G s))) g) as [A [B C]].
  repeat split; auto. exists g; exact HG.
Qed.

Lemma train_batch_steps (s : state) (i : nat) (b : batch) (s' : state) :
  train_batch ag s i b = Some s' ->
  state_step (optimizer_D s') = S (state_step (optimizer_D s)) /\
  state_step (optimizer_G s') = (state_step (optimizer_G s) + generator_turn i)%nat /\
  (opt_lr (optimizer_D s') = opt_lr (optimizer_D s) /\
   opt_betas (optimizer_D s') = opt_betas (optimizer_D s)) /\
  (opt_lr (optimizer_G s') = opt_lr (optimizer_G s) /\
   opt_betas (optimizer_G s') = opt_betas (optimizer_G s)).
Proof.
  intros H; apply train_batch_inv in H.
  destruct H as [s1 [d_loss [H1 H]]].
  apply critic_phase_steps in H1.
  destruct H1 as [A1 [A2 [A3 [A4 [A5 _]]]]].
  unfold generator_turn.
  destruct H as [[Hi [s2 [g_loss [H2 ->]]]] | [Hi ->]].
  - apply generator_phase_steps in H2.
    destruct H2 as [B1 [B2 [B3 [B4 [B5 _]]]]].
    apply Nat.eqb_eq in Hi; rewrite Hi.
    cbn [record_losses optimizer_D optimizer_G].
    rewrite B4, B1, B2, B3, A1, A2, A3, A4. repeat split; auto; lia.
  - apply Nat.eqb_neq in Hi; rewrite Hi.
    rewrite A1, A2, A3, A4. repeat split; auto; lia.
Qed.

Lemma train_batches_steps (loader : list batch) (s : state) (i : nat) (s' : state) :
  train_batches ag s i loader = Some s' ->
  state_step (optimizer_D s') = (state_step (optimizer_D s) + length loader)%nat /\
  state_step (optimizer_G s') =
    (state_step (optimizer_G s) + generator_turns i (length loader))%nat.
Proof.
  revert s i; induction loader as [|b loader IH]; intros s i; simpl.
  - intros H; injection H as <-; lia.
  - destruct (train_batch ag s i b) as [s1|] eqn:E; cbn [bind]; [|discriminate].
    intros H; apply IH in H; destruct H as [HD HG].
    apply train_batch_steps in E; destruct E as [ED [EG _]].
    rewrite HD, HG, ED, EG; lia.
Qed.

End LoopFacts.

Lemma generator_turns_shift (i n : nat) :
  generator_turns i (S n) = (generator_turns i n + generator_turn (i + n))%nat.
Proof.
  revert i; induction n as [|n IH]; intros i.
  - cbn [generator_turns]; rewrite !Nat.add_0_r; reflexivity.
  - change (generator_turns i (S (S n)))
      with (generator_turn i + generator_turns (S i) (S n))%nat.
    rewrite IH. cbn [generator_turns].
    replace (i + S n)%nat with (S i + n)%nat by lia. lia.
Qed.

(** From the start of an epoch, [k] batches hold ceil(k / 5) generator
    turns. *)
Lemma generator_turns_from_0 (k : nat) :
  generator_turns 0 k = ((k + 4) / 5)%nat.
Proof.
  induction k as [|k IH]; [reflexivity|].
  rewrite generator_turns_shift, IH; rewrite Nat.add_0_l.
  unfold generator_turn, n_critic.
  pose proof (Nat.div_mod_eq k 5) as E.
  pose proof (Nat.mod_upper_bound k 5 ltac:(lia)) as U.
  destruct (k mod 5 =? 0)%nat eqn:M.
  - apply Nat.eqb_eq in M.
    assert (Q : ((k + 4) / 5 = k / 5)%nat).
    { symmetry; apply (Nat.div_unique _ _ _ 4%nat); lia. }
    rewrite Q; apply (Nat.div_unique _ _ _ 0%nat); lia.
  - apply Nat.eqb_neq in M.
    assert (Q : ((k + 4) / 5 = S (k / 5))%nat).
    { symmetry; apply (Nat.div_unique _ _ _ (k mod 5 - 1)%nat); lia. }
    rewrite Q; apply (Nat.div_unique _ _ _ (k mod 5)%nat); lia.
Qed.

Lemma usable_batch0 : usable_batch batch0.
Proof.
  unfold usable_batch, wf_batch, batch0; cbn [imgs noise alpha].
  pose proof (zeros_tensor_shape 2 (tl example_data_shape)) as H.
  apply shape_inv in H; destruct H as [Hn Hd].
  rewrite Hn, Hd, repeat_length.
  repeat split; auto.
  - apply wf_zeros_tensor.
  - apply Forall_forall; intros r Hr.
    apply repeat_spec in Hr; subst r; apply repeat_length.
Qed.

Lemma Forall_repeat {A : Type} (P : A -> Prop) (a : A) (n : nat) :
  P a -> Forall P (repeat a n).
Proof. intros H; induction n; simpl; auto. Qed.

Lemma train_total_witness :
  architecture_ok (init_state G_init0 D_init0) /\
  Forall (Forall usable_batch) [[batch0; batch0]] /\
  exists s',
    train autograd0 (init_state G_init0 D_init0) [[batch0; batch0]] = Some s' /\
    architecture_ok s'.
Proof.
  split; [apply architecture_init|].
  split; [repeat apply Forall_cons; auto using usable_batch0|].
  apply (train_total autograd0 [[batch0; batch0]] (init_state G_init0 D_init0)).
  - apply architecture_init.
  - repeat apply Forall_cons; auto using usable_batch0.
Defined.

Section Hyperparameters.

Variable ag : (vec -> option R) -> vec -> vec.

Lemma notebook_Adam_init (pg : Generator_init) (pd : Discriminator_init) :
  notebook_Adam (optimizer_G (init_state pg pd)) /\
  notebook_Adam (optimizer_D (init_state pg pd)).
Proof. split; split; reflexivity. Qed.

Lemma train_batch_keeps_Adam (s : state) (i : nat) (b : batch) (s' : state) :
  train_batch ag s i b = Some s' ->
  notebook_Adam (optimizer_G s) /\ notebook_Adam (optimizer_D s) ->
  notebook_Adam (optimizer_G s') /\ notebook_Adam (optimizer_D s').
Proof.
  intros H [[G1 G2] [D1 D2]].
  apply train_batch_steps in H; destruct H as [_ [_ [[A B] [C E]]]].
  unfold notebook_Adam; rewrite A, B, C, E; auto.
Qed.

Lemma train_batches_keep_Adam (loader : list batch) (s : state) (i : nat) (s' : state) :
  train_batches ag s i loader = Some s' ->
  notebook_Adam (optimizer_G s) /\ notebook_Adam (optimizer_D s) ->
  notebook_Adam (optimizer_G s') /\ notebook_Adam (optimizer_D s').
Proof.
  revert s i; induction loader as [|b loader IH]; intros s i; simpl.
  - intros H; injection H as <-; auto.
  - destruct (train_batch ag s i b) as [s1|] eqn:E; cbn [bind]; [|discriminate].
    intros H Hs; eapply IH; eauto. eapply train_batch_keeps_Adam; eauto.
Qed.

Lemma train_keeps_Adam (loaders : list (list batch)) (s s' : state) :
  train ag s loaders = Some s' ->
  notebook_Adam (optimizer_G s) /\ notebook_Adam (optimizer_D s) ->
  notebook_Adam (optimizer_G s') /\ notebook_Adam (optimizer_D s').
Proof.
  revert s; induction loaders as [|l loaders IH]; intros s; simpl.
  - intros H; injection H as <-; auto.
  - unfold train_epoch.
    destruct (train_batches ag s 0 l) as [s1|] eqn:E; cbn [bind]; [|discriminate].
    intros H Hs; eapply IH; eauto. eapply train_batches_keep_Adam; eauto.
Qed.

End Hyperparameters.

(** ** The backward pass computes the gradient *)

Lemma derivable_pt_lim_eq (f : R -> R) (x l l' : R) :
  l = l' -> derivable_pt_lim f x l -> derivable_pt_lim f x l'.
Proof. now intros ->. Qed.

Lemma sum_map_deriv (l : list nat) (f : nat -> R -> R) (f' : nat -> R) :
  (forall j, In j l -> derivable_pt_lim (f j) 0 (f' j)) ->
  derivable_pt_lim (fun t => sum (map (fun j => f j t) l)) 0 (sum (map f' l)).
Proof.
  induction l as [|j l IH]; intros H; simpl.
  - apply (derivable_pt_lim_const 0).
  - apply (derivable_pt_lim_plus (f j) (fun t => sum (map (fun j => f j t) l))).
    + apply H; now left.
    + apply IH; intros k Hk; apply H; now right.
Qed.

Lemma dot_as_sum (n : nat) (u v : vec) :
  length u = n -> length v = n ->
  dot u v = sum (map (fun j => nth j u 0 * nth j v 0) (seq 0 n)).
Proof.
  revert u v; induction n as [|n IH]; intros [|a u] [|b v] Hu Hv;
    simpl in *; try discriminate; auto.
  rewrite <- seq_shift, map_map. f_equal. apply IH; lia.
Qed.

Lemma dot_deriv (n : nat) (w : vec) (c : R -> vec) (dc : vec) :
  length w = n -> curve_deriv n c dc ->
  derivable_pt_lim (fun t => dot w (c t)) 0 (dot w dc).
Proof.
  intros Hw [Hc [Hd Hj]].
  rewrite (dot_as_sum n w dc) by auto.
  apply (derivable_pt_lim_ext
           (fun t => sum (map (fun j => nth j w 0 * nth j (c t) 0) (seq 0 n)))).
  { intros t; symmetry; apply dot_as_sum; auto. }
  apply (sum_map_deriv (seq 0 n) (fun j t => nth j w 0 * nth j (c t) 0)
           (fun j => nth j w 0 * nth j dc 0)).
  intros j Hin; apply in_seq in Hin.
  apply (derivable_pt_lim_scal (fun t => nth j (c t) 0) (nth j w 0) 0 (nth j dc 0)).
  apply Hj; lia.
Qed.

Lemma nth_map2 {A B C : Type} (f : A -> B -> C) (u : list A) (v : list B)
    (j : nat) (da : A) (db : B) (dc : C) :
  (j < length u)%nat -> (j < length v)%nat ->
  nth j (map2 f u v) dc = f (nth j u da) (nth j v db).
Proof.
  revert u v; induction j as [|j IH]; intros [|a u] [|b v] Hu Hv;
    simpl in *; try lia; auto.
  apply IH; lia.
Qed.

Lemma nth_map_lt {A B : Type} (f : A -> B) (l : list A) (j : nat) (da : A) (db : B) :
  (j < length l)%nat -> nth j (map f l) db = f (nth j l da).
Proof.
  revert l; induction j as [|j IH]; intros [|a l] H; simpl in *; try lia; auto.
  apply IH; lia.
Qed.

Lemma linear_curve (i o : nat) (w : matrix) (b : vec) (c : R -> vec) (dc : vec) :
  wf_matrix o i w -> wf_vec o b -> curve_deriv i c dc ->
  curve_deriv o (fun t => linear_row w b (c t)) (map (fun wk => dot wk dc) w).
Proof.
  intros Hw Hb Hc.
  pose proof Hw as [Hwl Hwr].
  split; [|split].
  - intros t; eapply linear_row_length; eauto.
  - now rewrite length_map.
  - intros j Hj.
    assert (Hr : length (nth j w []) = i).
    { rewrite Forall_forall in Hwr; apply Hwr, nth_In; lia. }
    rewrite (nth_map_lt _ w j [] 0) by lia.
    apply (derivable_pt_lim_ext (fun t => dot (nth j w []) (c t) + nth j b 0)).
    { intros t; unfold linear_row; symmetry.
      apply (nth_map2 (fun wk bk => dot wk (c t) + bk) w b j [] 0 0);
        unfold wf_vec in Hb; lia. }
    replace (dot (nth j w []) dc) with (dot (nth j w []) dc + 0) by lra.
    apply (derivable_pt_lim_plus (fun t => dot (nth j w []) (c t)) (fun _ => nth j b 0)).
    + eapply dot_deriv; eauto.
    + apply (derivable_pt_lim_const (nth j b 0)).
Qed.

Lemma leaky_relu_deriv (s x : R) :
  x <> 0 -> derivable_pt_lim (leaky_relu s) x (leaky_relu' s x).
Proof.
  intros Hx eps Heps.
  exists (mkposreal (Rabs x) (Rabs_pos_lt x Hx)); intros h Hh Hlt; simpl in Hlt.
  apply Rabs_def2 in Hlt; destruct Hlt as [H1 H2].
  unfold leaky_relu, leaky_relu'.
  destruct (Rlt_dec 0 x) as [Hp|Hn].
  - rewrite Rabs_right in H1, H2 by lra.
    destruct (Rlt_dec 0 (x + h)); [|lra].
    replace ((x + h - x) / h - 1) with 0 by (field; auto).
    now rewrite Rabs_R0.
  - assert (Hneg : x < 0) by lra.
    rewrite Rabs_left in H1, H2 by lra.
    destruct (Rlt_dec 0 (x + h)); [lra|].
    replace ((s * (x + h) - s * x) / h - s) with 0 by (field; auto).
    now rewrite Rabs_R0.
Qed.

Lemma sigmoid_deriv (x : R) : derivable_pt_lim sigmoid x (sigmoid' x).
Proof.
  pose proof (exp_pos (- x)) as He.
  assert (Hexp : derivable_pt_lim (fun y => exp (- y)) x (exp (- x) * -1)).
  { apply (derivable_pt_lim_comp (fun y => - y) exp x (-1) (exp (- x))).
    - apply (derivable_pt_lim_ext (- id)%F); [reflexivity|].
      apply derivable_pt_lim_opp, derivable_pt_lim_id.
    - apply derivable_pt_lim_exp. }
  assert (Hden : derivable_pt_lim (fun y => 1 + exp (- y)) x (0 + exp (- x) * -1)).
  { apply (derivable_pt_lim_plus (fun _ => 1) (fun y => exp (- y))); auto.
    apply (derivable_pt_lim_const 1). }
  pose proof (derivable_pt_lim_div (fun _ => 1) (fun y => 1 + exp (- y)) x 0
                (0 + exp (- x) * -1) (derivable_pt_lim_const 1 x) Hden
                ltac:(lra)) as H.
  apply (derivable_pt_lim_ext _ sigmoid) in H; [|reflexivity].
  replace (sigmoid' x)
    with ((0 * (1 + exp (- x)) - (0 + exp (- x) * -1) * 1) / Rsqr (1 + exp (- x))).
  - exact H.
  - unfold sigmoid', sigmoid, Rsqr; field; lra.
Qed.

Lemma pointwise_curve (n : nat) (f f' : R -> R) (c : R -> vec) (dc x : vec) :
  c 0 = x ->
  (forall j, (j < n)%nat -> derivable_pt_lim f (nth j x 0) (f' (nth j x 0))) ->
  curve_deriv n c dc ->
  curve_deriv n (fun t => map f (c t)) (map2 (fun xi vi => f' xi * vi) x dc).
Proof.
  intros H0 Hf [Hc [Hd Hj]].
  assert (Hx : length x = n) by (rewrite <- H0; apply Hc).
  split; [|split].
  - intros t; now rewrite length_map.
  - rewrite map2_length, Hx, Hd; apply Nat.min_id.
  - intros j Hlt.
    rewrite (nth_map2 (fun xi vi => f' xi * vi) x dc j 0 0 0) by lia.
    apply (derivable_pt_lim_ext (fun t => f (nth j (c t) 0))).
    { intros t; symmetry; apply nth_map_lt; rewrite Hc; lia. }
    apply (derivable_pt_lim_comp (fun t => nth j (c t) 0) f 0 (nth j dc 0)
             (f' (nth j x 0))).
    + now apply Hj.
    + rewrite H0; now apply Hf.
Qed.

Lemma cosh_pos (x : R) : 0 < cosh x.
Proof.
  unfold cosh; pose proof (exp_pos x); pose proof (exp_pos (- x)); lra.
Qed.

Lemma tanh_deriv (x : R) : derivable_pt_lim tanh x (tanh' x).
Proof.
  pose proof (cosh_pos x) as Hc.
  pose proof (derivable_pt_lim_div sinh cosh x (cosh x) (sinh x)
                (derivable_pt_lim_sinh x) (derivable_pt_lim_cosh x)
                ltac:(lra)) as H.
  apply (derivable_pt_lim_ext _ tanh) in H; [|reflexivity].
  replace (tanh' x) with ((cosh x * cosh x - sinh x * sinh x) / Rsqr (cosh x)).
  - exact H.
  - unfold tanh', tanh, Rsqr; field; lra.
Qed.

Lemma apply_row_length (l : layer) (n : nat) (x : vec) :
  length x = n ->
  match l with
  | Linear i o w b => wf_matrix o i w /\ wf_vec o b
  | BatchNorm1d _ _ _ _ _ => False
  | _ => True
  end ->
  length (apply_row l x) = out_features_of [l] n.
Proof.
  intros Hx; destruct l; simpl; intros H; try contradiction;
    try (now rewrite length_map).
  destruct H; eapply linear_row_length; eauto.
Qed.

(** Forward mode: along a differentiable curve through a regular point, the
    output of the [Sequential] is differentiable, with derivative
    [jvp_seq_row]. *)
Lemma seq_curve (m : Sequential) (n : nat) (c : R -> vec) (dc x : vec) :
  c 0 = x -> regular_at m n x -> curve_deriv n c dc ->
  curve_deriv (out_features_of m n) (fun t => apply_seq_row m (c t))
    (jvp_seq_row m x dc).
Proof.
  revert n c dc x; induction m as [|l m IH]; intros n c dc x H0 Hr Hc.
  - exact Hc.
  - destruct l as [i o w b| | s | |]; cbn [regular_at] in Hr.
    + destruct Hr as [-> [Hw [Hb Hr]]].
      apply (IH o (fun t => apply_row (Linear i o w b) (c t))); auto.
      * now rewrite H0.
      * cbn [apply_row jvp_row]. now apply (linear_curve i o).
    + contradiction.
    + destruct Hr as [Hnz Hr].
      apply (IH n (fun t => apply_row (LeakyReLU s) (c t))); auto.
      * now rewrite H0.
      * cbn [apply_row jvp_row].
        apply (pointwise_curve n (leaky_relu s) (leaky_relu' s)); auto.
        intros j Hj; apply leaky_relu_deriv.
        rewrite Forall_forall in Hnz; apply Hnz, nth_In.
        destruct Hc as [Hc _]; rewrite <- H0, Hc; exact Hj.
    + apply (IH n (fun t => apply_row Tanh (c t))); auto.
      * now rewrite H0.
      * cbn [apply_row jvp_row].
        apply (pointwise_curve n tanh tanh'); auto.
        intros j _; apply tanh_deriv.
    + apply (IH n (fun t => apply_row Sigmoid (c t))); auto.
      * now rewrite H0.
      * cbn [apply_row jvp_row].
        apply (pointwise_curve n sigmoid sigmoid'); auto.
        intros j _; apply sigmoid_deriv.
Qed.

(** *** Reverse mode is the adjoint of forward mode *)
Lemma dot_vadd_l (n : nat) (a b v : vec) :
  length a = n -> length b = n -> length v = n ->
  dot (vadd a b) v = dot a v + dot b v.
Proof.
  unfold vadd.
  revert a b v; induction n as [|n IH]; intros [|a0 a] [|b0 b] [|v0 v] Ha Hb Hv;
    simpl in *; try discriminate; try lra.
  rewrite (IH a b v) by lia. lra.
Qed.

Lemma dot_vscale_l (k : R) (a v : vec) : dot (vscale k a) v = k * dot a v.
Proof.
  revert v; induction a as [|a0 a IH]; intros [|v0 v]; simpl; try lra.
  unfold vscale in IH; rewrite IH; lra.
Qed.

Lemma dot_zeros_l (n : nat) (v : vec) : dot (repeat 0 n) v = 0.
Proof.
  revert v; induction n as [|n IH]; intros [|v0 v]; simpl; try lra.
  rewrite IH; lra.
Qed.

Lemma linear_vjp_row_length (i : nat) (w : matrix) (g : vec) :
  Forall (fun r => length r = i) w -> length (linear_vjp_row i w g) = i.
Proof.
  revert g; induction w as [|wk w IH]; intros g Hw; simpl.
  - apply repeat_length.
  - destruct g as [|gk g]; [apply repeat_length|].
    inversion Hw as [|? ? Hk Hw']; subst.
    unfold vadd, vscale; rewrite map2_length, length_map, IH by auto.
    apply Nat.min_id.
Qed.

Lemma linear_adjoint (i : nat) (w : matrix) (g v : vec) :
  Forall (fun r => length r = i) w -> length v = i ->
  dot (linear_vjp_row i w g) v = dot g (map (fun wk => dot wk v) w).
Proof.
  revert g; induction w as [|wk w IH]; intros g Hw Hv; simpl.
  - rewrite dot_zeros_l; destruct g; reflexivity.
  - destruct g as [|gk g]; [apply dot_zeros_l|].
    inversion Hw as [|? ? Hk Hw']; subst.
    rewrite (dot_vadd_l (length v)); auto.
    + rewrite dot_vscale_l, IH by auto. reflexivity.
    + unfold vscale; now rewrite length_map.
    + now apply linear_vjp_row_length.
Qed.

Lemma pointwise_adjoint (f' : R -> R) (x g v : vec) :
  dot (map2 (fun xi gi => f' xi * gi) x g) v =
  dot g (map2 (fun xi vi => f' xi * vi) x v).
Proof.
  revert g v; induction x as [|x0 x IH]; intros [|g0 g] [|v0 v]; simpl; try lra.
  rewrite IH; lra.
Qed.

Lemma jvp_row_length (l : layer) (n : nat) (x v : vec) :
  length x = n -> length v = n ->
  match l with
  | Linear i o w b => wf_matrix o i w
  | BatchNorm1d _ _ _ _ _ => False
  | _ => True
  end ->
  length (jvp_row l x v) = out_features_of [l] n.
Proof.
  intros Hx Hv; destruct l; simpl; intros H; try contradiction;
    try (rewrite map2_length, Hx, Hv; apply Nat.min_id).
  destruct H as [H _]; now rewrite length_map.
Qed.

Lemma seq_adjoint (m : Sequential) (n : nat) (x v g : vec) :
  regular_at m n x -> length x = n -> length v = n ->
  dot (backward_seq_row m x g) v = dot g (jvp_seq_row m x v).
Proof.
  revert n x v; induction m as [|l m IH]; intros n x v Hr Hx Hv.
  - reflexivity.
  - cbn [backward_seq_row jvp_seq_row].
    destruct l as [i o w b| | s | |]; cbn [regular_at] in Hr.
    + destruct Hr as [-> [Hw [Hb Hr]]].
      cbn [backward_row]. rewrite linear_adjoint by (auto; apply Hw).
      apply (IH o); auto.
      * eapply linear_row_length; eauto.
      * cbn [jvp_row]; rewrite length_map; apply Hw.
    + contradiction.
    + destruct Hr as [_ Hr].
      cbn [backward_row]. rewrite pointwise_adjoint.
      apply (IH n); auto.
      * cbn [apply_row]; now rewrite length_map.
      * cbn [jvp_row]; rewrite map2_length, Hx, Hv; apply Nat.min_id.
    + cbn [backward_row]. rewrite pointwise_adjoint.
      apply (IH n); auto.
      * cbn [apply_row]; now rewrite length_map.
      * cbn [jvp_row]; rewrite map2_length, Hx, Hv; apply Nat.min_id.
    + cbn [backward_row]. rewrite pointwise_adjoint.
      apply (IH n); auto.
      * cbn [apply_row]; now rewrite length_map.
      * cbn [jvp_row]; rewrite map2_length, Hx, Hv; apply Nat.min_id.
Qed.

Lemma line_0 (x v : vec) : length x = length v -> line x v 0 = x.
Proof.
  unfold line, vadd, vscale.
  revert v; induction x as [|x0 x IH]; intros [|v0 v] H; simpl in *;
    try discriminate; auto.
  rewrite IH by lia. f_equal; lra.
Qed.

Lemma line_curve (n : nat) (x v : vec) :
  length x = n -> length v = n -> curve_deriv n (line x v) v.
Proof.
  intros Hx Hv; split; [|split; [exact Hv|]].
  - intros t; unfold line, vadd, vscale.
    rewrite map2_length, length_map, Hx, Hv; apply Nat.min_id.
  - intros j Hj.
    apply (derivable_pt_lim_ext (fun t => nth j x 0 + t * nth j v 0)).
    { intros t; unfold line, vadd, vscale; symmetry.
      rewrite (nth_map2 Rplus x (map (Rmult t) v) j 0 0 0)
        by (rewrite ?length_map; lia).
      now rewrite (nth_map_lt (Rmult t) v j 0 0) by lia. }
    apply (derivable_pt_lim_eq _ _ (0 + nth j v 0 * 1)); [lra|].
    apply (derivable_pt_lim_plus (fun _ => nth j x 0) (fun t => t * nth j v 0)).
    + apply (derivable_pt_lim_const (nth j x 0)).
    + apply (derivable_pt_lim_ext (fun t => nth j v 0 * id t)).
      { intros t; unfold id; lra. }
      apply derivable_pt_lim_scal, derivable_pt_lim_id.
Qed.

(** X1.  The vector that the backward pass returns is the gradient of the
    critic's score: along every line through a regular input [x] (no leaky
    rectifier at its kink), the score is differentiable with slope
    [input_gradient . v]. *)
Theorem input_gradient_is_gradient (i : nat) (p : Discriminator_init) (x v : vec) :
  length x = i -> length v = i ->
  regular_at (D_model (Discriminator__init__ i p)) i x ->
  derivable_pt_lim
    (fun t => critic_score (Discriminator__init__ i p) (line x v t)) 0
    (dot (input_gradient (Discriminator__init__ i p) x) v).
Proof.
  intros Hx Hv Hr.
  pose proof (seq_curve _ i (line x v) v x (line_0 x v ltac:(lia)) Hr
                (line_curve i x v Hx Hv)) as [Hlen [Hdl Hd]].
  change (out_features_of (D_model (Discriminator__init__ i p)) i) with 1%nat in *.
  unfold input_gradient.
  rewrite (seq_adjoint _ i x v [1] Hr Hx Hv).
  specialize (Hd 0%nat ltac:(lia)).
  apply (derivable_pt_lim_ext _ (fun t => critic_score (Discriminator__init__ i p) (line x v t)))
    in Hd.
  2:{ intros t; unfold critic_score.
      specialize (Hlen t).
      destruct (apply_seq_row (D_model (Discriminator__init__ i p)) (line x v t));
        [discriminate|reflexivity]. }
  destruct (jvp_seq_row (D_model (Discriminator__init__ i p)) x v) as [|a [|b l]];
    try discriminate.
  simpl in *. replace (1 * a + 0) with a by lra. exact Hd.
Qed.

Lemma linear_row_zero_weights (i o : nat) (b : R) (x : vec) :
  linear_row (repeat (repeat 0 i) o) (repeat b o) x = repeat b o.
Proof.
  unfold linear_row; induction o as [|o IH]; simpl; auto.
  rewrite IH, dot_zeros_l. f_equal; lra.
Qed.

Lemma wf_biased_linear (i o : nat) : wf_linear_init i o (biased_linear i o).
Proof.
  unfold wf_linear_init, wf_matrix, wf_vec, biased_linear; cbn [init_weight init_bias].
  rewrite !repeat_length; repeat split.
  apply Forall_repeat, repeat_length.
Qed.

Lemma D_init1_regular (x : vec) :
  regular_at (D_model (Discriminator__init__ mnist_dim D_init1)) mnist_dim x.
Proof.
  unfold Discriminator__init__, D_init1; cbn [D_model dl1 dl2 dl3 regular_at].
  destruct (wf_biased_linear mnist_dim 512) as [W1 B1].
  destruct (wf_biased_linear 512 256) as [W2 B2].
  destruct (wf_biased_linear 256 1) as [W3 B3].
  repeat (split; auto).
  - cbn [apply_row]; unfold biased_linear; cbn [init_weight init_bias].
    rewrite linear_row_zero_weights. apply Forall_repeat; lra.
  - cbn [apply_row]; unfold biased_linear; cbn [init_weight init_bias].
    rewrite !linear_row_zero_weights. apply Forall_repeat; lra.
Qed.

Lemma input_gradient_is_gradient_witness :
  let x := repeat 0 mnist_dim in
  let v := repeat 1 mnist_dim in
  let d := Discriminator__init__ mnist_dim D_init1 in
  regular_at (D_model d) mnist_dim x /\
  derivable_pt_lim (fun t => critic_score d (line x v t)) 0
    (dot (input_gradient d x) v).
Proof.
  cbv zeta; split; [apply D_init1_regular|].
  apply (input_gradient_is_gradient mnist_dim D_init1
           (repeat 0 mnist_dim) (repeat 1 mnist_dim)).
  - apply repeat_length.
  - apply repeat_length.
  - apply D_init1_regular.
Defined.

(** ** Evaluations at concrete networks *)

Lemma sigmoid_0 : sigmoid 0 = 1 / 2.
Proof. unfold sigmoid; rewrite Ropp_0, exp_0; lra. Qed.

(** The discriminator with all parameters zero scores a black image 1/2. *)
Lemma Discriminator_zero_scores_half :
  Discriminator_forward (D_of D_init0) (zeros_tensor 1 [1; 28; 28]%nat) =
  Some (mk_tensor [1%nat] [[1 / 2]]).
Proof.
  rewrite Discriminator_forward_zeros. do 2 f_equal.
  unfold zeros_tensor; cbn [rows].
  change (repeat (repeat 0 (numel [1; 28; 28]%nat)) 1)
    with [repeat 0 (numel [1; 28; 28]%nat)].
  unfold D_of, Discriminator__init__, D_init0, zeros_linear;
    cbn [D_model dl1 dl2 dl3 init_weight init_bias apply_seq apply_layer map].
  rewrite linear_row_zero_weights.
  cbn [repeat map]. now rewrite sigmoid_0.
Qed.

(** *** The first generator update changes the parameters *)


Lemma first_parameter_load (i o : nat) (w : matrix) (b : vec) (m : Sequential)
    (a : R) (theta : vec) :
  hd 0 (parameters (load_parameters (Linear (S i) (S o) w b :: m) (a :: theta))) = a.
Proof. reflexivity. Qed.

Lemma G0_parameters_head :
  exists t, parameters (G_model (G_of G_init0)) = 0 :: t.
Proof. eexists; reflexivity. Qed.

Lemma G0_model_head :
  exists w b m, G_model (G_of G_init0) = Linear 100 128 w b :: m.
Proof. do 3 eexists; reflexivity. Qed.

Lemma first_Adam_step_value :
  adam_update (Adam__init__ [] lr (b1, b2)) 1 0
    (b1 * 0 + (1 - b1) * 1) (b2 * 0 + (1 - b2) * 1 * 1) < 0.
Proof.
  unfold adam_update, Adam__init__; cbn [opt_lr opt_betas opt_eps fst snd].
  unfold lr, b1, b2.
  replace (0.999 * 0 + (1 - 0.999) * 1 * 1) with (1 - 0.999 ^ 1) by lra.
  assert (Hs : 0 < sqrt (1 - 0.999 ^ 1)) by (apply sqrt_lt_R0; lra).
  replace (sqrt (1 - 0.999 ^ 1) / sqrt (1 - 0.999 ^ 1)) with 1 by (field; lra).
  replace (0.5 * 0 + (1 - 0.5) * 1) with 0.5 by lra.
  replace (1 - 0.5 ^ 1) with 0.5 by lra.
  assert (H : 0 < 0.0002 / 0.5 * (0.5 / (1 + 1 / 100000000))).
  { apply Rmult_lt_0_compat; apply Rdiv_lt_0_compat; lra. }
  lra.
Qed.

Lemma first_generator_step_moves_parameters (s1 s2 : state) (b : batch) (l : R) :
  G s1 = G_of G_init0 -> G_grad s1 = None ->
  optimizer_G s1 = Adam__init__ (parameters (G_model (G_of G_init0))) lr (b1, b2) ->
  train_generator autograd1 s1 b = Some (s2, l) ->
  first_parameter (G s2) < 0.
Proof.
  intros HG Hg Ho H.
  apply generator_phase_effect in H.
  destruct H as [_ [_ [_ [_ [_ [_ [_ [_ [Hgrad [HG2 _]]]]]]]]]].
  rewrite Hg in Hgrad; cbn [zero_grad option_map accumulate] in Hgrad.
  rewrite HG2, Hgrad, Ho, HG.
  unfold first_parameter, G_with, autograd1; cbn [G_model].
  destruct G0_parameters_head as [t Ht]; rewrite Ht.
  destruct G0_model_head as [w [c [m Hm]]]; rewrite Hm.
  cbn [Adam_step Adam__init__ map map2 combine fst snd exp_avg exp_avg_sq
       opt_betas opt_lr opt_eps state_step].
  rewrite first_parameter_load.
  exact first_Adam_step_value.
Qed.

Lemma first_parameter_G0 : first_parameter (G_of G_init0) = 0.
Proof. reflexivity. Qed.

(** * Further properties of the notebook *)

(** ** Which inputs the networks accept *)

Lemma D_output_wf (i : nat) (p : Discriminator_init) (x : matrix) :
  wf_linear_init 256 1 (dl3 p) ->
  Forall (fun r => length r = 1%nat)
    (apply_seq (D_model (Discriminator__init__ i p)) x).
Proof.
  intros [Hw Hb]; rewrite D_output_rows.
  change (apply_seq _ x) with
    (map (linear_row (init_weight (dl3 p)) (init_bias (dl3 p)))
       (apply_seq [Linear i 512 (init_weight (dl1 p)) (init_bias (dl1 p));
                   LeakyReLU 0.2;
                   Linear 512 256 (init_weight (dl2 p)) (init_bias (dl2 p));
                   LeakyReLU 0.2] x)).
  apply Forall_forall; intros r Hr.
  apply in_map_iff in Hr; destruct Hr as [r1 [<- Hr1]].
  apply in_map_iff in Hr1; destruct Hr1 as [r0 [<- _]].
  rewrite length_map; eapply linear_row_length; eauto.
Qed.

Lemma Discriminator_forward_some (p : Discriminator_init) (image validity : tensor) :
  wf_Discriminator_init mnist_dim p ->
  Discriminator_forward (D_of p) image = Some validity ->
  size0 image <> 0%nat /\ numel (dims image) = 784%nat /\
  shape validity = [size0 image; 1%nat] /\ wf_tensor validity /\
  Forall (in_open 0 1) (elements validity).
Proof.
  intros [_ [_ H3]]. unfold D_of.
  rewrite Discriminator_forward_eq.
  destruct (size0 image =? 0)%nat eqn:E0; cbn [orb]; [discriminate|].
  destruct (numel (dims image) =? mnist_dim)%nat eqn:E1; cbn [negb]; [|discriminate].
  intros H.
  assert (Hv := f_equal (fun o => match o with Some t => t | None => validity end) H).
  cbv beta iota in Hv; subst validity; clear H.
  apply Nat.eqb_neq in E0; apply Nat.eqb_eq in E1.
  split; [exact E0|]. split; [exact E1|].
  split; [|split].
  - unfold shape, size0; cbn [rows dims]. now rewrite apply_seq_length.
  - unfold wf_tensor; cbn [rows dims]. now apply D_output_wf.
  - unfold elements; cbn [rows]. rewrite D_output_rows.
    apply Forall_concat_map; intros a; apply sigmoid_range.
Qed.

Lemma Discriminator_forward_none (p : Discriminator_init) (image : tensor) :
  Discriminator_forward (D_of p) image = None ->
  size0 image = 0%nat \/ numel (dims image) <> 784%nat.
Proof.
  unfold D_of. rewrite Discriminator_forward_eq.
  destruct (size0 image =? 0)%nat eqn:E0; cbn [orb].
  - intros _; left; now apply Nat.eqb_eq.
  - destruct (numel (dims image) =? mnist_dim)%nat eqn:E1; cbn [negb]; [discriminate|].
    intros _; right; now apply Nat.eqb_neq.
Qed.

(** X3.  Whenever [Discriminator.forward] returns, the batch has at least
    one sample and 784 values per sample, and the result is a tensor of
    shape (n, 1) holding one score per sample: an empty batch and a batch of
    another sample size are refused. *)
Theorem Discriminator_forward_domain (p : Discriminator_init)
    (image validity : tensor) :
  wf_Discriminator_init mnist_dim p ->
  Discriminator_forward (D_of p) image = Some validity ->
  size0 image <> 0%nat /\ numel (dims image) = 784%nat /\
  shape validity = [size0 image; 1%nat] /\ wf_tensor validity.
Proof.
  intros [_ [_ H3]]. unfold D_of.
  rewrite Discriminator_forward_eq.
  destruct (size0 image =? 0)%nat eqn:E0; cbn [orb]; [discriminate|].
  destruct (numel (dims image) =? mnist_dim)%nat eqn:E1; cbn [negb]; [|discriminate].
  intros H.
  assert (Hv := f_equal (fun o => match o with Some t => t | None => validity end) H).
  cbv beta iota in Hv; subst validity; clear H.
  apply Nat.eqb_neq in E0; apply Nat.eqb_eq in E1.
  split; [exact E0|]. split; [exact E1|]. split.
  - unfold shape, size0; cbn [rows dims]. now rewrite apply_seq_length.
  - unfold wf_tensor; cbn [rows dims]. now apply D_output_wf.
Qed.

Lemma Discriminator_forward_domain_witness :
  wf_Discriminator_init mnist_dim D_init0 /\
  exists validity,
    Discriminator_forward (D_of D_init0) (zeros_tensor 3 [1; 28; 28]%nat) = Some validity /\
    shape validity = [size0 (zeros_tensor 3 [1; 28; 28]%nat); 1%nat].
Proof.
  split; [exact wf_D_init0|].
  assert (Hs : size0 (zeros_tensor 3 [1; 28; 28]%nat) = 3%nat).
  { pose proof (zeros_tensor_shape 3 [1; 28; 28]%nat) as H.
    now apply shape_inv in H. }
  destruct (Discriminator_forward_image D_init0 (zeros_tensor 3 [1; 28; 28]%nat))
    as [v Hv]; [reflexivity|rewrite Hs; discriminate|].
  exists v; split; [exact Hv|].
  destruct (Discriminator_forward_domain D_init0 _ v wf_D_init0 Hv) as [_ [_ [H _]]].
  exact H.
Defined.

(** X4.  On a latent batch of shape (n, k) with n >= 1 the generator fails
    exactly when k is not 100 or n is 1. *)
Theorem Generator_forward_domain (p : Generator_init) (z : tensor) (k : nat) :
  dims z = [k] -> size0 z <> 0%nat ->
  (Generator_forward (G_of p) z = None <-> k <> 100%nat \/ size0 z = 1%nat).
Proof.
  intros Hd Hn.
  destruct (Nat.eq_dec k 100) as [->|Hk].
  - destruct (Nat.eq_dec (size0 z) 1) as [H1|H1].
    + split; [auto|]. intros _. now apply Generator_forward_single.
    + rewrite Generator_forward_ok by auto.
      split; [discriminate|]. intros [H|H]; [now elim H | contradiction].
  - split; [auto|]. intros _.
    unfold Generator_forward, G_of.
    rewrite forward_seq_split, Hd, Generator_dims.
    apply Nat.eqb_neq in Hk. unfold z_dim. now rewrite Hk.
Qed.

Lemma Generator_forward_domain_witness :
  dims (zeros_tensor 1 [100%nat]) = [100%nat] /\
  size0 (zeros_tensor 1 [100%nat]) <> 0%nat /\
  Generator_forward (G_of G_init0) (zeros_tensor 1 [100%nat]) = None.
Proof.
  assert (Hs : size0 (zeros_tensor 1 [100%nat]) = 1%nat).
  { pose proof (zeros_tensor_shape 1 [100%nat]) as H.
    now apply shape_inv in H. }
  split; [reflexivity|]. split; [rewrite Hs; discriminate|].
  apply (proj2 (Generator_forward_domain G_init0 (zeros_tensor 1 [100%nat]) 100
                  eq_refl ltac:(rewrite Hs; discriminate))).
  right; exact Hs.
Defined.

(** ** Interpolated samples *)

Lemma lerp_between (lo hi a : R) (r f : vec) :
  0 <= a <= 1 -> Forall (in_closed lo hi) r -> Forall (in_closed lo hi) f ->
  Forall (in_closed lo hi) (lerp a r f).
Proof.
  intros Ha Hr; revert f; unfold lerp.
  induction Hr as [|r0 r [H1 H2] Hr IH]; intros f Hf; simpl; [constructor|].
  destruct Hf as [|f0 f [H3 H4] Hf]; simpl; constructor; auto.
  unfold in_closed; split; nra.
Qed.

(** X5.  With weights between 0 and 1, the interpolates of two batches
    whose values lie in [-1, 1] (normalised images, generated images) have
    all their values in [-1, 1]. *)
Theorem interpolates_stay_in_range (alpha : vec)
    (real_samples fake_samples : matrix) :
  Forall (fun a => 0 <= a <= 1) alpha ->
  Forall (Forall (in_closed (-1) 1)) real_samples ->
  Forall (Forall (in_closed (-1) 1)) fake_samples ->
  Forall (Forall (in_closed (-1) 1)) (interpolate alpha real_samples fake_samples).
Proof.
  unfold interpolate.
  intros Ha; revert real_samples fake_samples.
  induction Ha as [|a alpha Ha0 Ha IH]; intros r f Hr Hf; simpl; [constructor|].
  destruct Hr as [|r0 r Hr0 Hr]; simpl; [constructor|].
  destruct Hf as [|f0 f Hf0 Hf]; simpl; constructor.
  - cbn [fst snd]. now apply (lerp_between (-1) 1 a r0 f0).
  - now apply IH.
Qed.

Lemma interpolates_stay_in_range_witness :
  Forall (fun a => 0 <= a <= 1) [0; 1 / 2] /\
  Forall (Forall (in_closed (-1) 1)) [[1; -1]; [0; 1]] /\
  Forall (Forall (in_closed (-1) 1)) [[0; 0]; [-1; 1 / 2]] /\
  Forall (Forall (in_closed (-1) 1))
    (interpolate [0; 1 / 2] [[1; -1]; [0; 1]] [[0; 0]; [-1; 1 / 2]]).
Proof.
  assert (A : Forall (fun a => 0 <= a <= 1) [0; 1 / 2])
    by (repeat constructor; lra).
  assert (B : Forall (Forall (in_closed (-1) 1)) [[1; -1]; [0; 1]])
    by (repeat constructor; unfold in_closed; lra).
  assert (C : Forall (Forall (in_closed (-1) 1)) [[0; 0]; [-1; 1 / 2]])
    by (repeat constructor; unfold in_closed; lra).
  split; [exact A|]. split; [exact B|]. split; [exact C|].
  exact (interpolates_stay_in_range _ _ _ A B C).
Defined.

(** ** When the penalty vanishes *)






(** ** The losses are bounded *)

Lemma concat_length_uniform (x : matrix) (k : nat) :
  Forall (fun r => length r = k) x -> length (concat x) = (length x * k)%nat.
Proof.
  induction 1 as [|r x Hr _ IH]; simpl; auto.
  rewrite length_app, IH, Hr; lia.
Qed.

Lemma sum_bounds (lo hi : R) (l : vec) :
  l <> [] -> Forall (in_open lo hi) l ->
  INR (length l) * lo < sum l < INR (length l) * hi.
Proof.
  intros Hne H; induction H as [|a l [H1 H2] Hl IH]; [contradiction|].
  destruct l as [|b l].
  - simpl; lra.
  - assert (Hb : b :: l <> []) by discriminate.
    specialize (IH Hb).
    change (sum (a :: b :: l)) with (a + sum (b :: l)).
    change (length (a :: b :: l)) with (S (length (b :: l))).
    rewrite S_INR. lra.
Qed.

Lemma mean_in_open (lo hi : R) (l : vec) :
  l <> [] -> Forall (in_open lo hi) l -> lo < mean l < hi.
Proof.
  intros Hne H.
  pose proof (sum_bounds lo hi l Hne H) as [H1 H2].
  assert (Hn : 0 < INR (length l)).
  { apply lt_0_INR; destruct l; [contradiction|simpl; lia]. }
  unfold mean; split.
  - apply (Rmult_lt_reg_r (INR (length l))); [exact Hn|].
    unfold Rdiv; rewrite Rmult_assoc, Rinv_l by lra. lra.
  - apply (Rmult_lt_reg_r (INR (length l))); [exact Hn|].
    unfold Rdiv; rewrite Rmult_assoc, Rinv_l by lra. lra.
Qed.

Lemma Discriminator_mean_score (p : Discriminator_init) (image validity : tensor) :
  wf_Discriminator_init mnist_dim p ->
  Discriminator_forward (D_of p) image = Some validity ->
  0 < mean (elements validity) < 1.
Proof.
  intros Hp H.
  destruct (Discriminator_forward_some p image validity Hp H)
    as [Hn [_ [Hs [Hw Hr]]]].
  apply mean_in_open; [|exact Hr].
  apply shape_inv in Hs; destruct Hs as [Hs0 Hsd].
  unfold wf_tensor in Hw; rewrite Hsd in Hw.
  intros E; apply (f_equal (@length R)) in E.
  unfold elements in E; rewrite (concat_length_uniform _ _ Hw) in E.
  unfold size0 in *; simpl in E; lia.
Qed.

(** X7.  Because the discriminator ends in a sigmoid, the losses are
    bounded: the generator loss lies between -1 and 0, and the critic loss is
    never below -1. *)
Theorem losses_are_bounded (pd : Discriminator_init) (g : Generator)
    (z real_imgs fake_imgs : tensor) (alpha : vec) (g_loss d_loss : R) :
  wf_Discriminator_init mnist_dim pd ->
  generator_loss g (D_of pd) z = Some g_loss ->
  critic_loss (D_of pd) real_imgs fake_imgs alpha = Some d_loss ->
  -1 <= g_loss <= 0 /\ -1 <= d_loss.
Proof.
  intros Hp Hg Hd.
  unfold generator_loss in Hg.
  destruct (Generator_forward g z) as [gen|]; cbn [bind] in Hg; [|discriminate].
  destruct (Discriminator_forward (D_of pd) gen) as [v|] eqn:Ev;
    cbn [bind] in Hg; [|discriminate].
  injection Hg as <-.
  pose proof (Discriminator_mean_score pd gen v Hp Ev) as Hv.
  unfold critic_loss in Hd.
  destruct (compute_gradient_penalty (D_of pd) real_imgs fake_imgs alpha) as [gp|] eqn:Egp;
    cbn [bind] in Hd; [|discriminate].
  destruct (Discriminator_forward (D_of pd) real_imgs) as [dr|] eqn:Er;
    cbn [bind] in Hd; [|discriminate].
  destruct (Discriminator_forward (D_of pd) fake_imgs) as [df|] eqn:Ef;
    cbn [bind] in Hd; [|discriminate].
  injection Hd as <-.
  pose proof (Discriminator_mean_score pd _ _ Hp Er) as Hr.
  pose proof (Discriminator_mean_score pd _ _ Hp Ef) as Hf.
  pose proof (compute_gradient_penalty_nonneg _ _ _ _ _ Egp) as Hgp.
  unfold lambda_gp.
  split; lra.
Qed.

(** ** Parameter vectors *)

Lemma firstn_plus (a b : nat) (l : vec) :
  firstn (a + b) l = firstn a l ++ firstn b (skipn a l).
Proof.
  revert l; induction a as [|a IH]; intros [|x l]; simpl; auto.
  - now rewrite firstn_nil.
  - now rewrite IH.
Qed.

Lemma concat_chunks (o i : nat) (theta : vec) :
  concat (chunks o i theta) = firstn (o * i) theta.
Proof.
  revert theta; induction o as [|o IH]; intros theta; simpl; auto.
  now rewrite IH, firstn_plus.
Qed.

Lemma chunks_wf (o i : nat) (theta : vec) :
  (o * i <= length theta)%nat -> wf_matrix o i (chunks o i theta).
Proof.
  revert theta; induction o as [|o IH]; intros theta H; simpl.
  - split; [reflexivity|constructor].
  - destruct (IH (skipn i theta)) as [Hl Hr].
    { rewrite length_skipn; simpl in H; lia. }
    split; [simpl; now rewrite Hl|].
    constructor; [|exact Hr].
    rewrite length_firstn; simpl in H; lia.
Qed.

Lemma chunks_concat (w : matrix) (i : nat) (rest : vec) :
  Forall (fun r => length r = i) w ->
  chunks (length w) i (concat w ++ rest) = w.
Proof.
  induction 1 as [|r w Hr _ IH]; simpl; auto.
  rewrite <- app_assoc.
  rewrite firstn_app, <- Hr, firstn_all, Nat.sub_diag, firstn_0, app_nil_r.
  rewrite skipn_app, skipn_all, Nat.sub_diag, skipn_0; simpl.
  now rewrite Hr, IH.
Qed.

Lemma concat_wf_length (o i : nat) (w : matrix) :
  wf_matrix o i w -> length (concat w) = (o * i)%nat.
Proof.
  intros [Hl Hr]; subst o.
  induction Hr as [|r w Hr0 _ IH]; simpl; auto.
  rewrite length_app, IH, Hr0; lia.
Qed.

Lemma parameters_length (m : Sequential) :
  Forall wf_layer m -> length (parameters m) = num_params m.
Proof.
  induction 1 as [|l m Hl _ IH]; simpl; auto.
  destruct l as [i o w b|c e mo w b| | |]; simpl in *; auto.
  - destruct Hl as [Hw Hb]; unfold wf_vec in Hb.
    rewrite !length_app, (concat_wf_length o i w Hw), Hb, IH; lia.
  - destruct Hl as [Hw Hb]; unfold wf_vec in *.
    rewrite !length_app, Hw, Hb, IH; lia.
Qed.

Lemma load_parameters_wf (m : Sequential) (theta : vec) :
  (num_params m <= length theta)%nat -> Forall wf_layer (load_parameters m theta).
Proof.
  revert theta; induction m as [|l m IH]; intros theta H; simpl; [constructor|].
  destruct l as [i o w b|c e mo w b| | |]; simpl in H; constructor; auto;
    try exact I; try (apply IH; rewrite length_skipn; lia).
  - split; [apply chunks_wf; lia|].
    unfold wf_vec; rewrite length_firstn, length_skipn; lia.
  - cbn [wf_layer]; unfold wf_vec; split; rewrite length_firstn, ?length_skipn; lia.
Qed.

Lemma num_params_load (m : Sequential) (theta : vec) :
  num_params (load_parameters m theta) = num_params m.
Proof.
  revert theta; induction m as [|l m IH]; intros theta; simpl; auto.
  destruct l; simpl; now rewrite IH.
Qed.

Lemma parameters_load (m : Sequential) (theta : vec) :
  (num_params m <= length theta)%nat ->
  parameters (load_parameters m theta) = firstn (num_params m) theta.
Proof.
  revert theta; induction m as [|l m IH]; intros theta H; simpl.
  - reflexivity.
  - destruct l as [i o w b|c e mo w b| | |]; cbn [num_params] in H;
      cbn [load_parameters parameters num_params]; auto.
    + rewrite IH by (rewrite length_skipn; lia).
      rewrite concat_chunks.
      rewrite (firstn_plus (o * i + o) (num_params m)).
      rewrite (firstn_plus (o * i) o). now rewrite <- app_assoc.
    + rewrite IH by (rewrite length_skipn; lia).
      rewrite (firstn_plus (c + c) (num_params m)).
      rewrite (firstn_plus c c). now rewrite <- app_assoc.
Qed.

Lemma firstn_app_exact (n : nat) (a b : vec) :
  length a = n -> firstn n (a ++ b) = a.
Proof.
  intros <-. now rewrite firstn_app, firstn_all, Nat.sub_diag, firstn_0, app_nil_r.
Qed.

Lemma skipn_app_exact (n : nat) (a b : vec) :
  length a = n -> skipn n (a ++ b) = b.
Proof.
  intros <-. now rewrite skipn_app, skipn_all, Nat.sub_diag, skipn_0.
Qed.

Lemma load_parameters_own (m : Sequential) (rest : vec) :
  Forall wf_layer m -> load_parameters m (parameters m ++ rest) = m.
Proof.
  intros H; revert rest; induction H as [|l m Hl _ IH]; intros rest;
    cbn [parameters load_parameters]; auto.
  destruct l as [i o w b|c e mo w b| | |]; cbn [wf_layer] in Hl;
    try (now rewrite IH).
  - destruct Hl as [[Hwl Hwr] Hb]; unfold wf_vec in Hb.
    assert (Hc : length (concat w) = (o * i)%nat)
      by (apply concat_wf_length; split; auto).
    rewrite <- !app_assoc.
    rewrite <- Hwl at 2. rewrite chunks_concat by auto.
    rewrite (skipn_app_exact (o * i) (concat w)) by exact Hc.
    rewrite (firstn_app_exact o b) by exact Hb.
    rewrite (app_assoc (concat w) b).
    rewrite (skipn_app_exact (o * i + o) (concat w ++ b))
      by (rewrite length_app; lia).
    now rewrite IH.
  - destruct Hl as [Hw Hb]; unfold wf_vec in *.
    rewrite <- !app_assoc.
    rewrite (firstn_app_exact c w) by exact Hw.
    rewrite (skipn_app_exact c w) by exact Hw.
    rewrite (firstn_app_exact c b) by exact Hb.
    rewrite (app_assoc w b).
    rewrite (skipn_app_exact (c + c) (w ++ b)) by (rewrite length_app; lia).
    now rewrite IH.
Qed.

(** X8.  Reading and writing parameters are inverse to each other.  For
    layers whose tensors have their declared shapes, writing the parameter
    vector back leaves the layers as they are, and after writing any vector
    with one entry per parameter, the parameter vector read is the one
    written and the tensors have their declared shapes again. *)
Theorem parameters_round_trip (m : Sequential) (theta : vec) :
  Forall wf_layer m -> length theta = length (parameters m) ->
  load_parameters m (parameters m) = m /\
  parameters (load_parameters m theta) = theta /\
  Forall wf_layer (load_parameters m theta).
Proof.
  intros Hm Hl.
  rewrite (parameters_length m Hm) in Hl.
  split; [|split].
  - rewrite <- (app_nil_r (parameters m)). now apply load_parameters_own.
  - rewrite parameters_load by lia. apply firstn_all2; lia.
  - apply load_parameters_wf; lia.
Qed.

Lemma parameters_round_trip_witness :
  let m := [Linear 2 1 [[1; 2]] [3]; LeakyReLU 0.2;
            BatchNorm1d 1 0.8 0.1 [4] [5]] in
  Forall wf_layer m /\
  length [6; 7; 8; 9; 10] = length (parameters m) /\
  parameters (load_parameters m [6; 7; 8; 9; 10]) = [6; 7; 8; 9; 10].
Proof.
  cbv zeta.
  assert (Hm : Forall wf_layer [Linear 2 1 [[1; 2]] [3]; LeakyReLU 0.2;
                                BatchNorm1d 1 0.8 0.1 [4] [5]]).
  { repeat apply Forall_cons; try apply Forall_nil; cbn [wf_layer];
      unfold wf_matrix, wf_vec; auto. }
  split; [exact Hm|]. split; [reflexivity|].
  apply (parameters_round_trip _ [6; 7; 8; 9; 10] Hm eq_refl).
Defined.

(** ** Shapes that training keeps *)

Lemma G_params_count (p : Generator_init) :
  Z.of_nat (num_params (G_model (G_of p))) = 1510032%Z.
Proof.
  unfold G_of, Generator__init__, block, z_dim, mnist_dim.
  cbn [G_model app num_params]. lia.
Qed.

Lemma D_params_count (p : Discriminator_init) :
  Z.of_nat (num_params (D_model (D_of p))) = 533505%Z.
Proof.
  unfold D_of, Discriminator__init__, mnist_dim.
  cbn [D_model num_params]. lia.
Qed.

Lemma Adam_step_lengths (o : Adam) (p g : vec) (n : nat) :
  length p = n -> length g = n -> optimizer_ok o n ->
  length (fst (Adam_step o p (Some g))) = n /\
  optimizer_ok (snd (Adam_step o p (Some g))) n.
Proof.
  intros Hp Hg [Hm Hv]; unfold optimizer_ok; cbn [Adam_step fst snd exp_avg exp_avg_sq].
  rewrite !map2_length, length_combine, !map2_length, Hp, Hg, Hm, Hv.
  repeat split; lia.
Qed.

Lemma accumulate_zero_ok (g0 : option vec) (g : vec) (n : nat) :
  grad_ok g0 n -> length g = n ->
  exists g', accumulate (zero_grad g0) g = Some g' /\ length g' = n.
Proof.
  intros H0 Hg; destruct g0 as [v|]; cbn [zero_grad option_map accumulate].
  - eexists; split; [reflexivity|].
    simpl in H0. rewrite map2_length, length_map, H0, Hg; apply Nat.min_id.
  - eexists; split; [reflexivity|exact Hg].
Qed.

Lemma accumulate_ok (g0 : option vec) (g : vec) (n : nat) :
  grad_ok g0 n -> length g = n -> grad_ok (accumulate g0 g) n.
Proof.
  intros H0 Hg; destruct g0 as [v|]; cbn [accumulate grad_ok]; auto.
  simpl in H0. rewrite map2_length, H0, Hg; apply Nat.min_id.
Qed.

Lemma wf_G_model (pg : Generator_init) :
  wf_Generator_init z_dim mnist_dim pg -> Forall wf_layer (G_model (G_of pg)).
Proof.
  intros [A [B [C [E [F [H [I J]]]]]]].
  unfold G_of, Generator__init__, block; cbn [G_model app].
  repeat (apply Forall_cons; [cbn [wf_layer]; solve [assumption | exact Logic.I]|]).
  apply Forall_nil.
Qed.

Lemma wf_D_model (pd : Discriminator_init) :
  wf_Discriminator_init mnist_dim pd -> Forall wf_layer (D_model (D_of pd)).
Proof.
  intros [A [B C]].
  unfold D_of, Discriminator__init__; cbn [D_model].
  repeat (apply Forall_cons; [cbn [wf_layer]; solve [assumption | exact Logic.I]|]).
  apply Forall_nil.
Qed.

Lemma shapes_init (pg : Generator_init) (pd : Discriminator_init) :
  wf_Generator_init z_dim mnist_dim pg -> wf_Discriminator_init mnist_dim pd ->
  shapes_ok (init_state pg pd).
Proof.
  intros Hg Hd.
  pose proof (wf_G_model pg Hg) as WG. pose proof (wf_D_model pd Hd) as WD.
  unfold shapes_ok, init_state, optimizer_ok, Adam__init__;
    cbn [G D G_grad D_grad optimizer_G optimizer_D exp_avg exp_avg_sq grad_ok].
  fold (G_of pg) (D_of pd).
  rewrite !length_map, !parameters_length by assumption.
  repeat split; auto.
Qed.

Section ShapeFacts.

Variable ag : (vec -> option R) -> vec -> vec.
Hypothesis Hag : engine_ok ag.

Lemma critic_phase_shapes (s : state) (b : batch) (s' : state) (l : R) :
  shapes_ok s -> train_discriminator ag s b = Some (s', l) ->
  shapes_ok s' /\
  num_params (G_model (G s')) = num_params (G_model (G s)) /\
  num_params (D_model (D s')) = num_params (D_model (D s)) /\
  exists g,
    length g = length (parameters (D_model (D s))) /\
    D_grad s' = Some g /\
    parameters (D_model (D s')) =
      fst (Adam_step (optimizer_D s) (parameters (D_model (D s))) (Some g)).
Proof.
  intros [WG [WD [GG [GD [OG OD]]]]] H.
  apply critic_phase_effect in H.
  destruct H as [fake [_ [_ [HG [Hgg [HoG [Hdg [HD [HoD _]]]]]]]]].
  pose proof (parameters_length _ WD) as LD.
  destruct (accumulate_zero_ok (D_grad s)
              (ag (d_loss_of_D (D s) b fake) (parameters (D_model (D s))))
              (num_params (D_model (D s))) GD) as [g [Eg Lg]].
  { now rewrite Hag. }
  rewrite Eg in Hdg. rewrite Hdg in HD, HoD.
  destruct (Adam_step_lengths (optimizer_D s) (parameters (D_model (D s))) g
              (num_params (D_model (D s))) LD Lg OD) as [Lt Ot].
  assert (ND : num_params (D_model (D s')) = num_params (D_model (D s))).
  { rewrite HD; unfold D_with; cbn [D_model]. apply num_params_load. }
  assert (PD : parameters (D_model (D s')) =
               fst (Adam_step (optimizer_D s) (parameters (D_model (D s))) (Some g))).
  { rewrite HD; unfold D_with; cbn [D_model].
    rewrite parameters_load by lia. apply firstn_all2; lia. }
  split; [|split; [now rewrite HG|split; [exact ND|]]].
  - unfold shapes_ok. rewrite HG, Hgg, HoG, Hdg, HoD, ND.
    repeat split; auto; try apply OG.
    + rewrite HD; unfold D_with; cbn [D_model]. apply load_parameters_wf; lia.
    + apply Ot.
    + apply Ot.
  - exists g; repeat split; auto. now rewrite LD.
Qed.

Lemma generator_phase_shapes (s : state) (b : batch) (s' : state) (l : R) :
  shapes_ok s -> train_generator ag s b = Some (s', l) ->
  shapes_ok s' /\
  num_params (G_model (G s')) = num_params (G_model (G s)) /\
  num_params (D_model (D s')) = num_params (D_model (D s)) /\
  exists g,
    length g = length (parameters (G_model (G s))) /\
    G_grad s' = Some g /\
    parameters (G_model (G s')) =
      fst (Adam_step (optimizer_G s) (parameters (G_model (G s))) (Some g)).
Proof.
  intros [WG [WD [GG [GD [OG OD]]]]] H.
  apply generator_phase_effect in H.
  destruct H as [gen [v [_ [_ [_ [HD [HoD [Hdg [Hgg [HG [HoG _]]]]]]]]]]].
  pose proof (parameters_length _ WG) as LG.
  pose proof (parameters_length _ WD) as LD.
  destruct (accumulate_zero_ok (G_grad s)
              (ag (g_loss_of_G (G s) (D s) b) (parameters (G_model (G s))))
              (num_params (G_model (G s))) GG) as [g [Eg Lg]].
  { now rewrite Hag. }
  rewrite Eg in Hgg. rewrite Hgg in HG, HoG.
  destruct (Adam_step_lengths (optimizer_G s) (parameters (G_model (G s))) g
              (num_params (G_model (G s))) LG Lg OG) as [Lt Ot].
  assert (NG : num_params (G_model (G s')) = num_params (G_model (G s))).
  { rewrite HG; unfold G_with; cbn [G_model]. apply num_params_load. }
  assert (PG : parameters (G_model (G s')) =
               fst (Adam_step (optimizer_G s) (parameters (G_model (G s))) (Some g))).
  { rewrite HG; unfold G_with; cbn [G_model].
    rewrite parameters_load by lia. apply firstn_all2; lia. }
  split; [|split; [exact NG|split; [now rewrite HD|]]].
  - unfold shapes_ok. rewrite HD, Hgg, HoD, Hdg, HoG, NG.
    repeat split; auto; try apply OD.
    + rewrite HG; unfold G_with; cbn [G_model]. apply load_parameters_wf; lia.
    + apply accumulate_ok; auto. now rewrite Hag.
    + apply Ot.
    + apply Ot.
  - exists g; repeat split; auto. now rewrite LG.
Qed.

Lemma record_losses_shapes (s : state) (a b : R) :
  shapes_ok s -> shapes_ok (record_losses s a b).
Proof. intros H; exact H. Qed.

Lemma train_batch_shapes (s : state) (i : nat) (b : batch) (s' : state) :
  shapes_ok s -> train_batch ag s i b = Some s' ->
  shapes_ok s' /\
  num_params (G_model (G s')) = num_params (G_model (G s)) /\
  num_params (D_model (D s')) = num_params (D_model (D s)).
Proof.
  intros Hs H; apply train_batch_inv in H.
  destruct H as [s1 [d_loss [H1 H]]].
  destruct (critic_phase_shapes s b s1 d_loss Hs H1) as [S1 [NG1 [ND1 _]]].
  destruct H as [[Hi [s2 [g_loss [H2 ->]]]] | [Hi ->]]; [|auto].
  destruct (generator_phase_shapes s1 b s2 g_loss S1 H2) as [S2 [NG2 [ND2 _]]].
  split; [exact S2|]. cbn [record_losses G D]. split; congruence.
Qed.

Lemma train_batches_shapes (loader : list batch) (s : state) (i : nat) (s' : state) :
  shapes_ok s -> train_batches ag s i loader = Some s' ->
  shapes_ok s' /\
  num_params (G_model (G s')) = num_params (G_model (G s)) /\
  num_params (D_model (D s')) = num_params (D_model (D s)).
Proof.
  revert s i; induction loader as [|b loader IH]; intros s i Hs; cbn [train_batches].
  - intros H; injection H as <-; auto.
  - destruct (train_batch ag s i b) as [s1|] eqn:E; cbn [bind]; [|discriminate].
    intros H.
    destruct (train_batch_shapes s i b s1 Hs E) as [S1 [A B]].
    destruct (IH s1 (S i) S1 H) as [S2 [A2 B2]].
    split; [exact S2|split; congruence].
Qed.

Lemma train_shapes (loaders : list (list batch)) (s s' : state) :
  shapes_ok s -> train ag s loaders = Some s' ->
  shapes_ok s' /\
  num_params (G_model (G s')) = num_params (G_model (G s)) /\
  num_params (D_model (D s')) = num_params (D_model (D s)).
Proof.
  revert s; induction loaders as [|l loaders IH]; intros s Hs; cbn [train].
  - intros H; injection H as <-; auto.
  - unfold train_epoch.
    destruct (train_batches ag s 0 l) as [s1|] eqn:E; cbn [bind]; [|discriminate].
    intros H.
    destruct (train_batches_shapes l s 0 s1 Hs E) as [S1 [A B]].
    destruct (IH s1 S1 H) as [S2 [A2 B2]].
    split; [exact S2|split; congruence].
Qed.

End ShapeFacts.

(** X9.  Training keeps every shape.  With an engine that returns one
    partial derivative per parameter and well-formed initial parameters,
    every state that training reaches holds parameter tensors of the
    declared shapes, gradients and Adam moments with one entry per
    parameter, and still 1 510 032 generator parameters and 533 505
    discriminator parameters. *)
Theorem training_keeps_shapes (ag : (vec -> option R) -> vec -> vec)
    (pg : Generator_init) (pd : Discriminator_init)
    (loaders : list (list batch)) (s : state) :
  engine_ok ag ->
  wf_Generator_init z_dim mnist_dim pg -> wf_Discriminator_init mnist_dim pd ->
  train ag (init_state pg pd) loaders = Some s ->
  shapes_ok s /\
  Z.of_nat (length (parameters (G_model (G s)))) = 1510032%Z /\
  Z.of_nat (length (parameters (D_model (D s)))) = 533505%Z.
Proof.
  intros Hag Hg Hd H.
  destruct (train_shapes ag Hag loaders _ _ (shapes_init pg pd Hg Hd) H)
    as [Hs [NG ND]].
  split; [exact Hs|].
  destruct Hs as [WG [WD _]].
  rewrite !parameters_length, NG, ND by assumption.
  split; [apply (G_params_count pg) | apply (D_params_count pd)].
Qed.

(** ** Counting updates *)

Section RunFacts.

Variable ag : (vec -> option R) -> vec -> vec.

Lemma train_steps (loaders : list (list batch)) (s s' : state) :
  train ag s loaders = Some s' ->
  state_step (optimizer_D s') = (state_step (optimizer_D s) + total_batches loaders)%nat /\
  state_step (optimizer_G s') =
    (state_step (optimizer_G s) + total_generator_turns loaders)%nat.
Proof.
  revert s; induction loaders as [|l loaders IH]; intros s;
    cbn [train total_batches total_generator_turns].
  - intros H; injection H as <-; lia.
  - unfold train_epoch.
    destruct (train_batches ag s 0 l) as [s1|] eqn:E; cbn [bind]; [|discriminate].
    intros H; apply IH in H; destruct H as [HD HG].
    apply train_batches_steps in E; destruct E as [ED EG].
    rewrite generator_turns_from_0 in EG.
    rewrite HD, HG, ED, EG; lia.
Qed.

Lemma train_batch_histories (s : state) (i : nat) (b : batch) (s' : state) :
  train_batch ag s i b = Some s' ->
  length (list_loss_D s') = (length (list_loss_D s) + generator_turn i)%nat /\
  length (list_loss_G s') = (length (list_loss_G s) + generator_turn i)%nat.
Proof.
  intros H; apply train_batch_inv in H.
  destruct H as [s1 [d_loss [H1 H]]].
  apply critic_phase_effect in H1.
  destruct H1 as [_ [_ [_ [_ [_ [_ [_ [_ [_ [A B]]]]]]]]]].
  unfold generator_turn.
  destruct H as [[Hi [s2 [g_loss [H2 ->]]]] | [Hi ->]].
  - apply generator_phase_effect in H2.
    destruct H2 as [_ [_ [_ [_ [_ [_ [_ [_ [_ [_ [_ [C E]]]]]]]]]]]].
    apply Nat.eqb_eq in Hi; rewrite Hi.
    cbn [record_losses list_loss_D list_loss_G].
    rewrite !length_app, C, E, A, B; simpl; lia.
  - apply Nat.eqb_neq in Hi; rewrite Hi, A, B; lia.
Qed.

Lemma train_batches_histories (loader : list batch) (s : state) (i : nat) (s' : state) :
  train_batches ag s i loader = Some s' ->
  length (list_loss_D s') =
    (length (list_loss_D s) + generator_turns i (length loader))%nat /\
  length (list_loss_G s') =
    (length (list_loss_G s) + generator_turns i (length loader))%nat.
Proof.
  revert s i; induction loader as [|b loader IH]; intros s i; simpl.
  - intros H; injection H as <-; lia.
  - destruct (train_batch ag s i b) as [s1|] eqn:E; cbn [bind]; [|discriminate].
    intros H; apply IH in H; destruct H as [HD HG].
    apply train_batch_histories in E; destruct E as [ED EG].
    rewrite HD, HG, ED, EG; lia.
Qed.

Lemma train_histories (loaders : list (list batch)) (s s' : state) :
  train ag s loaders = Some s' ->
  length (list_loss_D s') = (length (list_loss_D s) + total_generator_turns loaders)%nat /\
  length (list_loss_G s') = (length (list_loss_G s) + total_generator_turns loaders)%nat.
Proof.
  revert s; induction loaders as [|l loaders IH]; intros s;
    cbn [train total_batches total_generator_turns].
  - intros H; injection H as <-; lia.
  - unfold train_epoch.
    destruct (train_batches ag s 0 l) as [s1|] eqn:E; cbn [bind]; [|discriminate].
    intros H; apply IH in H; destruct H as [HD HG].
    apply train_batches_histories in E; destruct E as [ED EG].
    rewrite generator_turns_from_0 in ED, EG.
    rewrite HD, HG, ED, EG; lia.
Qed.

End RunFacts.

(** X10.  Over a whole run the critic is updated once per batch and the
    generator ceil(k / 5) times in every epoch of k batches: when every
    epoch has the same number k of batches, e epochs make e * k critic
    updates and e * ceil(k / 5) generator updates. *)
Theorem run_update_counts (ag : (vec -> option R) -> vec -> vec)
    (loaders : list (list batch)) (k : nat) (s s' : state) :
  Forall (fun l => length l = k) loaders ->
  train ag s loaders = Some s' ->
  state_step (optimizer_D s') =
    (state_step (optimizer_D s) + length loaders * k)%nat /\
  state_step (optimizer_G s') =
    (state_step (optimizer_G s) + length loaders * ((k + 4) / 5))%nat.
Proof.
  intros Hk H; apply train_steps in H; destruct H as [HD HG].
  rewrite HD, HG; clear HD HG.
  induction Hk as [|l loaders Hl _ IH];
    cbn [total_batches total_generator_turns length]; [lia|].
  rewrite Hl; lia.
Qed.

(** X11.  In every state that training reaches from the initial one, the two
    loss histories have the same length, the number of generator updates
    made so far: the critic loss of a batch without generator update is
    never recorded. *)
Theorem loss_histories_count_generator_updates
    (ag : (vec -> option R) -> vec -> vec)
    (pg : Generator_init) (pd : Discriminator_init)
    (loaders : list (list batch)) (s : state) :
  train ag (init_state pg pd) loaders = Some s ->
  length (list_loss_D s) = state_step (optimizer_G s) /\
  length (list_loss_G s) = state_step (optimizer_G s) /\
  (state_step (optimizer_G s) <= state_step (optimizer_D s))%nat.
Proof.
  intros H.
  pose proof (train_steps ag _ _ _ H) as [HD HG].
  pose proof (train_histories ag _ _ _ H) as [LD LG].
  rewrite LD, LG, HG, HD; cbn.
  repeat split; try lia.
  clear; induction loaders as [|l loaders IH];
    cbn [total_batches total_generator_turns]; [lia|].
  assert ((length l + 4) / 5 <= length l)%nat; [|lia].
  destruct (length l) as [|n]; [reflexivity|].
  apply Nat.Div0.div_le_upper_bound; lia.
Qed.

(** *** Gradients do not leak from one phase into the next *)

Lemma zero_plus (g0 g : vec) :
  length g0 = length g -> map2 Rplus (map (fun _ => 0) g0) g = g.
Proof.
  revert g; induction g0 as [|a g0 IH]; intros [|b g] H; simpl in *;
    try discriminate; auto.
  rewrite IH by lia. f_equal; lra.
Qed.

(** X12.  After the critic phase, the gradient stored for the discriminator
    is the gradient of the critic loss of this batch alone: whatever the
    generator phase of an earlier batch left there (the gradient of the
    generator loss with respect to the discriminator) has been zeroed. *)
Theorem critic_gradient_is_fresh (ag : (vec -> option R) -> vec -> vec)
    (s : state) (b : batch) (s' : state) (d_loss : R) :
  engine_ok ag -> shapes_ok s ->
  train_discriminator ag s b = Some (s', d_loss) ->
  exists fake_imgs,
    Generator_forward (G s) (latent b) = Some fake_imgs /\
    D_grad s' =
      Some (ag (d_loss_of_D (D s) b fake_imgs) (parameters (D_model (D s)))).
Proof.
  intros Hag [_ [WD [_ [GD _]]]] H; apply critic_phase_effect in H.
  destruct H as [fake [HG [_ [_ [_ [_ [Hg _]]]]]]].
  exists fake; split; [exact HG|]. rewrite Hg.
  destruct (D_grad s) as [g0|] eqn:E; cbn [zero_grad option_map accumulate].
  - f_equal; apply zero_plus. cbn [grad_ok] in GD.
    now rewrite Hag, GD, parameters_length.
  - reflexivity.
Qed.

(** ** The initial state *)

Lemma init_state_G (pg : Generator_init) (pd : Discriminator_init) :
  G (init_state pg pd) = G_of pg.
Proof. reflexivity. Qed.

Lemma init_state_D (pg : Generator_init) (pd : Discriminator_init) :
  D (init_state pg pd) = D_of pd.
Proof. reflexivity. Qed.

Lemma init_state_optimizer_G (pg : Generator_init) (pd : Discriminator_init) :
  optimizer_G (init_state pg pd)
  = Adam__init__ (parameters (G_model (G_of pg))) lr (b1, b2).
Proof. reflexivity. Qed.

Lemma init_state_optimizer_D (pg : Generator_init) (pd : Discriminator_init) :
  optimizer_D (init_state pg pd)
  = Adam__init__ (parameters (D_model (D_of pd))) lr (b1, b2).
Proof. reflexivity. Qed.

Lemma optimizer_ok_init (theta : vec) (lr0 : R) (betas : R * R) :
  optimizer_ok (Adam__init__ theta lr0 betas) (length theta).
Proof.
  unfold optimizer_ok, Adam__init__; cbn [exp_avg exp_avg_sq].
  rewrite !length_map; split; reflexivity.
Qed.

(** ** Printing and saving *)



Lemma print_index_is_generator_turn (i : nat) :
  (i mod 300 = 0 -> i mod n_critic = 0)%nat.
Proof.
  intros H. apply Nat.Div0.mod_divides in H; destruct H as [c ->].
  apply Nat.Div0.mod_divides. exists (60 * c)%nat. unfold n_critic. lia.
Qed.

Lemma Generator_forward_dims (g : Generator) (z t : tensor) :
  Generator_forward g z = Some t -> dims t = [1; 28; 28]%nat.
Proof.
  unfold Generator_forward.
  destruct (forward_seq (G_model g) z) as [image|]; cbn [bind]; [|discriminate].
  unfold view0.
  destruct (_ =? _)%nat; [|discriminate].
  intros H; injection H as <-. reflexivity.
Qed.

Lemma view0_id (t : tensor) :
  dims t = [1; 28; 28]%nat -> view0 [1; 28; 28]%nat t = Some t.
Proof.
  destruct t as [d x]; cbn [dims]; intros ->.
  apply view0_same_numel; reflexivity.
Qed.

Section LoggingFacts.

Variable ag : (vec -> option R) -> vec -> vec.

Lemma generator_phase_forward (s : state) (b : batch) (s' : state) (l : R) :
  train_generator ag s b = Some (s', l) ->
  exists gen_imgs, Generator_forward (G s) (latent b) = Some gen_imgs.
Proof.
  intros H; apply generator_phase_effect in H.
  destruct H as [gen [v [H _]]]. eauto.
Qed.

(** The loop body in terms of the two phases. *)
Lemma log_batch_inv (e len : nat) (r : session) (i : nat) (b : batch) (r' : session) :
  log_batch ag e len r i b = Some r' ->
  exists s1 d_loss,
    train_discriminator ag (st r) b = Some (s1, d_loss) /\
    ( ((i mod n_critic)%nat = 0%nat /\
       exists s2 g_loss gen_imgs,
         Generator_forward (G s1) (latent b) = Some gen_imgs /\
         train_generator ag s1 b = Some (s2, g_loss) /\
         st r' = record_losses s2 d_loss g_loss /\
         bound r' = mk_names (Some g_loss) (Some gen_imgs) /\
         out r' = if (i mod 300 =? 0)%nat
                  then out r ++ [Printed e epochs i len d_loss g_loss]
                  else out r)
      \/ ((i mod n_critic)%nat <> 0%nat /\
          st r' = s1 /\ bound r' = bound r /\ out r' = out r) ).
Proof.
  unfold log_batch.
  destruct (train_discriminator ag (st r) b) as [[s1 d_loss]|] eqn:E1;
    cbn [bind fst snd]; [|discriminate].
  intros H; exists s1, d_loss; split; [reflexivity|].
  destruct (i mod n_critic =? 0)%nat eqn:E.
  - apply Nat.eqb_eq in E. left; split; [exact E|].
    destruct (Generator_forward (G s1) (latent b)) as [gen|] eqn:EG;
      cbn [bind] in H; [|discriminate].
    destruct (train_generator ag s1 b) as [[s2 g_loss]|] eqn:E2;
      cbn [bind fst snd] in H; [|discriminate].
    exists s2, g_loss, gen.
    destruct (i mod 300 =? 0)%nat; cbn [bind bound g_loss_name st out] in H;
      injection H as <-; cbn [st bound out]; auto 10.
  - apply Nat.eqb_neq in E. right; split; [exact E|].
    cbn [bind] in H.
    destruct (i mod 300 =? 0)%nat eqn:E3.
    + apply Nat.eqb_eq, print_index_is_generator_turn in E3. contradiction.
    + injection H as <-; cbn [st bound out]; auto.
Qed.

Lemma log_batch_state (e len : nat) (r : session) (i : nat) (b : batch) (r' : session) :
  log_batch ag e len r i b = Some r' -> train_batch ag (st r) i b = Some (st r').
Proof.
  intros H; apply log_batch_inv in H.
  destruct H as [s1 [d [H1 H]]].
  unfold train_batch; rewrite H1; cbn [bind fst snd].
  destruct H as [[Hi [s2 [g [gen [_ [H2 [Hs _]]]]]]] | [Hi [Hs _]]].
  - apply Nat.eqb_eq in Hi; rewrite Hi, H2; cbn [bind fst snd]. now rewrite Hs.
  - apply Nat.eqb_neq in Hi; rewrite Hi. now rewrite Hs.
Qed.

Lemma log_batches_state (e len : nat) (loader : list batch) (r : session) (i : nat)
    (r' : session) :
  log_batches ag e len r i loader = Some r' ->
  train_batches ag (st r) i loader = Some (st r').
Proof.
  revert r i; induction loader as [|b loader IH]; intros r i; cbn [log_batches train_batches].
  - intros H; injection H as <-; reflexivity.
  - destruct (log_batch ag e len r i b) as [r1|] eqn:E; cbn [bind]; [|discriminate].
    intros H. rewrite (log_batch_state _ _ _ _ _ _ E); cbn [bind]. now apply IH.
Qed.

Lemma log_epoch_state (e : nat) (r : session) (loader : list batch) (r' : session) :
  log_epoch ag e r loader = Some r' ->
  train_epoch ag (st r) loader = Some (st r').
Proof.
  unfold log_epoch, train_epoch.
  destruct (log_batches ag e (length loader) r 0 loader) as [r1|] eqn:E;
    cbn [bind]; [|discriminate].
  apply log_batches_state in E. rewrite E.
  destruct (e mod 5 =? 0)%nat.
  - destruct (gen_imgs_name (bound r1)) as [gen|]; cbn [bind]; [|discriminate].
    destruct (view0 _ gen); cbn [bind]; [|discriminate].
    intros H; injection H as <-; reflexivity.
  - intros H; injection H as <-; reflexivity.
Qed.

Lemma log_epochs_state (loaders : list (list batch)) (e : nat) (r r' : session) :
  log_epochs ag e r loaders = Some r' -> train ag (st r) loaders = Some (st r').
Proof.
  revert e r; induction loaders as [|l loaders IH]; intros e r; cbn [log_epochs train].
  - intros H; injection H as <-; reflexivity.
  - destruct (log_epoch ag e r l) as [r1|] eqn:E; cbn [bind]; [|discriminate].
    intros H. rewrite (log_epoch_state _ _ _ _ E); cbn [bind]. now apply (IH (S e)).
Qed.

(** Where training succeeds, the batch with its [print] succeeds. *)
Lemma log_batch_total (e len : nat) (r : session) (i : nat) (b : batch) (s' : state) :
  train_batch ag (st r) i b = Some s' ->
  exists r',
    log_batch ag e len r i b = Some r' /\ st r' = s' /\
    (names_bound r \/ (i mod n_critic)%nat = 0%nat -> names_bound r').
Proof.
  intros H; apply train_batch_inv in H.
  destruct H as [s1 [d [H1 H]]].
  unfold log_batch; rewrite H1; cbn [bind fst snd].
  destruct H as [[Hi [s2 [g [H2 ->]]]] | [Hi ->]].
  - destruct (generator_phase_forward _ _ _ _ H2) as [gen Hgen].
    pose proof (Generator_forward_dims _ _ _ Hgen) as Hd.
    apply Nat.eqb_eq in Hi; rewrite Hi, Hgen, H2; cbn [bind fst snd bound g_loss_name].
    destruct (i mod 300 =? 0)%nat; cbn [bind]; eexists; (split; [reflexivity|]);
      cbn [st]; (split; [reflexivity|]); intros _; exists g, gen; auto.
  - pose proof Hi as Hi'. apply Nat.eqb_neq in Hi; rewrite Hi; cbn [bind].
    destruct (i mod 300 =? 0)%nat eqn:E3.
    + apply Nat.eqb_eq, print_index_is_generator_turn in E3. contradiction.
    + eexists; split; [reflexivity|]. cbn [st]; split; [reflexivity|].
      intros [Hb|Hb]; [exact Hb|contradiction].
Qed.

Lemma log_batches_total (e len : nat) (loader : list batch) (r : session) (i : nat)
    (s' : state) :
  train_batches ag (st r) i loader = Some s' ->
  exists r',
    log_batches ag e len r i loader = Some r' /\ st r' = s' /\
    (names_bound r \/ (loader <> [] /\ (i mod n_critic)%nat = 0%nat) -> names_bound r').
Proof.
  revert r i; induction loader as [|b loader IH]; intros r i; cbn [log_batches train_batches].
  - intros H; injection H as <-. exists r; repeat split; auto.
    intros [Hb|[Hb _]]; [exact Hb|congruence].
  - destruct (train_batch ag (st r) i b) as [s1|] eqn:E; cbn [bind]; [|discriminate].
    intros H.
    destruct (log_batch_total e len r i b s1 E) as [r1 [E1 [<- Hn1]]].
    rewrite E1; cbn [bind].
    destruct (IH r1 (S i) H) as [r' [E' [Hs Hn]]].
    exists r'; split; [exact E'|split; [exact Hs|]].
    intros Hb; apply Hn; left; apply Hn1.
    destruct Hb as [Hb|[_ Hb]]; auto.
Qed.

Lemma log_epoch_total (e : nat) (r : session) (loader : list batch) (s' : state) :
  names_bound r \/ loader <> [] ->
  train_epoch ag (st r) loader = Some s' ->
  exists r', log_epoch ag e r loader = Some r' /\ st r' = s' /\ names_bound r'.
Proof.
  intros Hl H; unfold train_epoch in H.
  destruct (log_batches_total e (length loader) loader r 0 s' H) as [r1 [E [Hs Hn]]].
  assert (Hb : names_bound r1).
  { apply Hn. destruct Hl as [Hl|Hl]; [left; exact Hl|right; split; [exact Hl|reflexivity]]. }
  unfold log_epoch; rewrite E; cbn [bind].
  destruct (e mod 5 =? 0)%nat; [|eauto].
  destruct Hb as [g [t [Hb Hd]]].
  rewrite Hb; cbn [gen_imgs_name bind]. rewrite (view0_id t Hd); cbn [bind].
  eexists; split; [reflexivity|]. cbn [st bound]. split; [exact Hs|].
  exists g, t; auto.
Qed.

Lemma log_epochs_total (loaders : list (list batch)) (e : nat) (r : session)
    (s' : state) :
  names_bound r ->
  train ag (st r) loaders = Some s' ->
  exists r', log_epochs ag e r loaders = Some r' /\ st r' = s'.
Proof.
  revert e r; induction loaders as [|l loaders IH]; intros e r Hb; cbn [log_epochs train].
  - intros H; injection H as <-; eauto.
  - destruct (train_epoch ag (st r) l) as [s1|] eqn:E; cbn [bind]; [|discriminate].
    intros H.
    destruct (log_epoch_total e r l s1 (or_introl Hb) E) as [r1 [E1 [<- Hb1]]].
    rewrite E1; cbn [bind]. now apply IH.
Qed.

End LoggingFacts.

(** X15.  Printing and saving fail only without a first batch.  Whenever
    the training steps of a run succeed, the loop with its [print] and
    [save_image] calls succeeds too and reaches the same networks,
    optimizers and loss histories, provided the first epoch has a batch:
    the names [g_loss] and [gen_imgs] are then bound whenever they are read
    (300 is a multiple of [n_critic], and batch 0 is a generator turn).
    With an empty first loader the first [save_image] reads the unbound
    name [gen_imgs]. *)
Theorem outputs_fail_only_without_a_first_batch
    (ag : (vec -> option R) -> vec -> vec)
    (pg : Generator_init) (pd : Discriminator_init)
    (loader : list batch) (loaders : list (list batch)) (s' : state) :
  train ag (init_state pg pd) (loader :: loaders) = Some s' ->
  (loader <> [] ->
   exists r', log_epochs ag 0 (new_session pg pd) (loader :: loaders) = Some r' /\
              st r' = s') /\
  (loader = [] ->
   log_epochs ag 0 (new_session pg pd) (loader :: loaders) = None).
Proof.
  intros H; split.
  - intros Hl. cbn [train] in H.
    destruct (train_epoch ag (init_state pg pd) loader) as [s1|] eqn:E;
      cbn [bind] in H; [|discriminate].
    destruct (log_epoch_total ag 0 (new_session pg pd) loader s1 (or_intror Hl) E)
      as [r1 [E1 [Hs Hb]]].
    cbn [log_epochs]; rewrite E1; cbn [bind].
    apply log_epochs_total; [exact Hb|now rewrite Hs].
  - intros ->. reflexivity.
Qed.

(** X16.  What a printed line reports.  At a batch index [i] that is a
    multiple of 300 exactly one line is printed, and its two losses are the
    critic loss and the generator loss computed on this very batch, the
    generator loss against the critic as just updated; at every other index
    nothing is printed. *)
Theorem printed_losses_are_of_the_batch (ag : (vec -> option R) -> vec -> vec)
    (e len : nat) (r : session) (i : nat) (b : batch) (r' : session) :
  log_batch ag e len r i b = Some r' ->
  ((i mod 300)%nat = 0%nat ->
   exists s1 d_loss s2 g_loss,
     train_discriminator ag (st r) b = Some (s1, d_loss) /\
     train_generator ag s1 b = Some (s2, g_loss) /\
     generator_loss (G (st r)) (D s1) (latent b) = Some g_loss /\
     out r' = out r ++ [Printed e 200 i len d_loss g_loss]) /\
  ((i mod 300)%nat <> 0%nat -> out r' = out r).
Proof.
  intros H; apply log_batch_inv in H.
  destruct H as [s1 [d [H1 H]]].
  split.
  - intros Hi.
    pose proof (print_index_is_generator_turn i Hi) as Hc.
    destruct H as [[_ [s2 [g [gen [Hgen [H2 [_ [_ Ho]]]]]]]] | [Hn _]]; [|contradiction].
    apply Nat.eqb_eq in Hi; rewrite Hi in Ho.
    exists s1, d, s2, g; repeat split; auto.
    pose proof H1 as H1'. apply critic_phase_effect in H1'.
    destruct H1' as [_ [_ [_ [EG _]]]].
    pose proof H2 as H2'. apply generator_phase_effect in H2'.
    destruct H2' as [gen' [v [Hg' [Hv [-> _]]]]].
    unfold generator_loss. rewrite <- EG, Hg'; cbn [bind]. now rewrite Hv.
  - intros Hi. apply Nat.eqb_neq in Hi.
    destruct H as [[_ [s2 [g [gen [_ [_ [_ [_ Ho]]]]]]]] | [_ [_ [_ Ho]]]].
    + now rewrite Hi in Ho.
    + exact Ho.
Qed.

Section SaveFacts.

Variable ag : (vec -> option R) -> vec -> vec.

Lemma log_batches_app (e len : nat) (l1 l2 : list batch) (r : session) (i : nat) :
  log_batches ag e len r i (l1 ++ l2)
  = (r1 <- log_batches ag e len r i l1 ;;
     log_batches ag e len r1 (i + length l1) l2).
Proof.
  revert r i; induction l1 as [|b l1 IH]; intros r i; cbn [app log_batches length bind].
  - now rewrite Nat.add_0_r.
  - destruct (log_batch ag e len r i b) as [r1|]; cbn [bind]; [|reflexivity].
    rewrite IH. now rewrite Nat.add_succ_r.
Qed.

(** Batches without a generator turn leave the generator, the bound names
    and the outputs alone. *)
Lemma log_batches_quiet (e len : nat) (l : list batch) (r : session) (i : nat)
    (r' : session) :
  (forall t, (t < length l)%nat -> ((i + t) mod n_critic)%nat <> 0%nat) ->
  log_batches ag e len r i l = Some r' ->
  bound r' = bound r /\ out r' = out r /\
  G (st r') = G (st r) /\ optimizer_G (st r') = optimizer_G (st r).
Proof.
  revert r i; induction l as [|b l IH]; intros r i Hq; cbn [log_batches].
  - intros H; injection H as <-; auto.
  - destruct (log_batch ag e len r i b) as [r1|] eqn:E; cbn [bind]; [|discriminate].
    intros H.
    apply log_batch_inv in E. destruct E as [s1 [d [H1 E]]].
    destruct E as [[Hi _] | [_ [Hs [Hb Ho]]]].
    { exfalso. apply (Hq 0%nat); [cbn [length]; lia|]. now rewrite Nat.add_0_r. }
    apply critic_phase_effect in H1.
    destruct H1 as [_ [_ [_ [EG [_ [EO _]]]]]].
    destruct (IH r1 (S i)) with (2 := H) as [A [B [C F]]].
    { intros t Ht. replace (S i + t)%nat with (i + S t)%nat by lia.
      apply Hq; cbn [length]; lia. }
    rewrite A, B, C, F, Hb, Ho, Hs, EG, EO. auto.
Qed.

Lemma last_turn_tail (k t : nat) :
  (0 < k)%nat -> (S (5 * ((k - 1) / 5)) + t < k)%nat ->
  ((S (5 * ((k - 1) / 5)) + t) mod n_critic)%nat <> 0%nat.
Proof.
  intros Hk Ht. unfold n_critic.
  pose proof (Nat.div_mod_eq (k - 1) 5) as E.
  pose proof (Nat.mod_upper_bound (k - 1) 5) as U.
  set (q := ((k - 1) / 5)%nat) in *.
  rewrite <- (Nat.mod_unique (S (5 * q) + t) 5 q (S t)); lia.
Qed.

Lemma last_turn_index (k : nat) :
  (0 < k)%nat ->
  (5 * ((k - 1) / 5) < k)%nat /\ ((5 * ((k - 1) / 5)) mod n_critic)%nat = 0%nat.
Proof.
  intros Hk; split.
  - pose proof (Nat.div_mod_eq (k - 1) 5). lia.
  - unfold n_critic. apply Nat.Div0.mod_divides. eexists; reflexivity.
Qed.

Lemma split_at (A : Type) (l : list A) (j : nat) :
  (j < length l)%nat ->
  exists b, nth_error l j = Some b /\ l = firstn j l ++ b :: skipn (S j) l.
Proof.
  revert j; induction l as [|a l IH]; intros j Hj; cbn [length] in Hj; [lia|].
  destruct j as [|j].
  - exists a; split; reflexivity.
  - destruct (IH j) as [b [Hb El]]; [lia|].
    exists b; split; [exact Hb|].
    cbn [firstn skipn app]. f_equal. exact El.
Qed.

(** X17.  Which images an epoch saves.  After an epoch whose number is a
    multiple of 5, [save_image] receives the images generated in the last
    batch whose index is a multiple of [n_critic] (index
    5 * floor((len - 1) / 5)), by the generator as it was when that batch
    began; the generator that the epoch leaves behind is one Adam step
    further. *)
Theorem saved_images_precede_last_update (e : nat) (r : session)
    (loader : list batch) (r' : session) :
  loader <> [] -> (e mod 5)%nat = 0%nat ->
  log_epoch ag e r loader = Some r' ->
  exists sj b gen_imgs g,
    nth_error loader (5 * ((length loader - 1) / 5)) = Some b /\
    train_batches ag (st r) 0 (firstn (5 * ((length loader - 1) / 5)) loader)
      = Some sj /\
    Generator_forward (G sj) (latent b) = Some gen_imgs /\
    (exists o, out r' = o ++ [Saved e gen_imgs]) /\
    G (st r') = G_with (G sj)
                  (fst (Adam_step (optimizer_G sj) (parameters (G_model (G sj)))
                          (Some g))).
Proof.
  intros Hl He H.
  assert (Hk : (0 < length loader)%nat) by (destruct loader; [congruence|cbn; lia]).
  destruct (last_turn_index _ Hk) as [Hj Hj0].
  set (j := (5 * ((length loader - 1) / 5))%nat) in *.
  destruct (split_at _ loader j Hj) as [b [Hb El]].
  unfold log_epoch in H.
  destruct (log_batches ag e (length loader) r 0 loader) as [r1|] eqn:E;
    cbn [bind] in H; [|discriminate].
  apply Nat.eqb_eq in He; rewrite He in H.
  rewrite El in E at 2.
  rewrite log_batches_app in E.
  destruct (log_batches ag e (length loader) r 0 (firstn j loader)) as [rj|] eqn:Ej;
    cbn [bind] in E; [|discriminate].
  cbn [log_batches] in E.
  destruct (log_batch ag e (length loader) rj (0 + length (firstn j loader)) b)
    as [rb|] eqn:Eb; cbn [bind] in E; [|discriminate].
  assert (Lj : length (firstn j loader) = j) by (rewrite length_firstn; lia).
  rewrite Lj in Eb, E; cbn [Nat.add] in Eb, E.
  apply log_batches_state in Ej.
  apply log_batch_inv in Eb. destruct Eb as [s1 [d [H1 Eb]]].
  destruct Eb as [[_ [s2 [g [gen [Hgen [H2 [Hs [Hbd _]]]]]]]] | [Hn _]];
    [|contradiction].
  apply critic_phase_steps in H1. destruct H1 as [_ [_ [_ [EO [EG _]]]]].
  apply generator_phase_steps in H2. destruct H2 as [_ [_ [_ [_ [_ [g' HG]]]]]].
  apply log_batches_quiet in E.
  2:{ intros t Ht. apply last_turn_tail; [exact Hk|].
      rewrite length_skipn in Ht. fold j. lia. }
  destruct E as [Q1 [Q2 [Q3 _]]].
  rewrite Q1, Hbd in H; cbn [gen_imgs_name bind] in H.
  rewrite (view0_id gen (Generator_forward_dims _ _ _ Hgen)) in H; cbn [bind] in H.
  injection H as <-; cbn [st out].
  exists (st rj), b, gen, g'.
  split; [exact Hb|]. split; [exact Ej|].
  split; [now rewrite <- EG|].
  split; [eexists; reflexivity|].
  rewrite Q3, Hs; cbn [record_losses G]. now rewrite HG, EG, EO.
Qed.

End SaveFacts.

(** ** The sigmoid in the penalised gradient *)



Lemma vscale_repeat0 (c : R) (i : nat) : vscale c (repeat 0 i) = repeat 0 i.
Proof.
  unfold vscale; induction i as [|i IH]; cbn [repeat map]; [reflexivity|].
  now rewrite IH, Rmult_0_r.
Qed.

Lemma vscale_vadd (c : R) (u v : vec) :
  vscale c (vadd u v) = vadd (vscale c u) (vscale c v).
Proof.
  unfold vscale, vadd; revert v; induction u as [|a u IH]; intros [|b v];
    cbn [map map2]; try reflexivity.
  rewrite IH. f_equal. ring.
Qed.

Lemma vscale_vscale (c a : R) (u : vec) :
  vscale c (vscale a u) = vscale (c * a) u.
Proof.
  unfold vscale; rewrite map_map. apply map_ext; intros; ring.
Qed.

Lemma linear_vjp_row_scale (i : nat) (w : matrix) (c : R) (g : vec) :
  linear_vjp_row i w (vscale c g) = vscale c (linear_vjp_row i w g).
Proof.
  revert g; induction w as [|wk w IH]; intros [|gk g].
  - symmetry; apply vscale_repeat0.
  - symmetry; apply vscale_repeat0.
  - symmetry; apply vscale_repeat0.
  - change (vscale c (gk :: g)) with (c * gk :: vscale c g).
    cbn [linear_vjp_row].
    rewrite IH, vscale_vadd, vscale_vscale. reflexivity.
Qed.

Lemma pointwise_row_scale (f' : R -> R) (c : R) (x g : vec) :
  map2 (fun xi gi => f' xi * gi) x (vscale c g)
  = vscale c (map2 (fun xi gi => f' xi * gi) x g).
Proof.
  unfold vscale; revert g; induction x as [|a x IH]; intros [|b g];
    cbn [map map2]; try reflexivity.
  rewrite IH. f_equal. ring.
Qed.

(** The backward pass through layers that act on each sample alone is
    linear in the output gradient. *)
Lemma backward_seq_row_scale (m : Sequential) (c : R) (x g : vec) :
  forallb samplewise m = true ->
  backward_seq_row m x (vscale c g) = vscale c (backward_seq_row m x g).
Proof.
  revert x; induction m as [|l m IH]; intros x Hm; cbn [backward_seq_row].
  - reflexivity.
  - cbn [forallb] in Hm; apply andb_prop in Hm; destruct Hm as [Hl Hm].
    rewrite IH by exact Hm.
    destruct l; cbn [backward_row samplewise] in *; try discriminate;
      auto using linear_vjp_row_scale, pointwise_row_scale.
Qed.

Lemma backward_seq_row_app (m1 m2 : Sequential) (x g : vec) :
  backward_seq_row (m1 ++ m2) x g
  = backward_seq_row m1 x (backward_seq_row m2 (apply_seq_row m1 x) g).
Proof.
  revert x; induction m1 as [|l m1 IH]; intros x; cbn [app backward_seq_row apply_seq_row].
  - reflexivity.
  - now rewrite IH.
Qed.

Lemma sum_squares_nonneg (v : vec) : 0 <= sum (map (fun a => a * a) v).
Proof.
  apply sum_nonneg, Forall_forall. intros y Hy.
  apply in_map_iff in Hy; destruct Hy as [a [<- _]].
  fold (Rsqr a); apply Rle_0_sqr.
Qed.

Lemma sum_scale (c : R) (v : vec) : sum (map (Rmult c) v) = c * sum v.
Proof.
  induction v as [|a v IH]; cbn [map sum]; [ring|]. rewrite IH; ring.
Qed.

Lemma norm2_vscale (c : R) (v : vec) : norm2 (vscale c v) = Rabs c * norm2 v.
Proof.
  unfold norm2, vscale. rewrite map_map.
  rewrite (map_ext _ (fun a => (c * c) * (a * a))) by (intros; ring).
  rewrite <- (map_map (fun a => a * a) (Rmult (c * c))), sum_scale.
  rewrite sqrt_mult.
  - fold (Rsqr c). now rewrite sqrt_Rsqr_abs.
  - fold (Rsqr c); apply Rle_0_sqr.
  - apply sum_squares_nonneg.
Qed.

Lemma sigmoid'_range (u : R) : 0 < sigmoid' u <= 1 / 4.
Proof.
  unfold sigmoid'. pose proof (sigmoid_range u) as [A B].
  split; [apply Rmult_lt_0_compat; lra|].
  assert (0 <= (sigmoid u - 1 / 2) * (sigmoid u - 1 / 2))
    by (fold (Rsqr (sigmoid u - 1 / 2)); apply Rle_0_sqr).
  lra.
Qed.

Lemma D_model_split (pd : Discriminator_init) :
  D_model (D_of pd) = removelast (D_model (D_of pd)) ++ [Sigmoid] /\
  forallb samplewise (removelast (D_model (D_of pd))) = true.
Proof. split; reflexivity. Qed.

Lemma linear_row_single (w : matrix) (b x : vec) :
  length w = 1%nat -> length b = 1%nat ->
  exists u, linear_row w b x = [u].
Proof.
  destruct w as [|wk [|? ?]]; try discriminate.
  destruct b as [|bk [|? ?]]; try discriminate.
  intros _ _; eexists; reflexivity.
Qed.

Lemma apply_seq_row_app (m1 m2 : Sequential) (x : vec) :
  apply_seq_row (m1 ++ m2) x = apply_seq_row m2 (apply_seq_row m1 x).
Proof.
  revert x; induction m1 as [|l m1 IH]; intros x; cbn [app apply_seq_row]; auto.
Qed.

Lemma logit_single (pd : Discriminator_init) (x : vec) :
  wf_Discriminator_init mnist_dim pd -> exists u, logit (D_of pd) x = [u].
Proof.
  intros [_ [_ [[Hw _] Hb]]].
  unfold logit, D_of, Discriminator__init__; cbn [D_model removelast].
  cbn [apply_seq_row apply_row].
  apply linear_row_single; assumption.
Qed.

(** X18.  The penalised gradient carries the sigmoid's derivative.  The
    input gradient of the discriminator, whose norm the gradient penalty
    pushes towards 1, is the input gradient of the score before the final
    [Sigmoid] times sigmoid'(u), u being that score: its norm is at most a
    quarter of the norm of the unsquashed critic's gradient. *)
Theorem input_gradient_through_sigmoid (pd : Discriminator_init) (x : vec) :
  wf_Discriminator_init mnist_dim pd ->
  exists u,
    logit (D_of pd) x = [u] /\
    input_gradient (D_of pd) x = vscale (sigmoid' u) (logit_gradient (D_of pd) x) /\
    norm2 (input_gradient (D_of pd) x)
    = sigmoid' u * norm2 (logit_gradient (D_of pd) x) /\
    norm2 (input_gradient (D_of pd) x)
    <= norm2 (logit_gradient (D_of pd) x) / 4.
Proof.
  intros Hp.
  destruct (logit_single pd x Hp) as [u Hu].
  destruct (D_model_split pd) as [Hs Hf].
  pose proof (sigmoid'_range u) as [S0 S1].
  assert (E : input_gradient (D_of pd) x
              = vscale (sigmoid' u) (logit_gradient (D_of pd) x)).
  { unfold input_gradient, logit_gradient.
    rewrite Hs at 1. rewrite backward_seq_row_app.
    fold (logit (D_of pd) x); rewrite Hu.
    cbn [backward_seq_row backward_row map2].
    rewrite <- backward_seq_row_scale by exact Hf.
    unfold vscale; cbn [map]. reflexivity. }
  exists u; split; [exact Hu|]. split; [exact E|].
  rewrite E, norm2_vscale, (Rabs_pos_eq (sigmoid' u)) by lra.
  split; [reflexivity|].
  assert (0 <= norm2 (logit_gradient (D_of pd) x)) by (unfold norm2; apply sqrt_pos).
  nra.
Qed.

(** ** Concrete runs

    The networks with all weights zero, the engine that returns the zero
    gradient, and batches of two black images. *)

Lemma engine_ok0 : engine_ok autograd0.
Proof. intros f theta; unfold autograd0; apply length_map. Qed.

Lemma generator_loss_total (pg : Generator_init) (pd : Discriminator_init) (b : batch) :
  usable_batch b ->
  exists l, generator_loss (G_of pg) (D_of pd) (latent b) = Some l.
Proof.
  intros Hb.
  destruct (Generator_forward_latent pg b Hb) as [gen [Hf Hs]].
  pose proof (usable_batch_sizes b Hb) as [Hd [_ [_ Hn]]].
  destruct (Discriminator_forward_image pd gen) as [v Hv].
  { unfold shape in Hs; inversion Hs; congruence. }
  { unfold shape in Hs; inversion Hs; lia. }
  unfold generator_loss; rewrite Hf; cbn [bind]. rewrite Hv; cbn [bind]. eauto.
Qed.

Lemma losses_are_bounded_witness :
  wf_Discriminator_init mnist_dim D_init0 /\
  exists g_loss d_loss,
    generator_loss (G_of G_init0) (D_of D_init0) (latent batch0) = Some g_loss /\
    critic_loss (D_of D_init0) (imgs batch0) (imgs batch0) (alpha batch0) = Some d_loss /\
    -1 <= g_loss <= 0 /\ -1 <= d_loss.
Proof.
  split; [exact wf_D_init0|].
  destruct (generator_loss_total G_init0 D_init0 batch0 usable_batch0) as [g Hg].
  destruct (critic_loss_total D_init0 batch0 (imgs batch0) usable_batch0 eq_refl)
    as [d Hd].
  exists g, d. split; [exact Hg|]. split; [exact Hd|].
  exact (losses_are_bounded D_init0 (G_of G_init0) (latent batch0)
           (imgs batch0) (imgs batch0) (alpha batch0) g d wf_D_init0 Hg Hd).
Defined.

Lemma run0_total :
  exists s,
    train autograd0 (init_state G_init0 D_init0) [[batch0; batch0]] = Some s.
Proof.
  destruct (train_batches_total autograd0 [batch0; batch0]
              (init_state G_init0 D_init0) 0
              (architecture_init G_init0 D_init0)
              (Forall_cons _ usable_batch0 (Forall_cons _ usable_batch0 (Forall_nil _))))
    as [s [H _]].
  exists s. cbn [train]. unfold train_epoch. rewrite H. reflexivity.
Qed.

Lemma batch0_total :
  exists s,
    train_batch autograd0 (init_state G_init0 D_init0) 0 batch0 = Some s /\
    architecture_ok s.
Proof.
  apply train_batch_total; [apply architecture_init|apply usable_batch0].
Qed.

Lemma training_keeps_shapes_witness :
  engine_ok autograd0 /\
  wf_Generator_init z_dim mnist_dim G_init0 /\ wf_Discriminator_init mnist_dim D_init0 /\
  exists s,
    train autograd0 (init_state G_init0 D_init0) [[batch0; batch0]] = Some s /\
    shapes_ok s /\
    Z.of_nat (length (parameters (G_model (G s)))) = 1510032%Z.
Proof.
  split; [exact engine_ok0|]. split; [exact wf_G_init0|]. split; [exact wf_D_init0|].
  destruct run0_total as [s H]. exists s. split; [exact H|].
  destruct (training_keeps_shapes autograd0 G_init0 D_init0 [[batch0; batch0]] s
              engine_ok0 wf_G_init0 wf_D_init0 H) as [A [B _]].
  split; [exact A|exact B].
Defined.

Lemma run_update_counts_witness :
  Forall (fun l : list batch => length l = 2%nat) [[batch0; batch0]] /\
  exists s,
    train autograd0 (init_state G_init0 D_init0) [[batch0; batch0]] = Some s /\
    state_step (optimizer_D s)
    = (state_step (optimizer_D (init_state G_init0 D_init0)) + 1 * 2)%nat /\
    state_step (optimizer_G s)
    = (state_step (optimizer_G (init_state G_init0 D_init0)) + 1 * ((2 + 4) / 5))%nat.
Proof.
  assert (Hk : Forall (fun l : list batch => length l = 2%nat) [[batch0; batch0]])
    by (apply Forall_cons; [reflexivity|apply Forall_nil]).
  split; [exact Hk|].
  destruct run0_total as [s H]. exists s. split; [exact H|].
  exact (run_update_counts autograd0 [[batch0; batch0]] 2
           (init_state G_init0 D_init0) s Hk H).
Defined.

Lemma loss_histories_count_generator_updates_witness :
  exists s,
    train autograd0 (init_state G_init0 D_init0) [[batch0; batch0]] = Some s /\
    length (list_loss_D s) = state_step (optimizer_G s) /\
    length (list_loss_G s) = state_step (optimizer_G s).
Proof.
  destruct run0_total as [s H]. exists s. split; [exact H|].
  destruct (loss_histories_count_generator_updates autograd0 G_init0 D_init0
              [[batch0; batch0]] s H) as [A [B _]].
  split; [exact A|exact B].
Defined.

(** The critic phase of a second batch, entered with the gradient that the
    generator phase of the first batch left on the discriminator. *)
Lemma critic_gradient_is_fresh_witness :
  engine_ok autograd0 /\
  exists s1 s2 d_loss fake_imgs,
    train_batch autograd0 (init_state G_init0 D_init0) 0 batch0 = Some s1 /\
    shapes_ok s1 /\
    train_discriminator autograd0 s1 batch0 = Some (s2, d_loss) /\
    D_grad s2 =
      Some (autograd0 (d_loss_of_D (D s1) batch0 fake_imgs)
              (parameters (D_model (D s1)))).
Proof.
  split; [exact engine_ok0|].
  destruct batch0_total as [s1 [H1 A1]].
  destruct (train_batch_shapes autograd0 engine_ok0 _ 0 batch0 s1
              (shapes_init G_init0 D_init0 wf_G_init0 wf_D_init0) H1) as [S1 _].
  destruct (train_discriminator_total autograd0 s1 batch0 A1 usable_batch0)
    as [s2 [d [H2 _]]].
  destruct (critic_gradient_is_fresh autograd0 s1 batch0 s2 d engine_ok0 S1 H2)
    as [fake [_ Hg]].
  exists s1, s2, d, fake. auto.
Defined.

Lemma outputs_fail_only_without_a_first_batch_witness :
  exists s r,
    train autograd0 (init_state G_init0 D_init0) [[batch0; batch0]] = Some s /\
    log_epochs autograd0 0 (new_session G_init0 D_init0) [[batch0; batch0]] = Some r /\
    st r = s.
Proof.
  destruct run0_total as [s H].
  destruct (proj1 (outputs_fail_only_without_a_first_batch autograd0 G_init0 D_init0
                     [batch0; batch0] [] s H)) as [r [A B]]; [discriminate|].
  exists s, r. auto.
Defined.

Lemma log_batch0_total :
  exists r,
    log_batch autograd0 0 1 (new_session G_init0 D_init0) 0 batch0 = Some r.
Proof.
  destruct batch0_total as [s [H _]].
  destruct (log_batch_total autograd0 0 1 (new_session G_init0 D_init0) 0 batch0 s H)
    as [r [Hr _]].
  exists r; exact Hr.
Qed.

Lemma printed_losses_are_of_the_batch_witness :
  exists r d_loss g_loss,
    log_batch autograd0 0 1 (new_session G_init0 D_init0) 0 batch0 = Some r /\
    out r = out (new_session G_init0 D_init0) ++ [Printed 0 200 0 1 d_loss g_loss].
Proof.
  destruct log_batch0_total as [r Hr].
  destruct (proj1 (printed_losses_are_of_the_batch autograd0 0 1
                     (new_session G_init0 D_init0) 0 batch0 r Hr) eq_refl)
    as [s1 [d [s2 [g [_ [_ [_ Ho]]]]]]].
  exists r, d, g. auto.
Defined.

Lemma log_epoch0_total :
  exists r,
    log_epoch autograd0 0 (new_session G_init0 D_init0) [batch0; batch0] = Some r.
Proof.
  destruct (train_batches_total autograd0 [batch0; batch0]
              (init_state G_init0 D_init0) 0
              (architecture_init G_init0 D_init0)
              (Forall_cons _ usable_batch0 (Forall_cons _ usable_batch0 (Forall_nil _))))
    as [s [H _]].
  destruct (log_epoch_total autograd0 0 (new_session G_init0 D_init0)
              [batch0; batch0] s) as [r [Hr _]].
  - right; discriminate.
  - exact H.
  - exists r; exact Hr.
Qed.

Lemma saved_images_precede_last_update_witness :
  [batch0; batch0] <> [] /\ (0 mod 5)%nat = 0%nat /\
  exists r gen_imgs o,
    log_epoch autograd0 0 (new_session G_init0 D_init0) [batch0; batch0] = Some r /\
    Generator_forward (G_of G_init0) (latent batch0) = Some gen_imgs /\
    out r = o ++ [Saved 0 gen_imgs].
Proof.
  assert (Hl : [batch0; batch0] <> (@nil batch)) by discriminate.
  split; [exact Hl|]. split; [reflexivity|].
  destruct log_epoch0_total as [r Hr].
  destruct (saved_images_precede_last_update autograd0 0
              (new_session G_init0 D_init0) [batch0; batch0] r Hl eq_refl Hr)
    as [sj [b [gen [g [Hb [Hs [Hg [[o Ho] _]]]]]]]].
  injection Hb as <-. injection Hs as <-.
  exists r, gen, o. auto.
Defined.

(** ** The critic with all weights and biases 1 *)

Lemma wf_ones_linear (i o : nat) : wf_linear_init i o (ones_linear i o).
Proof.
  unfold wf_linear_init, wf_matrix, wf_vec, ones_linear; cbn [init_weight init_bias].
  rewrite !repeat_length; repeat split.
  apply Forall_repeat, repeat_length.
Qed.

Lemma wf_D_init_ones : wf_Discriminator_init mnist_dim D_init_ones.
Proof. repeat split; apply wf_ones_linear. Qed.

Lemma dot_ones (x : vec) : dot (repeat 1 (length x)) x = sum x.
Proof. induction x as [|a x IH]; simpl; [reflexivity|]. rewrite IH; lra. Qed.

Lemma linear_row_ones (i o : nat) (x : vec) :
  length x = i ->
  linear_row (repeat (repeat 1 i) o) (repeat 1 o) x = repeat (sum x + 1) o.
Proof.
  intros <-. unfold linear_row.
  induction o as [|o IH]; simpl; [reflexivity|].
  now rewrite IH, dot_ones.
Qed.

Lemma sum_repeat (a : R) (n : nat) : sum (repeat a n) = INR n * a.
Proof.
  induction n as [|n IH]; [simpl; lra|].
  rewrite S_INR; cbn [repeat sum]; rewrite IH; lra.
Qed.

Lemma leaky_relu_repeat_pos (s a : R) (n : nat) :
  0 < a -> map (leaky_relu s) (repeat a n) = repeat a n.
Proof.
  intros Ha. rewrite map_repeat. f_equal.
  unfold leaky_relu. destruct (Rlt_dec 0 a); [reflexivity|contradiction].
Qed.

Lemma linear_vjp_row_ones (i o : nat) (g : vec) :
  length g = o ->
  linear_vjp_row i (repeat (repeat 1 i) o) g = repeat (sum g) i.
Proof.
  revert o; induction g as [|gk g IH]; intros o <-; cbn [length repeat linear_vjp_row sum].
  - reflexivity.
  - rewrite (IH (length g) eq_refl).
    unfold vadd, vscale. rewrite map_repeat.
    clear IH. induction i as [|i IHi]; cbn [repeat map2]; [reflexivity|].
    rewrite IHi. f_equal. lra.
Qed.

Lemma leaky_relu'_repeat_pos (s a g : R) (n : nat) :
  0 < a ->
  map2 (fun xi gi => leaky_relu' s xi * gi) (repeat a n) (repeat g n) = repeat g n.
Proof.
  intros Ha. induction n as [|n IH]; cbn [repeat map2]; [reflexivity|].
  rewrite IH. f_equal.
  unfold leaky_relu'. destruct (Rlt_dec 0 a); [lra|contradiction].
Qed.

(** Where no pixel is negative, every value that enters a leaky rectifier
    is positive. *)
Lemma D_init_ones_logit (x : vec) :
  length x = mnist_dim -> Forall (fun a => 0 <= a) x ->
  regular_at (D_model (Discriminator__init__ mnist_dim D_init_ones)) mnist_dim x /\
  logit_gradient (D_of D_init_ones) x = repeat (256 * 512) mnist_dim.
Proof.
  intros Hx Hp.
  pose proof (sum_nonneg x Hp) as Hs.
  assert (H1 : 0 < sum x + 1) by lra.
  assert (H2 : 0 < sum (repeat (sum x + 1) 512) + 1).
  { rewrite sum_repeat. change (INR 512) with (IZR 512) || rewrite INR_IZR_INZ.
    simpl. nra. }
  split.
  - unfold Discriminator__init__, D_init_ones; cbn [D_model dl1 dl2 dl3 regular_at].
    destruct (wf_ones_linear mnist_dim 512) as [W1 B1].
    destruct (wf_ones_linear 512 256) as [W2 B2].
    destruct (wf_ones_linear 256 1) as [W3 B3].
    cbn [apply_row]; unfold ones_linear in *; cbn [init_weight init_bias] in *.
    rewrite (linear_row_ones mnist_dim 512 x Hx).
    rewrite (leaky_relu_repeat_pos _ _ _ H1).
    rewrite (linear_row_ones 512 256) by apply repeat_length.
    repeat (split; auto); apply Forall_repeat; lra.
  - unfold logit_gradient, D_of, Discriminator__init__, D_init_ones, ones_linear.
    cbn [D_model dl1 dl2 dl3 removelast init_weight init_bias].
    cbn [backward_seq_row backward_row apply_row].
    rewrite (linear_row_ones mnist_dim 512 x Hx).
    rewrite (leaky_relu_repeat_pos _ _ _ H1).
    rewrite (linear_row_ones 512 256) by apply repeat_length.
    rewrite (linear_vjp_row_ones 256 1 [1] eq_refl).
    cbn [sum]. replace (1 + 0) with 1 by lra.
    rewrite (leaky_relu'_repeat_pos _ _ _ _ H2).
    rewrite (linear_vjp_row_ones 512 256) by apply repeat_length.
    rewrite (leaky_relu'_repeat_pos _ _ _ _ H1).
    rewrite (linear_vjp_row_ones mnist_dim 512) by apply repeat_length.
    rewrite !sum_repeat.
    f_equal. rewrite !INR_IZR_INZ. simpl. lra.
Qed.

Lemma norm2_repeat_pos (a : R) (n : nat) : 0 < a -> 0 < norm2 (repeat a (S n)).
Proof.
  intros Ha. unfold norm2. apply sqrt_lt_R0.
  rewrite map_repeat, sum_repeat.
  apply Rmult_lt_0_compat; [apply lt_0_INR; lia | nra].
Qed.

(** The critic with all weights and biases 1 at the image with all pixels
    1: the gradient before the sigmoid is 256 * 512 in every pixel. *)
Lemma input_gradient_through_sigmoid_witness :
  wf_Discriminator_init mnist_dim D_init_ones /\
  logit_gradient (D_of D_init_ones) (repeat 1 mnist_dim) = repeat (256 * 512) mnist_dim /\
  0 < norm2 (logit_gradient (D_of D_init_ones) (repeat 1 mnist_dim)) /\
  exists u,
    logit (D_of D_init_ones) (repeat 1 mnist_dim) = [u] /\
    input_gradient (D_of D_init_ones) (repeat 1 mnist_dim)
    = vscale (sigmoid' u) (logit_gradient (D_of D_init_ones) (repeat 1 mnist_dim)) /\
    norm2 (input_gradient (D_of D_init_ones) (repeat 1 mnist_dim))
    = sigmoid' u * norm2 (logit_gradient (D_of D_init_ones) (repeat 1 mnist_dim)) /\
    norm2 (input_gradient (D_of D_init_ones) (repeat 1 mnist_dim))
    <= norm2 (logit_gradient (D_of D_init_ones) (repeat 1 mnist_dim)) / 4.
Proof.
  split; [exact wf_D_init_ones|].
  destruct (D_init_ones_logit (repeat 1 mnist_dim)) as [_ E];
    [apply repeat_length | apply Forall_repeat; lra |].
  split; [exact E|]. split.
  - rewrite E. apply (norm2_repeat_pos (256 * 512) 783). lra.
  - exact (input_gradient_through_sigmoid D_init_ones (repeat 1 mnist_dim)
             wf_D_init_ones).
Defined.

(** ** Broadcasting *)

(** The rule on small tensors. *)
Example expand_rows : expand [1; 3]%nat [2; 3]%nat [1; 2; 3] = [1; 2; 3; 1; 2; 3].
Proof. reflexivity. Qed.

Example expand_columns : expand [2; 1]%nat [2; 3]%nat [1; 2] = [1; 1; 1; 2; 2; 2].
Proof. reflexivity. Qed.

Example expand_alpha_weights :
  expand [2; 1; 1; 1]%nat [2; 1; 2; 2]%nat [5; 6] = [5; 5; 5; 5; 6; 6; 6; 6].
Proof. reflexivity. Qed.

Example broadcast_flat_batch :
  broadcast_shapes [2; 1; 1; 1]%nat [2; 784]%nat = Some [2; 1; 2; 784]%nat.
Proof. reflexivity. Qed.

Example broadcast_mismatch :
  broadcast_shapes [2; 1; 1; 1]%nat [3; 1; 28; 28]%nat = None.
Proof. reflexivity. Qed.


Lemma broadcast_dim_same (x : nat) : broadcast_dim x x = Some x.
Proof. unfold broadcast_dim; now rewrite Nat.eqb_refl. Qed.

Lemma broadcast_dim_1_l (y : nat) : broadcast_dim 1 y = Some y.
Proof.
  unfold broadcast_dim. destruct (1 =? y)%nat eqn:E; [|reflexivity].
  apply Nat.eqb_eq in E; now subst.
Qed.

Lemma broadcast_dim_1_r (x : nat) : broadcast_dim x 1 = Some x.
Proof.
  unfold broadcast_dim. destruct (x =? 1)%nat eqn:E; [|reflexivity].
  apply Nat.eqb_eq in E; now subst.
Qed.

Lemma broadcast_shapes_alpha (n c h w : nat) :
  broadcast_shapes [n; 1; 1; 1]%nat [n; c; h; w] = Some [n; c; h; w].
Proof.
  unfold broadcast_shapes; cbn [rev app broadcast_rev].
  now rewrite !broadcast_dim_1_l, broadcast_dim_same.
Qed.

Lemma broadcast_shapes_same4 (n c h w : nat) :
  broadcast_shapes [n; c; h; w] [n; c; h; w] = Some [n; c; h; w].
Proof.
  unfold broadcast_shapes; cbn [rev app broadcast_rev].
  now rewrite !broadcast_dim_same.
Qed.

Lemma chunks_length (n m : nat) (x : vec) : length (chunks n m x) = n.
Proof. revert x; induction n as [|n IH]; intros x; simpl; auto. Qed.

Lemma chunks_rows (n m : nat) (x : vec) :
  (n * m <= length x)%nat -> Forall (fun r => length r = m) (chunks n m x).
Proof. intros H; now apply chunks_wf. Qed.

Lemma map_id_on {A : Type} (f : A -> A) (l : list A) :
  Forall (fun a => f a = a) l -> map f l = l.
Proof. induction 1 as [|a l Ha _ IH]; simpl; congruence. Qed.

(** Expanding to the shape the data already have changes nothing. *)
Lemma expand_same (s : list nat) (x : vec) :
  length x = numel s -> expand s s x = x.
Proof.
  revert x; induction s as [|f s IH]; intros x Hx; cbn [expand]; [reflexivity|].
  rewrite Nat.eqb_refl.
  change (numel (f :: s)) with (f * numel s)%nat in Hx.
  rewrite map_id_on.
  - rewrite concat_chunks. apply firstn_all2; lia.
  - eapply Forall_impl; [|apply chunks_rows; lia].
    intros r Hr; now apply IH.
Qed.

Lemma numel_ones (k : nat) : numel (repeat 1%nat k) = 1%nat.
Proof.
  induction k as [|k IH]; [reflexivity|].
  change (numel (repeat 1%nat (S k))) with (1 * numel (repeat 1%nat k))%nat.
  rewrite IH; reflexivity.
Qed.

Lemma concat_repeat_repeat (a : R) (m t : nat) :
  concat (repeat (repeat a m) t) = repeat a (t * m).
Proof.
  induction t as [|t IH]; simpl; auto.
  now rewrite IH, repeat_app.
Qed.

(** One value expanded fills the shape. *)
Lemma expand_ones (to : list nat) (a : R) :
  expand (repeat 1%nat (length to)) to [a] = repeat a (numel to).
Proof.
  induction to as [|t to IH]; cbn [length repeat expand]; [reflexivity|].
  rewrite numel_ones. cbn [chunks firstn map concat]. rewrite IH, app_nil_r.
  change (numel (t :: to)) with (t * numel to)%nat.
  destruct (1 =? t)%nat eqn:E.
  - apply Nat.eqb_eq in E; subst t. now rewrite Nat.mul_1_l.
  - apply concat_repeat_repeat.
Qed.

Lemma chunks_singletons (alpha : vec) :
  chunks (length alpha) 1 alpha = map (fun a => [a]) alpha.
Proof. induction alpha as [|a alpha IH]; simpl; auto. now rewrite IH. Qed.

Lemma expand_alpha (alpha : vec) (n c h w : nat) :
  length alpha = n ->
  expand [n; 1; 1; 1]%nat [n; c; h; w] alpha
  = concat (map (fun a => repeat a (numel [c; h; w])) alpha).
Proof.
  intros <-. cbn [expand]. rewrite Nat.eqb_refl.
  change (numel [1; 1; 1]%nat) with 1%nat.
  rewrite chunks_singletons, map_map. f_equal.
  apply map_ext; intros a.
  apply (expand_ones [c; h; w] a).
Qed.

Lemma map2_app {A B C : Type} (f : A -> B -> C) (u u' : list A) (v v' : list B) :
  length u = length v ->
  map2 f (u ++ u') (v ++ v') = map2 f u v ++ map2 f u' v'.
Proof.
  revert v; induction u as [|a u IH]; intros [|b v] H; simpl in *;
    try discriminate; auto.
  f_equal; apply IH; lia.
Qed.

Lemma combine_app_eq {A B : Type} (u u' : list A) (v v' : list B) :
  length u = length v ->
  combine (u ++ u') (v ++ v') = combine u v ++ combine u' v'.
Proof.
  revert v; induction u as [|a u IH]; intros [|b v] H; simpl in *;
    try discriminate; auto.
  f_equal; apply IH; lia.
Qed.

Lemma lerp_repeat (a : R) (r f : vec) :
  length r = length f ->
  map2 (fun a0 rf => a0 * fst rf + (1 - a0) * snd rf)
    (repeat a (length r)) (combine r f)
  = lerp a r f.
Proof.
  unfold lerp; revert f; induction r as [|r0 r IH]; intros [|f0 f] H; simpl in *;
    try discriminate; auto.
  f_equal; apply IH; lia.
Qed.

(** Interpolating the expanded data is interpolating sample by sample. *)
Lemma interpolate_flat (alpha : vec) (real fake : matrix) (m : nat) :
  Forall (fun r => length r = m) real -> Forall (fun r => length r = m) fake ->
  length real = length alpha -> length fake = length alpha ->
  map2 (fun a rf => a * fst rf + (1 - a) * snd rf)
    (concat (map (fun a => repeat a m) alpha))
    (combine (concat real) (concat fake))
  = concat (interpolate alpha real fake).
Proof.
  intros Hr; revert alpha fake.
  induction Hr as [|r real Hr0 Hr IH]; intros [|a alpha] fake Hf Lr Lf;
    simpl in Lr; try discriminate.
  - reflexivity.
  - destruct Hf as [|f fake Hf0 Hf]; simpl in Lf; [discriminate|].
    unfold interpolate; cbn [map concat combine map2 fst snd].
    fold (interpolate alpha real fake).
    rewrite combine_app_eq by congruence.
    rewrite map2_app by (rewrite repeat_length, length_combine; lia).
    f_equal.
    + rewrite <- Hr0 at 1. rewrite lerp_repeat by congruence. reflexivity.
    + apply IH; auto; lia.
Qed.

Lemma interpolate_rows (alpha : vec) (real fake : matrix) (m : nat) :
  Forall (fun r => length r = m) real -> Forall (fun r => length r = m) fake ->
  Forall (fun r => length r = m) (interpolate alpha real fake).
Proof.
  intros Hr; revert alpha fake.
  induction Hr as [|r real Hr0 Hr IH]; intros [|a alpha] fake Hf;
    unfold interpolate; simpl; try constructor.
  destruct Hf as [|f fake Hf0 Hf]; simpl; constructor.
  - cbn [fst snd]. rewrite map2_length; lia.
  - apply IH; auto.
Qed.

(** On well-formed batches of one shape (n, c, h, w) the general rule gives
    the sample-wise interpolation. *)
Lemma broadcast_interpolation_same_shape (alpha : vec) (real_samples fake_samples : tensor)
    (n c h w : nat) :
  shape real_samples = [n; c; h; w] -> shape fake_samples = [n; c; h; w] ->
  wf_tensor real_samples -> wf_tensor fake_samples -> length alpha = n ->
  broadcast_interpolation alpha real_samples fake_samples
  = Some (mk_tensor [c; h; w]
            (interpolate alpha (rows real_samples) (rows fake_samples))).
Proof.
  intros Hr Hf Wr Wf Ha.
  pose proof (shape_inv _ _ _ Hr) as [Hrn Hrd].
  pose proof (shape_inv _ _ _ Hf) as [Hfn Hfd].
  unfold wf_tensor in Wr, Wf; rewrite Hrd in Wr; rewrite Hfd in Wf.
  unfold broadcast_interpolation.
  rewrite Hr, Hf, Hrn, broadcast_shapes_alpha; cbn [bind].
  rewrite broadcast_shapes_same4; cbn [bind length hd tl].
  change (pad_shape 4 [n; 1; 1; 1]%nat) with [n; 1; 1; 1]%nat.
  change (pad_shape 4 [n; c; h; w]) with [n; c; h; w].
  assert (Lr : length (elements real_samples) = numel [n; c; h; w]).
  { unfold elements. rewrite (concat_length_uniform _ _ Wr).
    unfold size0 in Hrn; rewrite Hrn. reflexivity. }
  assert (Lf : length (elements fake_samples) = numel [n; c; h; w]).
  { unfold elements. rewrite (concat_length_uniform _ _ Wf).
    unfold size0 in Hfn; rewrite Hfn. reflexivity. }
  rewrite (expand_same _ _ Lr), (expand_same _ _ Lf), (expand_alpha _ _ _ _ _ Ha).
  unfold elements.
  unfold size0 in Hrn, Hfn.
  rewrite (interpolate_flat alpha _ _ (numel [c; h; w]) Wr Wf) by congruence.
  do 2 f_equal.
  rewrite <- (app_nil_r (concat _)).
  rewrite <- (interpolate_length alpha (rows real_samples) (rows fake_samples) n Ha Hrn Hfn) at 1.
  apply chunks_concat, interpolate_rows; assumption.
Qed.

Lemma broadcast_shapes_fake1 (n c h w : nat) :
  broadcast_shapes [n; c; h; w] [1; c; h; w]%nat = Some [n; c; h; w].
Proof.
  unfold broadcast_shapes; cbn [rev app broadcast_rev].
  now rewrite !broadcast_dim_same, broadcast_dim_1_r.
Qed.

Lemma broadcast_shapes_alpha1 (n c h w : nat) :
  broadcast_shapes [n; 1; 1; 1]%nat [1; c; h; w]%nat = Some [n; c; h; w].
Proof.
  unfold broadcast_shapes; cbn [rev app broadcast_rev].
  now rewrite !broadcast_dim_1_l, broadcast_dim_1_r.
Qed.

(** One fake sample against [n] real ones: the fake sample is broadcast, and
    the function returns. *)
Lemma compute_gradient_penalty_broadcasts (i : nat) (p : Discriminator_init)
    (real_samples fake_samples : tensor) (alpha : vec) (n c h w : nat) :
  shape real_samples = [n; c; h; w] -> shape fake_samples = [1; c; h; w]%nat ->
  (c * h * w)%nat = i -> length alpha = n -> (2 <= n)%nat ->
  exists gp,
    compute_gradient_penalty (Discriminator__init__ i p)
      real_samples fake_samples alpha = Some gp.
Proof.
  intros Hr Hf Hi Ha Hn.
  pose proof (shape_inv _ _ _ Hr) as [Hrn Hrd].
  unfold compute_gradient_penalty, interpolation.
  rewrite Ha, Hrn, Nat.eqb_refl; cbn [negb].
  assert (E : list_nat_eqb (shape real_samples) (shape fake_samples) = false).
  { unfold list_nat_eqb. destruct (list_eq_dec _ _ _) as [E|]; [|reflexivity].
    rewrite Hr, Hf in E. injection E as E. lia. }
  rewrite E; cbn [andb].
  unfold broadcast_interpolation.
  rewrite Hrn, Hr, Hf, broadcast_shapes_alpha, broadcast_shapes_alpha1; cbn [bind].
  rewrite broadcast_shapes_same4; cbn [bind hd tl].
  rewrite Discriminator_forward_eq.
  unfold size0 at 1; cbn [rows dims]. rewrite chunks_length.
  assert (Hm : numel [c; h; w] = i) by (rewrite <- Hi; simpl; lia).
  rewrite Hm, Nat.eqb_refl.
  replace (n =? 0)%nat with false by (symmetry; apply Nat.eqb_neq; lia).
  cbn [orb negb bind].
  unfold shape at 1, size0 at 1; cbn [rows dims].
  rewrite apply_seq_length, chunks_length, list_nat_eqb_refl; cbn [negb].
  eauto.
Qed.

(** ** The gradient in the penalty *)

(** The backward pass gives the derivative of the score along every line
    through a regular input. *)
Lemma input_gradient_derivative (i : nat) (p : Discriminator_init) (x v : vec) :
  length x = i -> length v = i ->
  regular_at (D_model (Discriminator__init__ i p)) i x ->
  derivable_pt_lim
    (fun t => critic_score (Discriminator__init__ i p) (line x v t)) 0
    (dot (input_gradient (Discriminator__init__ i p) x) v).
Proof.
  intros Hx Hv Hr.
  destruct (seq_curve _ i (line x v) v x (line_0 x v ltac:(lia)) Hr
              (line_curve i x v Hx Hv)) as [Hlen [Hdl Hd]].
  change (out_features_of (D_model (Discriminator__init__ i p)) i) with 1%nat in *.
  unfold input_gradient.
  rewrite (seq_adjoint _ i x v [1] Hr Hx Hv).
  specialize (Hd 0%nat ltac:(lia)).
  apply (derivable_pt_lim_ext _ (fun t => critic_score (Discriminator__init__ i p) (line x v t)))
    in Hd.
  2:{ intros t; unfold critic_score.
      specialize (Hlen t).
      destruct (apply_seq_row (D_model (Discriminator__init__ i p)) (line x v t));
        [discriminate|reflexivity]. }
  destruct (jvp_seq_row (D_model (Discriminator__init__ i p)) x v) as [|a [|b l]];
    try discriminate.
  simpl in *. replace (1 * a + 0) with a by lra. exact Hd.
Qed.

Lemma lerp_length (a : R) (r f : vec) (m : nat) :
  length r = m -> length f = m -> length (lerp a r f) = m.
Proof. intros Hr Hf; unfold lerp; rewrite map2_length; lia. Qed.

Lemma nth_row_length (x : matrix) (m k : nat) :
  Forall (fun r => length r = m) x -> (k < length x)%nat -> length (nth k x []) = m.
Proof.
  intros H Hk. rewrite Forall_forall in H. apply H, nth_In, Hk.
Qed.

(** ** Single precision *)









(** * The properties C1 to C10 of the notebook *)

(** C1 (as amended).  On two well-formed image batches of one shape
    (n, c, h, w), n >= 1, with c * h * w the input size of the critic, and
    for the n interpolation weights alpha drawn for the call,
    [compute_gradient_penalty] returns the mean over the samples k of
    (|| g_k ||_2 - 1)^2, where g_k is what the backward pass returns at
    xhat_k = alpha_k * real_k + (1 - alpha_k) * fake_k, the one weight
    alpha_k serving all the pixels of sample k; and g_k is the gradient of
    the critic's score with respect to its input at xhat_k: along every
    line through xhat_k the score has the slope g_k . v, wherever no leaky
    rectifier sits at its kink (there the backward pass takes the slope
    of the negative side). *)
Theorem gradient_penalty_is_batch_mean (d_input_dim : nat) (p : Discriminator_init)
    (real_samples fake_samples : tensor) (alpha : vec) (n c h w : nat) :
  shape real_samples = [n; c; h; w] -> shape fake_samples = [n; c; h; w] ->
  wf_tensor real_samples -> wf_tensor fake_samples ->
  (c * h * w)%nat = d_input_dim -> length alpha = n -> (1 <= n)%nat ->
  compute_gradient_penalty (Discriminator__init__ d_input_dim p)
    real_samples fake_samples alpha =
  Some (mean (map (fun k =>
          sq (norm2 (input_gradient (Discriminator__init__ d_input_dim p)
                       (lerp (nth k alpha 0) (nth k (rows real_samples) [])
                          (nth k (rows fake_samples) [])))
              - 1))
        (seq 0 n))) /\
  forall k v, (k < n)%nat -> length v = d_input_dim ->
    regular_at (D_model (Discriminator__init__ d_input_dim p)) d_input_dim
      (lerp (nth k alpha 0) (nth k (rows real_samples) [])
         (nth k (rows fake_samples) [])) ->
    derivable_pt_lim
      (fun t => critic_score (Discriminator__init__ d_input_dim p)
                  (line (lerp (nth k alpha 0) (nth k (rows real_samples) [])
                           (nth k (rows fake_samples) [])) v t))
      0
      (dot (input_gradient (Discriminator__init__ d_input_dim p)
              (lerp (nth k alpha 0) (nth k (rows real_samples) [])
                 (nth k (rows fake_samples) [])))
           v).
Proof.
  intros Hr Hf Wr Wf Hi Ha Hn.
  pose proof (shape_inv _ _ _ Hr) as [Hrn Hrd].
  pose proof (shape_inv _ _ _ Hf) as [Hfn Hfd].
  split.
  - rewrite (compute_gradient_penalty_eq d_input_dim p real_samples fake_samples alpha
               [c; h; w]); try congruence; try reflexivity; try lia.
    2:{ rewrite <- Hi; simpl; lia. }
    f_equal; f_equal.
    rewrite (map_seq_nth _ (interpolate alpha (rows real_samples) (rows fake_samples))
               (@nil R)).
    rewrite (interpolate_length alpha (rows real_samples) (rows fake_samples) n); auto.
    apply map_ext_in; intros k Hk; apply in_seq in Hk.
    cbv beta. rewrite interpolate_nth; auto; unfold size0 in *; lia.
  - intros k v Hk Hv Hreg.
    unfold wf_tensor in Wr, Wf; rewrite Hrd in Wr; rewrite Hfd in Wf.
    assert (Hm : numel [c; h; w] = d_input_dim) by (rewrite <- Hi; simpl; lia).
    unfold size0 in Hrn, Hfn.
    apply input_gradient_derivative; auto.
    apply lerp_length; rewrite <- Hm; apply nth_row_length; auto; lia.
Qed.

Lemma gradient_penalty_is_batch_mean_witness :
  shape (zeros_tensor 2 [1; 28; 28]%nat) = [2; 1; 28; 28]%nat /\
  wf_tensor (zeros_tensor 2 [1; 28; 28]%nat) /\
  (1 * 28 * 28)%nat = mnist_dim /\ length [0; 1] = 2%nat /\ (1 <= 2)%nat /\
  (0 < 2)%nat /\ length (repeat 1 mnist_dim) = mnist_dim /\
  regular_at (D_model (Discriminator__init__ mnist_dim D_init_ones)) mnist_dim
    (lerp (nth 0 [0; 1] 0) (nth 0 (rows (zeros_tensor 2 [1; 28; 28]%nat)) [])
       (nth 0 (rows (zeros_tensor 2 [1; 28; 28]%nat)) [])) /\
  derivable_pt_lim
    (fun t => critic_score (Discriminator__init__ mnist_dim D_init_ones)
                (line (lerp (nth 0 [0; 1] 0)
                         (nth 0 (rows (zeros_tensor 2 [1; 28; 28]%nat)) [])
                         (nth 0 (rows (zeros_tensor 2 [1; 28; 28]%nat)) []))
                   (repeat 1 mnist_dim) t))
    0
    (dot (input_gradient (Discriminator__init__ mnist_dim D_init_ones)
            (lerp (nth 0 [0; 1] 0)
               (nth 0 (rows (zeros_tensor 2 [1; 28; 28]%nat)) [])
               (nth 0 (rows (zeros_tensor 2 [1; 28; 28]%nat)) [])))
         (repeat 1 mnist_dim)).
Proof.
  pose proof (zeros_tensor_shape 2 [1; 28; 28]%nat) as Hs.
  pose proof (wf_zeros_tensor 2 [1; 28; 28]%nat) as Hw.
  assert (Hv : length (repeat 1 mnist_dim) = mnist_dim) by apply repeat_length.
  split; [exact Hs|]. split; [exact Hw|]. split; [reflexivity|].
  split; [reflexivity|]. split; [lia|]. split; [lia|]. split; [exact Hv|].
  assert (Hreg : regular_at (D_model (Discriminator__init__ mnist_dim D_init_ones))
                   mnist_dim
                   (lerp (nth 0 [0; 1] 0)
                      (nth 0 (rows (zeros_tensor 2 [1; 28; 28]%nat)) [])
                      (nth 0 (rows (zeros_tensor 2 [1; 28; 28]%nat)) []))).
  { apply D_init_ones_logit.
    - apply lerp_length; apply repeat_length.
    - apply (Forall_impl _ (P := in_closed 0 0)); [unfold in_closed; intros; lra|].
      apply lerp_between; [cbn [nth]; lra | |];
        apply Forall_repeat; unfold in_closed; lra. }
  split; [exact Hreg|].
  apply (proj2 (gradient_penalty_is_batch_mean mnist_dim D_init_ones
                  (zeros_tensor 2 [1; 28; 28]%nat) (zeros_tensor 2 [1; 28; 28]%nat)
                  [0; 1] 2 1 28 28 Hs Hs Hw Hw eq_refl eq_refl ltac:(lia))
          0%nat (repeat 1 mnist_dim) ltac:(lia) Hv).
  exact Hreg.
Defined.

(** C1, as stated, fails on batches that are not images: two batches of one
    shape (2, 784) are broadcast against the weights of shape (2, 1, 1, 1)
    to the shape (2, 1, 2, 784), which the critic refuses. *)
Lemma gradient_penalty_raises_on_flat_batches :
  shape (zeros_tensor 2 [784]%nat) = [2; 784]%nat /\ (1 <= 2)%nat /\
  compute_gradient_penalty (D_of D_init0)
    (zeros_tensor 2 [784]%nat) (zeros_tensor 2 [784]%nat) [0; 1] = None.
Proof.
  pose proof (zeros_tensor_shape 2 [784]%nat) as Hs.
  pose proof (shape_inv _ _ _ Hs) as [Hn Hd].
  split; [exact Hs|]. split; [lia|].
  unfold compute_gradient_penalty, interpolation.
  rewrite Hn, Hd, list_nat_eqb_refl.
  cbn [length Nat.eqb negb andb].
  unfold broadcast_interpolation. rewrite Hn, Hs.
  change (broadcast_shapes [2; 1; 1; 1]%nat [2; 784]%nat)
    with (Some [2; 1; 2; 784]%nat).
  cbn [bind].
  change (broadcast_shapes [2; 1; 2; 784]%nat [2; 1; 2; 784]%nat)
    with (Some [2; 1; 2; 784]%nat).
  cbn [bind hd tl].
  unfold D_of. rewrite Discriminator_forward_eq.
  unfold size0; cbn [rows dims]. rewrite chunks_length.
  reflexivity.
Qed.

(** C2.  In the critic phase of every batch, the loss on which
    [d_loss.backward()] is called is
    -mean(D(real_imgs)) + mean(D(fake_imgs)) + 10 * gradient_penalty, with
    fake_imgs = G(z) and gradient_penalty =
    compute_gradient_penalty(D, real_imgs, fake_imgs); fake_imgs being
    detached, the backward pass leaves the gradients of the generator as
    they were and adds to those of the discriminator the gradient of that
    loss with respect to the discriminator's parameters. *)
Theorem critic_loss_is_wgan_gp_objective
    (ag : (vec -> option R) -> vec -> vec) (s : state) (b : batch)
    (s' : state) (d_loss : R) :
  train_discriminator ag s b = Some (s', d_loss) ->
  exists fake_imgs d_real d_fake gradient_penalty,
    Generator_forward (G s) (latent b) = Some fake_imgs /\
    Discriminator_forward (D s) (imgs b) = Some d_real /\
    Discriminator_forward (D s) fake_imgs = Some d_fake /\
    compute_gradient_penalty (D s) (imgs b) fake_imgs (alpha b) = Some gradient_penalty /\
    d_loss = - mean (elements d_real) + mean (elements d_fake) + 10 * gradient_penalty /\
    G_grad s' = G_grad s /\
    D_grad s' =
      accumulate (zero_grad (D_grad s))
        (ag (d_loss_of_D (D s) b fake_imgs) (parameters (D_model (D s)))).
Proof.
  intros H; apply critic_phase_effect in H.
  destruct H as [fake [HG [HC [_ [Hgg [_ [Hdg _]]]]]]].
  unfold critic_loss in HC.
  destruct (compute_gradient_penalty (D s) (imgs b) fake (alpha b)) as [gp|] eqn:Egp;
    cbn [bind] in HC; [|discriminate].
  destruct (Discriminator_forward (D s) (imgs b)) as [dr|] eqn:Er;
    cbn [bind] in HC; [|discriminate].
  destruct (Discriminator_forward (D s) fake) as [df|] eqn:Ef;
    cbn [bind] in HC; [|discriminate].
  injection HC as <-.
  exists fake, dr, df, gp; repeat split; auto.
Qed.

Lemma critic_loss_is_wgan_gp_objective_witness :
  exists s' d_loss fake_imgs d_real d_fake gradient_penalty,
    train_discriminator autograd0 (init_state G_init0 D_init0) batch0 = Some (s', d_loss) /\
    Generator_forward (G_of G_init0) (latent batch0) = Some fake_imgs /\
    Discriminator_forward (D_of D_init0) (imgs batch0) = Some d_real /\
    Discriminator_forward (D_of D_init0) fake_imgs = Some d_fake /\
    compute_gradient_penalty (D_of D_init0) (imgs batch0) fake_imgs (alpha batch0)
      = Some gradient_penalty /\
    d_loss = - mean (elements d_real) + mean (elements d_fake) + 10 * gradient_penalty.
Proof.
  destruct (train_discriminator_total autograd0 (init_state G_init0 D_init0) batch0
              (architecture_init G_init0 D_init0) usable_batch0) as [s' [l [H _]]].
  destruct (critic_loss_is_wgan_gp_objective autograd0 _ _ _ _ H)
    as [fake [dr [df [gp [A [B [C [E [F _]]]]]]]]].
  exists s', l, fake, dr, df, gp; repeat split; auto.
Defined.

(** C3 (as amended).  The critic is updated on every batch; the generator is
    updated on the batches whose index in the epoch is a multiple of 5, so
    that after k batches of an epoch the critic has been updated k times and
    the generator ceil(k / 5) times; a batch whose index is not a multiple
    of 5 leaves the generator and its optimizer as they were. *)
Theorem generator_update_schedule
    (ag : (vec -> option R) -> vec -> vec) (s : state) (loader : list batch)
    (s' : state) :
  train_epoch ag s loader = Some s' ->
  state_step (optimizer_D s') = (state_step (optimizer_D s) + length loader)%nat /\
  state_step (optimizer_G s') =
    (state_step (optimizer_G s) + (length loader + 4) / 5)%nat /\
  forall s1 i b s2, train_batch ag s1 i b = Some s2 ->
    state_step (optimizer_D s2) = S (state_step (optimizer_D s1)) /\
    ((i mod 5)%nat = 0%nat ->
       state_step (optimizer_G s2) = S (state_step (optimizer_G s1))) /\
    ((i mod 5)%nat <> 0%nat -> G s2 = G s1 /\ optimizer_G s2 = optimizer_G s1).
Proof.
  intros H; unfold train_epoch in H.
  apply train_batches_steps in H; destruct H as [HD HG].
  rewrite generator_turns_from_0 in HG.
  split; [exact HD|]. split; [exact HG|].
  intros s1 i b s2 Hb.
  pose proof (train_batch_steps ag _ _ _ _ Hb) as [A [B _]].
  split; [exact A|]. split.
  - intros Hi. rewrite B; unfold generator_turn, n_critic.
    apply Nat.eqb_eq in Hi; rewrite Hi; lia.
  - intros Hi. apply train_batch_inv in Hb.
    destruct Hb as [s1' [d_loss [H1 [[Hi' _] | [_ ->]]]]].
    + unfold n_critic in Hi'; contradiction.
    + apply critic_phase_steps in H1.
      destruct H1 as [_ [_ [_ [A4 [A5 _]]]]]; auto.
Qed.

Lemma generator_update_schedule_witness :
  exists s',
    train_epoch autograd0 (init_state G_init0 D_init0) (repeat batch0 6) = Some s' /\
    state_step (optimizer_D s') = 6%nat /\ state_step (optimizer_G s') = 2%nat.
Proof.
  destruct (train_batches_total autograd0 (repeat batch0 6)
              (init_state G_init0 D_init0) 0
              (architecture_init G_init0 D_init0)
              (Forall_repeat usable_batch batch0 6 usable_batch0)) as [s' [H _]].
  destruct (generator_update_schedule autograd0 _ _ _ H) as [A [B _]].
  exists s'; split; [exact H|]. split; [exact A | exact B].
Defined.

(** C3, as stated, fails on the first batch of training: the generator is
    updated, and its parameters move, when the critic has been updated once,
    fewer than [n_critic] times. *)
Lemma generator_updated_after_one_critic_update :
  exists s',
    train_epoch autograd1 (init_state G_init0 D_init0) [batch0] = Some s' /\
    state_step (optimizer_D s') = 1%nat /\
    state_step (optimizer_G s') = 1%nat /\
    (1 < n_critic)%nat /\
    first_parameter (G s') <> first_parameter (G (init_state G_init0 D_init0)).
Proof.
  destruct (train_batches_total autograd1 [batch0]
              (init_state G_init0 D_init0) 0
              (architecture_init G_init0 D_init0)
              (Forall_cons _ usable_batch0 (Forall_nil _))) as [s' [H _]].
  pose proof (train_batches_steps autograd1 _ _ _ _ H) as [A B].
  exists s'; split; [exact H|].
  split; [exact A|]. split; [exact B|]. split; [unfold n_critic; lia|].
  apply train_batches_one, train_batch_inv in H.
  destruct H as [sc [d_loss [Hc [[_ [s2 [g_loss [Hg ->]]]] | [Hi _]]]]].
  - apply critic_phase_effect in Hc.
    destruct Hc as [_ [_ [_ [HG [Hgr [Ho _]]]]]].
    rewrite init_state_G in HG. rewrite init_state_optimizer_G in Ho.
    pose proof (first_generator_step_moves_parameters sc s2 batch0 g_loss
                  HG Hgr Ho Hg) as Hlt.
    cbn [record_losses G]. rewrite init_state_G.
    rewrite first_parameter_G0. lra.
  - exfalso; apply Hi; reflexivity.
Qed.

(** C4.  In the generator phase, the loss on which [g_loss.backward()] is
    called is -mean(D(G(z))) for the latent batch z; no gradient-penalty
    term enters it. *)
Theorem generator_loss_is_wgan_objective
    (ag : (vec -> option R) -> vec -> vec) (s : state) (b : batch)
    (s' : state) (g_loss : R) :
  train_generator ag s b = Some (s', g_loss) ->
  exists gen_imgs validity,
    Generator_forward (G s) (latent b) = Some gen_imgs /\
    Discriminator_forward (D s) gen_imgs = Some validity /\
    g_loss = - mean (elements validity) /\
    generator_loss (G s) (D s) (latent b) = Some g_loss.
Proof.
  intros H; apply generator_phase_effect in H.
  destruct H as [gen [v [HG [HD [Hl _]]]]].
  exists gen, v; repeat split; auto.
  unfold generator_loss; rewrite HG; cbn [bind]; rewrite HD; cbn [bind].
  now rewrite Hl.
Qed.

Lemma generator_loss_is_wgan_objective_witness :
  exists s' g_loss gen_imgs validity,
    train_generator autograd0 (init_state G_init0 D_init0) batch0 = Some (s', g_loss) /\
    Generator_forward (G_of G_init0) (latent batch0) = Some gen_imgs /\
    Discriminator_forward (D_of D_init0) gen_imgs = Some validity /\
    g_loss = - mean (elements validity).
Proof.
  destruct (train_generator_total autograd0 (init_state G_init0 D_init0) batch0
              (architecture_init G_init0 D_init0) usable_batch0) as [s' [l [H _]]].
  destruct (generator_loss_is_wgan_objective autograd0 _ _ _ _ H)
    as [gen [v [A [B [C _]]]]].
  exists s', l, gen, v; repeat split; auto.
Defined.



(** C6.  In every state that training reaches from the initial one, both
    optimizers are Adam with learning rate 0.0002 and betas (0.5, 0.999);
    one more batch changes the discriminator by one step of [optimizer_D]
    and the generator either not at all or by one step of [optimizer_G]. *)
Theorem parameters_change_only_by_Adam
    (ag : (vec -> option R) -> vec -> vec)
    (pg : Generator_init) (pd : Discriminator_init)
    (loaders : list (list batch)) (s : state) (i : nat) (b : batch) (s' : state) :
  train ag (init_state pg pd) loaders = Some s ->
  train_batch ag s i b = Some s' ->
  notebook_Adam (optimizer_G s) /\ notebook_Adam (optimizer_D s) /\
  (exists g,
     D s' = D_with (D s)
              (fst (Adam_step (optimizer_D s) (parameters (D_model (D s))) (Some g)))) /\
  (G s' = G s \/
   exists g,
     G s' = G_with (G s)
              (fst (Adam_step (optimizer_G s) (parameters (G_model (G s))) (Some g)))).
Proof.
  intros Ht Hb.
  destruct (train_keeps_Adam ag loaders _ _ Ht (notebook_Adam_init pg pd)) as [HG HD].
  split; [exact HG|]. split; [exact HD|].
  apply train_batch_inv in Hb.
  destruct Hb as [s1 [d_loss [H1 H]]].
  apply critic_phase_steps in H1.
  destruct H1 as [_ [_ [_ [A4 [A5 [g Hg]]]]]].
  destruct H as [[Hi [s2 [g_loss [H2 ->]]]] | [Hi ->]].
  - apply generator_phase_steps in H2.
    destruct H2 as [_ [_ [_ [B4 [B5 [g' Hg']]]]]].
    cbn [record_losses G D].
    split.
    + exists g; now rewrite B5.
    + right; exists g'. now rewrite Hg', A5, A4.
  - split; [exists g; exact Hg | left; exact A5].
Qed.

Lemma parameters_change_only_by_Adam_witness :
  exists s',
    train autograd0 (init_state G_init0 D_init0) [] = Some (init_state G_init0 D_init0) /\
    train_batch autograd0 (init_state G_init0 D_init0) 0 batch0 = Some s' /\
    notebook_Adam (optimizer_G (init_state G_init0 D_init0)) /\
    notebook_Adam (optimizer_D (init_state G_init0 D_init0)).
Proof.
  destruct (train_batch_total autograd0 (init_state G_init0 D_init0) 0 batch0
              (architecture_init G_init0 D_init0) usable_batch0) as [s' [H _]].
  destruct (parameters_change_only_by_Adam autograd0 G_init0 D_init0 []
              (init_state G_init0 D_init0) 0 batch0 s' eq_refl H) as [A [B _]].
  exists s'; repeat split; auto; apply A || apply B.
Defined.

(** C7 (as amended).  The generator is the stack Linear(100,128), LeakyReLU,
    three blocks Linear + BatchNorm1d + LeakyReLU (128 to 256, 256 to 512,
    512 to 1024), Linear(1024,784) and Tanh; its forward pass maps every
    latent batch of shape (n, 100) with at least two rows to an image batch
    of shape (n, 1, 28, 28) whose data fill that shape. *)
Theorem Generator_layers_and_shape (p : Generator_init) (z : tensor) (n : nat) :
  wf_Generator_init z_dim mnist_dim p ->
  shape z = [n; 100]%nat -> (2 <= n)%nat ->
  map kind (G_model (G_of p)) = Generator_architecture /\
  exists image,
    Generator_forward (G_of p) z = Some image /\
    shape image = [n; 1; 28; 28]%nat /\ wf_tensor image.
Proof.
  intros Hp Hz Hn.
  apply shape_inv in Hz; destruct Hz as [Hs Hd].
  split; [reflexivity|].
  eexists; split; [apply Generator_forward_ok; [exact Hd | lia]|].
  split.
  - unfold shape, size0; cbn [rows dims].
    now rewrite apply_seq_length; fold (size0 z); rewrite Hs.
  - unfold wf_tensor; cbn [rows dims]; rewrite numel_example.
    apply G_output_wf, Hp.
Qed.

Lemma Generator_layers_and_shape_witness :
  wf_Generator_init z_dim mnist_dim G_init0 /\
  shape (zeros_tensor 2 [z_dim]) = [2; 100]%nat /\ (2 <= 2)%nat /\
  map kind (G_model (G_of G_init0)) = Generator_architecture /\
  exists image,
    Generator_forward (G_of G_init0) (zeros_tensor 2 [z_dim]) = Some image /\
    shape image = [2; 1; 28; 28]%nat /\ wf_tensor image.
Proof.
  split; [exact wf_G_init0|].
  split; [apply zeros_tensor_shape|].
  split; [lia|].
  apply (Generator_layers_and_shape G_init0 (zeros_tensor 2 [z_dim]) 2).
  - exact wf_G_init0.
  - apply zeros_tensor_shape.
  - lia.
Defined.

(** C7, as stated, fails for a single latent vector: the first
    [BatchNorm1d], in training mode, refuses a batch of one row. *)
Lemma Generator_rejects_single_latent :
  shape (zeros_tensor 1 [z_dim]) = [1; 100]%nat /\
  wf_tensor (zeros_tensor 1 [z_dim]) /\
  Generator_forward (G_of G_init0) (zeros_tensor 1 [z_dim]) = None.
Proof.
  split; [apply zeros_tensor_shape|].
  split; [apply wf_zeros_tensor|].
  apply Generator_forward_single; [reflexivity|].
  pose proof (zeros_tensor_shape 1 [z_dim]) as H.
  now apply shape_inv in H.
Qed.

(** C8.  The critic phase leaves the generator as it was (its parameters,
    their gradients and its optimizer); the generator phase leaves the
    parameters of the discriminator and its optimizer as they were. *)
Theorem each_phase_leaves_other_network
    (ag : (vec -> option R) -> vec -> vec)
    (sd : state) (bd : batch) (sd' : state) (d_loss : R)
    (sg : state) (bg : batch) (sg' : state) (g_loss : R) :
  train_discriminator ag sd bd = Some (sd', d_loss) ->
  train_generator ag sg bg = Some (sg', g_loss) ->
  (G sd' = G sd /\ parameters (G_model (G sd')) = parameters (G_model (G sd)) /\
   G_grad sd' = G_grad sd /\ optimizer_G sd' = optimizer_G sd) /\
  (D sg' = D sg /\ parameters (D_model (D sg')) = parameters (D_model (D sg)) /\
   optimizer_D sg' = optimizer_D sg).
Proof.
  intros Hd Hg.
  apply critic_phase_effect in Hd.
  destruct Hd as [fake [_ [_ [A [B [C _]]]]]].
  apply generator_phase_effect in Hg.
  destruct Hg as [gen [v [_ [_ [_ [E [F _]]]]]]].
  rewrite A, E; repeat split; auto.
Qed.

Lemma each_phase_leaves_other_network_witness :
  exists sd' d_loss sg' g_loss,
    train_discriminator autograd0 (init_state G_init0 D_init0) batch0 = Some (sd', d_loss) /\
    train_generator autograd0 sd' batch0 = Some (sg', g_loss) /\
    G sd' = G_of G_init0 /\ D sg' = D sd'.
Proof.
  destruct (train_discriminator_total autograd0 (init_state G_init0 D_init0) batch0
              (architecture_init G_init0 D_init0) usable_batch0) as [sd' [l [H Hs]]].
  destruct (train_generator_total autograd0 sd' batch0 Hs usable_batch0)
    as [sg' [l' [H' _]]].
  destruct (each_phase_leaves_other_network autograd0 _ _ _ _ _ _ _ _ H H')
    as [[A _] [B _]].
  exists sd', l, sg', l'; repeat split; auto.
Defined.

(** C9.  Whenever [compute_gradient_penalty] returns, on batches of any
    shapes, broadcast or not, its value is not negative, and the critic loss
    is then at least the loss without the penalty term,
    -mean(D(real)) + mean(D(fake)). *)
Theorem gradient_penalty_nonnegative (d : Discriminator)
    (real_samples fake_samples : tensor) (alpha : vec) (gp : R) :
  compute_gradient_penalty d real_samples fake_samples alpha = Some gp ->
  0 <= gp /\
  forall d_loss, critic_loss d real_samples fake_samples alpha = Some d_loss ->
    exists d_real d_fake,
      Discriminator_forward d real_samples = Some d_real /\
      Discriminator_forward d fake_samples = Some d_fake /\
      d_loss = - mean (elements d_real) + mean (elements d_fake) + lambda_gp * gp /\
      - mean (elements d_real) + mean (elements d_fake) <= d_loss.
Proof.
  intros H. pose proof (compute_gradient_penalty_nonneg _ _ _ _ _ H) as Hgp.
  split; [exact Hgp|].
  intros d_loss. unfold critic_loss. rewrite H; cbn [bind].
  destruct (Discriminator_forward d real_samples) as [d_real|]; cbn [bind]; [|discriminate].
  destruct (Discriminator_forward d fake_samples) as [d_fake|]; cbn [bind]; [|discriminate].
  intros E; injection E as <-.
  exists d_real, d_fake; repeat split; auto.
  unfold lambda_gp; lra.
Qed.

(** Two real images against one fake image, which is broadcast. *)
Lemma gradient_penalty_nonnegative_witness :
  exists gp,
    compute_gradient_penalty (D_of D_init0) (zeros_tensor 2 [1; 28; 28]%nat)
      (zeros_tensor 1 [1; 28; 28]%nat) [0; 1] = Some gp /\ 0 <= gp.
Proof.
  destruct (compute_gradient_penalty_broadcasts mnist_dim D_init0
              (zeros_tensor 2 [1; 28; 28]%nat) (zeros_tensor 1 [1; 28; 28]%nat)
              [0; 1] 2 1 28 28 (zeros_tensor_shape _ _) (zeros_tensor_shape _ _)
              eq_refl eq_refl ltac:(lia)) as [gp H].
  exists gp; split; [exact H|].
  exact (proj1 (gradient_penalty_nonnegative (D_of D_init0) _ _ _ gp H)).
Defined.

(** C10 (as amended).  Every element of an image that [Generator.forward]
    returns lies in the closed interval from -1 to 1, the range into which
    the training images are normalised: [Normalize([0.5], [0.5])] maps the
    pixel values of [0, 1] into it and the pixel values 0 and 1 to its
    bounds. *)
Theorem Generator_output_in_tanh_range (p : Generator_init) (z image : tensor) :
  Generator_forward (G_of p) z = Some image ->
  Forall (in_closed (-1) 1) (elements image) /\
  (forall x, 0 <= x <= 1 -> in_closed (-1) 1 (transform x)) /\
  transform 0 = -1 /\ transform 1 = 1.
Proof.
  intros H. split; [|split; [exact transform_range | split; [exact transform_0 | exact transform_1]]].
  unfold Generator_forward, G_of in H.
  rewrite forward_seq_split in H.
  destruct (seq_dims _ _ _) as [d|]; cbn [option_map bind] in H; [|discriminate].
  unfold view0 in H; cbn [dims rows] in H.
  destruct (_ =? _)%nat; [|discriminate].
  assert (E : rows image = apply_seq (G_model (Generator__init__ z_dim mnist_dim p)) (rows z))
    by (injection H as <-; reflexivity).
  unfold elements; rewrite E, G_output_rows.
  apply Forall_concat_map; intros a.
  pose proof (tanh_range a) as [A B]. unfold in_closed; lra.
Qed.

Lemma Generator_output_in_tanh_range_witness :
  exists image,
    Generator_forward (G_of G_init0) (zeros_tensor 2 [z_dim]) = Some image /\
    Forall (in_closed (-1) 1) (elements image).
Proof.
  eexists; split.
  - apply Generator_forward_ok; [reflexivity|].
    pose proof (zeros_tensor_shape 2 [z_dim]) as H.
    apply shape_inv in H; destruct H as [H _]; rewrite H; discriminate.
  - refine (proj1 (Generator_output_in_tanh_range G_init0 (zeros_tensor 2 [z_dim]) _ _)).
    apply Generator_forward_ok; [reflexivity|].
    pose proof (zeros_tensor_shape 2 [z_dim]) as H.
    apply shape_inv in H; destruct H as [H _]; rewrite H; discriminate.
Defined.

(** C10, as stated, fails at the bounds: a white pixel is normalised to 1,
    which is not strictly between -1 and 1. *)
Lemma normalized_white_pixel_outside_open_range :
  0 <= 1 <= 1 /\ ~ in_open (-1) 1 (transform 1).
Proof.
  split; [lra|]. rewrite transform_1; unfold in_open; lra.
Qed.
